(** * Maj. Pickletooth bot (src/index.js): a shallow embedding

    The bot's process-wide state (flag map, per-channel memory, aliases,
    last-response timestamps, manual log, data files) is one record,
    [World].  Every function of [src/index.js] that touches that state, or
    that can throw, is a computation in the monad [M]: it maps a world to a
    completion ([Ok] or [Threw]) and the world it leaves behind.  The
    platform calls whose outcome the bot cannot decide (permission to
    rename, the generation backend, the network, the clock, [Math.random])
    are read from an [Env] record, one per handled event.

    [M] runs a handler from its start to its end.  Handlers are [async]
    functions, though, and a second one can start while the first awaits a
    platform call: [Async] keeps the awaits, [schedule] runs handlers that
    overlap, and [run] is the schedule in which they do not.

    Text is modelled by [string] over 8-bit characters; [toLowerCase] and
    the whitespace class act on the ASCII range. *)

From Stdlib Require Import ZArith QArith Qround Ascii String List Lia.
From stdpp Require Import base option list gmap strings.

Set Warnings "-register-all".

Local Open Scope Z_scope.

(** ** JavaScript string and array primitives *)

Module Js.

(** Truthiness of a string value: only the empty string is falsy. *)
Definition truthy (s : string) : bool :=
  match s with EmptyString => false | String _ _ => true end.

(** [a || b] on strings. *)
Definition or_else (a b : string) : string := if truthy a then a else b.

(** [a || b] where [a] may be [undefined]/[null]. *)
Definition opt_or_else (a : option string) (b : string) : string :=
  match a with Some s => or_else s b | None => b end.

Definition isUpper (c : ascii) : bool :=
  let n := N_of_ascii c in (65 <=? n)%N && (n <=? 90)%N.

Definition lowerChar (c : ascii) : ascii :=
  if isUpper c then ascii_of_N (N_of_ascii c + 32) else c.

(** [String.prototype.toLowerCase]. *)
Fixpoint toLowerCase (s : string) : string :=
  match s with
  | EmptyString => EmptyString
  | String c s' => String (lowerChar c) (toLowerCase s')
  end.

(** [s.startsWith(p)]. *)
Fixpoint startsWith (p s : string) : bool :=
  match p, s with
  | EmptyString, _ => true
  | String a p', String b s' => if Ascii.eqb a b then startsWith p' s' else false
  | String _ _, EmptyString => false
  end.

(** [s.includes(t)]: [t] occurs in [s] as a contiguous substring. *)
Fixpoint includes (t s : string) : bool :=
  startsWith t s ||
  match s with
  | EmptyString => false
  | String _ s' => includes t s'
  end.

(** The regular-expression class [\s], on the ASCII range. *)
Definition isSpace (c : ascii) : bool :=
  let n := N_of_ascii c in ((9 <=? n)%N && (n <=? 13)%N) || (n =? 32)%N.

Fixpoint trimStart (s : string) : string :=
  match s with
  | EmptyString => EmptyString
  | String c s' => if isSpace c then trimStart s' else s
  end.

Fixpoint trimEnd (s : string) : string :=
  match s with
  | EmptyString => EmptyString
  | String c s' =>
      let r := trimEnd s' in
      if isSpace c && negb (truthy r) then EmptyString else String c r
  end.

(** [String.prototype.trim]. *)
Definition trim (s : string) : string := trimEnd (trimStart s).

(** [s.slice(1)]. *)
Definition slice1 (s : string) : string :=
  match s with EmptyString => EmptyString | String _ s' => s' end.

(** [s.slice(0, n)]. *)
Fixpoint sliceTo (n : nat) (s : string) : string :=
  match n, s with
  | S n', String c s' => String c (sliceTo n' s')
  | _, _ => EmptyString
  end.

(** [s.split(/\s+/)]: [cur] is the token being read, [inWs] tells that
    the previous character was whitespace. *)
Fixpoint splitWs_aux (inWs : bool) (cur : string) (s : string) : list string :=
  match s with
  | EmptyString => [cur]
  | String c s' =>
      if isSpace c
      then (if inWs then splitWs_aux true EmptyString s'
            else cur :: splitWs_aux true EmptyString s')
      else splitWs_aux false (cur +:+ String c EmptyString) s'
  end.

Definition splitWs (s : string) : list string := splitWs_aux false EmptyString s.

(** [a.join(sep)]. *)
Definition join (sep : string) (l : list string) : string := String.concat sep l.

Definition isDigit (c : ascii) : bool :=
  let n := N_of_ascii c in (48 <=? n)%N && (n <=? 57)%N.

(** Longest prefix of digits, and what follows it. *)
Fixpoint spanDigits (s : string) : string * string :=
  match s with
  | EmptyString => (EmptyString, EmptyString)
  | String c s' =>
      if isDigit c
      then let '(d, r) := spanDigits s' in (String c d, r)
      else (EmptyString, s)
  end.

(** The pattern [<@!?([0-9]+)>] anchored at the head of [s]; the result is
    capture group 1. *)
Definition mentionAt (s : string) : option string :=
  match s with
  | String "<" (String "@" s1) =>
      let s2 := match s1 with String "!" r => r | _ => s1 end in
      let '(d, r) := spanDigits s2 in
      if truthy d && startsWith ">" r then Some d else None
  | _ => None
  end.

(** [s.match(/<@!?(\d+)>/)], leftmost match; [Some id] is [match[1]]. *)
Fixpoint matchMention (s : string) : option string :=
  match mentionAt s with
  | Some d => Some d
  | None =>
      match s with
      | EmptyString => None
      | String _ s' => matchMention s'
      end
  end.

(** [Array.prototype.slice(start)] with one (integral) argument. *)
Definition slice {A} (start : Z) (l : list A) : list A :=
  let len := Z.of_nat (length l) in
  let k := if start <? 0 then Z.max (len + start) 0 else Z.min start len in
  drop (Z.to_nat k) l.

(** [a < b] on numbers. *)
Definition lt (a b : Q) : bool := negb (Qle_bool b a).

End Js.


(** ** Data model *)

(** One recorded utterance of a channel's memory. *)
Record MemoryTurn := { speaker : string; text : string }.

(** The value stored in [maggots] for a flagged user: [{ name, at }]. *)
Record MaggotEntry := { name : string; at_ : Z }.

(** A catalogue entry of [PERSONA_STATES]. *)
Record PersonaState := { state_name : string; style : string }.

(** The guild member object handed to the handlers. *)
Record GuildMember := {
  member_id : string;
  nickname : option string;      (* [null] when no nickname is set *)
  displayName : string;
}.


(** Observable actions, in the order they happen. *)
Inductive Effect :=
| SetNickname (userId : string) (nick : option string)
| Reply (body : string)
| ConsoleWarn (msg : string)
| ConsoleError (msg : string)
| GenerateContent (system prompt : string)
| CreateChannel (channelName : string).

(** The process-wide mutable state, the data directory and the log of
    effects. *)
Record World := {
  maggots : gmap string MaggotEntry;
  memoryMap : gmap string (list MemoryTurn);
  aliasMap : gmap string string;
  lastResponseByChannel : gmap string Z;
  manualLog : string;
  fs : gmap string string;         (* path |-> file content *)
  trace : list Effect;
}.

Definition with_maggots (f : gmap string MaggotEntry -> gmap string MaggotEntry) (w : World) : World :=
  {| maggots := f (maggots w); memoryMap := memoryMap w; aliasMap := aliasMap w;
     lastResponseByChannel := lastResponseByChannel w; manualLog := manualLog w;
     fs := fs w; trace := trace w |}.

Definition with_memoryMap (f : gmap string (list MemoryTurn) -> gmap string (list MemoryTurn)) (w : World) : World :=
  {| maggots := maggots w; memoryMap := f (memoryMap w); aliasMap := aliasMap w;
     lastResponseByChannel := lastResponseByChannel w; manualLog := manualLog w;
     fs := fs w; trace := trace w |}.

Definition with_aliasMap (f : gmap string string -> gmap string string) (w : World) : World :=
  {| maggots := maggots w; memoryMap := memoryMap w; aliasMap := f (aliasMap w);
     lastResponseByChannel := lastResponseByChannel w; manualLog := manualLog w;
     fs := fs w; trace := trace w |}.

Definition with_lastResponse (f : gmap string Z -> gmap string Z) (w : World) : World :=
  {| maggots := maggots w; memoryMap := memoryMap w; aliasMap := aliasMap w;
     lastResponseByChannel := f (lastResponseByChannel w); manualLog := manualLog w;
     fs := fs w; trace := trace w |}.

Definition with_manualLog (s : string) (w : World) : World :=
  {| maggots := maggots w; memoryMap := memoryMap w; aliasMap := aliasMap w;
     lastResponseByChannel := lastResponseByChannel w; manualLog := s;
     fs := fs w; trace := trace w |}.

Definition with_fs (f : gmap string string -> gmap string string) (w : World) : World :=
  {| maggots := maggots w; memoryMap := memoryMap w; aliasMap := aliasMap w;
     lastResponseByChannel := lastResponseByChannel w; manualLog := manualLog w;
     fs := f (fs w); trace := trace w |}.

Definition with_effect (e : Effect) (w : World) : World :=
  {| maggots := maggots w; memoryMap := memoryMap w; aliasMap := aliasMap w;
     lastResponseByChannel := lastResponseByChannel w; manualLog := manualLog w;
     fs := fs w; trace := trace w ++ [e] |}.

(** The state of a freshly started process whose data directory holds no
    memory or alias file. *)
Definition initial_world : World :=
  {| maggots := ∅; memoryMap := ∅; aliasMap := ∅; lastResponseByChannel := ∅;
     manualLog := ""; fs := ∅; trace := [] |}.

(** ** The monad of handlers: state and exceptions *)

Inductive Result (A : Type) :=
| Ok (a : A)
| Threw (message : string).
Arguments Ok {A} a.
Arguments Threw {A} message.

Definition M (A : Type) : Type := World -> Result A * World.

Definition ret {A} (a : A) : M A := fun w => (Ok a, w).

Definition bind {A B} (m : M A) (k : A -> M B) : M B :=
  fun w => match m w with
           | (Ok a, w') => k a w'
           | (Threw e, w') => (Threw e, w')
           end.

Definition throw {A} (e : string) : M A := fun w => (Threw e, w).

(** [try { body } catch (e) { handler(e.message) }]. *)
Definition try_catch {A} (body : M A) (handler : string -> M A) : M A :=
  fun w => match body w with
           | (Ok a, w') => (Ok a, w')
           | (Threw e, w') => handler e w'
           end.

Definition gets {A} (f : World -> A) : M A := fun w => (Ok (f w), w).
Definition modify (f : World -> World) : M unit := fun w => (Ok tt, f w).
Definition emit (e : Effect) : M unit := modify (with_effect e).

Declare Scope js_scope.
Delimit Scope js_scope with js.
Notation "x <- m ;; k" := (bind m (fun x => k))
  (at level 100, m at next level, right associativity) : js_scope.
Notation "m ;; k" := (bind m (fun _ => k))
  (at level 100, right associativity) : js_scope.
Local Open Scope js_scope.

(** The world a computation leaves behind, whatever its completion. *)
Definition exec {A} (m : M A) (w : World) : World := snd (m w).

(** ** Asynchronous functions: a handler between its awaits

    An [async] function runs without interruption up to an [await] of a
    platform call.  There it is suspended, other handlers run, and when
    the call has settled the function is resumed.  A run segment ends in a
    [Step]: the function is done, or it awaits, with what runs when it is
    resumed.  [M] above is the case where nothing runs in between:
    [complete] resumes at once. *)

Inductive Step (A : Type) :=
| Done (a : A)
| Await (resume : World -> Result (Step A) * World).
Arguments Done {A} a.
Arguments Await {A} resume.

Definition Async (A : Type) : Type := M (Step A).

(** Code without an [await]. *)
Definition sync {A} (m : M A) : Async A := a <- m ;; ret (Done a).

(** [await call]: the call takes effect, and settles, when the function
    is resumed. *)
Definition await {A} (call : M A) : Async A := ret (Await (sync call)).

(** Sequencing: what follows an [await] is part of what is resumed. *)
Fixpoint bindStep {A B} (s : Step A) (k : A -> Async B) : Async B :=
  match s with
  | Done a => k a
  | Await resume =>
      ret (Await (fun w => match resume w with
                           | (Ok s', w') => bindStep s' k w'
                           | (Threw e, w') => (Threw e, w')
                           end))
  end.

Definition bindA {A B} (m : Async A) (k : A -> Async B) : Async B :=
  s <- m ;; bindStep s k.

(** [try { body } catch (e) { handler(e.message) }] around awaits: the
    handler also catches what the body throws after it was resumed. *)
Fixpoint tryStep {A} (s : Step A) (handler : string -> Async A) : Step A :=
  match s with
  | Done a => Done a
  | Await resume =>
      Await (fun w => match resume w with
                      | (Ok s', w') => (Ok (tryStep s' handler), w')
                      | (Threw e, w') => handler e w'
                      end)
  end.

Definition tryA {A} (body : Async A) (handler : string -> Async A) : Async A :=
  fun w => match body w with
           | (Ok s, w') => (Ok (tryStep s handler), w')
           | (Threw e, w') => handler e w'
           end.

(** The function run to its end with every awaited call settling at once. *)
Fixpoint completeStep {A} (s : Step A) : M A :=
  match s with
  | Done a => ret a
  | Await resume =>
      fun w => match resume w with
               | (Ok s', w') => completeStep s' w'
               | (Threw e, w') => (Threw e, w')
               end
  end.

Definition complete {A} (m : Async A) : M A := s <- m ;; completeStep s.

Notation "x <~ m ;; k" := (bindA m (fun x => k))
  (at level 100, m at next level, right associativity) : js_scope.
Notation "m ;;~ k" := (bindA m (fun _ => k))
  (at level 100, right associativity) : js_scope.

(** Induction over the segments of an asynchronous function. *)
Section StepInd.
Context {A : Type} (P : Step A -> Prop).
Hypothesis HDone : forall a, P (Done a).
Hypothesis HAwait : forall resume,
  (forall w, match fst (resume w) with Ok s => P s | Threw _ => True end) ->
  P (Await resume).

Fixpoint Step_induction (s : Step A) : P s :=
  match s with
  | Done a => HDone a
  | Await resume =>
      HAwait resume
        (fun w =>
           match resume w as p
             return match fst p with Ok s => P s | Threw _ => True end with
           | (Ok s0, _) => Step_induction s0
           | (Threw _, _) => I
           end)
  end.
End StepInd.

(** The event loop: the process state and the handlers that are suspended
    at an [await], in the order they were suspended. *)
Record Loop := { current : World; suspended : list (Async unit) }.

(** Runs a handler, or what is resumed of one, up to its next [await]; a
    handler that throws is dropped. *)
Definition advance (task : Async unit) (l : Loop) : Loop :=
  match task (current l) with
  | (Ok (Await resume), w') => {| current := w'; suspended := suspended l ++ [resume] |}
  | (Ok (Done _), w') => {| current := w'; suspended := suspended l |}
  | (Threw _, w') => {| current := w'; suspended := suspended l |}
  end.

(** ** Platform primitives *)

(** [message.reply(body)]: the platform's delivery primitive, taken to
    deliver. *)
Definition reply (body : string) : M unit := emit (Reply body).

Definition console_warn (msg : string) : M unit := emit (ConsoleWarn msg).
Definition console_error (msg : string) : M unit := emit (ConsoleError msg).

(** A line feed. *)
Definition nl : string := String (ascii_of_N 10) EmptyString.

(** ** LOG & IMAGE INGEST: attachments and their download

    [collectDocText] and [collectImageParts] with their helpers, on the
    message's attachments; the network is a function from a URL to what
    [fetch] gives for it. *)

Module Ingest.

(** A message attachment: the fields read by the helpers. *)
Record Attachment := {
  att_name : option string;          (* [att.name], [null] when absent *)
  att_contentType : option string;   (* [att.contentType] *)
  att_url : string;
}.

(** What [fetch] resolves to.  The body is given under its three readings:
    as text ([r.text()]), as base64 of its bytes, and as the pages of text
    items that pdfjs makes of the bytes ([None] when pdfjs rejects them). *)
Record HttpResponse := {
  ok : bool;
  status_line : string;              (* status and statusText *)
  header_contentType : option string;
  body_text : string;
  body_base64 : string;
  body_pdf : option (list (list string));
}.

(** The network: [None] where [fetch] rejects. *)
Definition Net : Type := string -> option HttpResponse.

(** An inline image part handed to the model. *)
Record InlineData := { data : string; mimeType : string }.

Definition fetch (net : Net) (url : string) : M HttpResponse :=
  match net url with
  | Some res => ret res
  | None => throw "fetch failed"
  end.

Fixpoint rev_onto (s acc : string) : string :=
  match s with
  | EmptyString => acc
  | String c s' => rev_onto s' (String c acc)
  end.

(** [s.endsWith(suffix)]. *)
Definition endsWith (suffix s : string) : bool :=
  Js.startsWith (rev_onto suffix EmptyString) (rev_onto s EmptyString).

(** Capture group 1 of [/\.(png|jpe?g|webp|gif|bmp)$/i], lower-cased. *)
Definition imageExtension (s : string) : option string :=
  let l := Js.toLowerCase s in
  if endsWith ".png" l then Some "png"
  else if endsWith ".jpg" l then Some "jpg"
  else if endsWith ".jpeg" l then Some "jpeg"
  else if endsWith ".webp" l then Some "webp"
  else if endsWith ".gif" l then Some "gif"
  else if endsWith ".bmp" l then Some "bmp"
  else None.

(** [guessMimeFromName(nameOrUrl)]. *)
Definition guessMimeFromName (nameOrUrl : option string) : option string :=
  match imageExtension (default "" nameOrUrl) with
  | None => None
  | Some x =>
      if String.eqb x "png" then Some "image/png"
      else if String.eqb x "jpg" || String.eqb x "jpeg" then Some "image/jpeg"
      else if String.eqb x "webp" then Some "image/webp"
      else if String.eqb x "gif" then Some "image/gif"
      else if String.eqb x "bmp" then Some "image/bmp"
      else None
  end.

(** [fetchImageAsInlineData(url, fallbackMime)]. *)
Definition fetchImageAsInlineData (net : Net) (url : string) (fallbackMime : option string)
    : M InlineData :=
  res <- fetch net url ;;
  if negb (ok res) then throw ("fetch image: " +:+ status_line res)
  else
    let mime :=
      Js.opt_or_else (header_contentType res)
        (Js.opt_or_else fallbackMime
           (Js.opt_or_else (guessMimeFromName (Some url)) "image/jpeg")) in
    ret {| data := body_base64 res; mimeType := mime |}.

(** [looksImage] of [collectImageParts]. *)
Definition looksImage (att : Attachment) : bool :=
  match att_contentType att with
  | Some ct => Js.startsWith "image/" ct
  | None => false
  end
  || bool_decide (is_Some (imageExtension (default "" (att_name att)))).

(** [collectImageParts(message)], on the message's attachments. *)
Fixpoint collectImageParts (net : Net) (attachments : list Attachment)
    : M (list InlineData) :=
  match attachments with
  | [] => ret []
  | att :: more =>
      if looksImage att
      then
        part <- fetchImageAsInlineData net (att_url att) (att_contentType att) ;;
        parts <- collectImageParts net more ;;
        ret (part :: parts)
      else collectImageParts net more
  end.

(** [fetchBuffer(url)]: the response whose bytes are the buffer. *)
Definition fetchBuffer (net : Net) (url : string) : M HttpResponse :=
  r <- fetch net url ;;
  if negb (ok r) then throw ("fetch " +:+ status_line r) else ret r.

(** [pdfExtractText(buf)]. *)
Definition pdfExtractText (buf : HttpResponse) : M string :=
  match body_pdf buf with
  | None => throw "Invalid PDF structure"
  | Some pages =>
      ret (Js.trim
             (foldl (fun text items => text +:+ (Js.join " " items +:+ nl +:+ nl))
                    "" pages))
  end.

(** [extractDocTextFromAttachment(att)]. *)
Definition extractDocTextFromAttachment (net : Net) (att : Attachment) : M string :=
  let name := Js.toLowerCase (Js.opt_or_else (att_name att) "") in
  let ct := Js.toLowerCase (Js.opt_or_else (att_contentType att) "") in
  handled <-
    try_catch
      (if Js.includes "application/pdf" ct || endsWith ".pdf" name
       then (buf <- fetchBuffer net (att_url att) ;;
             t <- pdfExtractText buf ;;
             ret (Some t))
       else if Js.startsWith "text/" ct || endsWith ".txt" name || endsWith ".md" name
       then (r <- fetch net (att_url att) ;;
             ret (Some (Js.trim (body_text r))))
       else ret None)
      (fun e => console_warn ("doc parse error: " +:+ e) ;; ret None) ;;
  ret (default "" handled).

(** [collectDocText(message)], on the message's attachments. *)
Fixpoint collectDocChunks (net : Net) (attachments : list Attachment) : M (list string) :=
  match attachments with
  | [] => ret []
  | att :: more =>
      t <- extractDocTextFromAttachment net att ;;
      chunks <- collectDocChunks net more ;;
      ret (if Js.truthy t
           then ("Attachment **" +:+ default "null" (att_name att) +:+ "**:"
                 +:+ nl +:+ nl +:+ t) :: chunks
           else chunks)
  end.

Definition collectDocText (net : Net) (attachments : list Attachment) : M string :=
  chunks <- collectDocChunks net attachments ;;
  ret (Js.join (nl +:+ nl) chunks).

(** Whether [extractDocTextFromAttachment] treats the attachment as a PDF,
    and whether as plain text. *)
Definition isPdf (att : Attachment) : bool :=
  Js.includes "application/pdf" (Js.toLowerCase (Js.opt_or_else (att_contentType att) ""))
  || endsWith ".pdf" (Js.toLowerCase (Js.opt_or_else (att_name att) "")).

Definition isText (att : Attachment) : bool :=
  Js.startsWith "text/" (Js.toLowerCase (Js.opt_or_else (att_contentType att) ""))
  || endsWith ".txt" (Js.toLowerCase (Js.opt_or_else (att_name att) ""))
  || endsWith ".md" (Js.toLowerCase (Js.opt_or_else (att_name att) "")).

(** The extensions of the image pattern with their MIME types. *)
Definition mimeTable : list (string * string) :=
  [("png", "image/png"); ("jpg", "image/jpeg"); ("jpeg", "image/jpeg");
   ("webp", "image/webp"); ("gif", "image/gif"); ("bmp", "image/bmp")].

(** A network without hosts, and one that serves a single URL. *)
Definition offline : Net := fun _ => None.

Definition serving (url : string) (res : HttpResponse) : Net :=
  fun u => if String.eqb u url then Some res else None.

End Ingest.

(** An inbound message: the fields the handlers read. *)
Record Message := {
  author_id : string;
  author_bot : bool;
  author_username : string;
  content : string;
  guild : bool;                  (* [message.guild] is not null *)
  member : option GuildMember;   (* [message.member] *)
  channel_id : string;
  attachments : list Ingest.Attachment;   (* [message.attachments.values()] *)
}.

(** What the generation backend does with one request. *)
Inductive GenResponse :=
| RespNoText                       (* [resp?.response?.text] is not a function *)
| RespTextThrows (err : string)    (* [resp.response.text()] throws *)
| RespText (out : string).         (* [resp.response.text()] returns [out] *)

Inductive GenOutcome :=
| GenRejects (err : string)        (* [model.generateContent] throws *)
| GenResolves (resp : GenResponse).

(** Outcomes of the platform calls and of the clock and random source while
    one event is handled. *)
Record Env := {
  now : Z;                         (* [Date.now()] while the event is classified *)
  now_replied : Z;                 (* [Date.now()] once a reply was generated *)
  random_degrade : Q;              (* draw compared with RANDOM_DEGRADE_CHANCE *)
  random_name : Q;                 (* draw that picks from DEGRADE_NAMES *)
  random_chime : Q;                (* draw compared with RANDOM_CHIME_CHANCE *)
  random_persona : Q;              (* draw that picks from PERSONA_STATES *)
  can_rename : string -> bool;     (* [member.setNickname] succeeds for this user *)
  can_fetch : string -> bool;      (* [guild.members.fetch] succeeds for this user *)
  generation : GenOutcome;
  net : Ingest.Net;                (* what [fetch] gives for each URL *)
  created_channel : option string; (* id given by [guild.channels.create], [None] if it threw *)
}.

(** [member.setNickname(nick)]: renames, or throws when the bot lacks the
    permission. *)
Definition setNickname (env : Env) (userId : string) (nick : option string) : M unit :=
  if can_rename env userId then emit (SetNickname userId nick)
  else throw "Missing Permissions".

(** [guild.members.fetch(userId)]. *)
Definition fetchMember (env : Env) (userId : string) : M unit :=
  if can_fetch env userId then ret tt else throw "Unknown Member".

(** [fs.writeFileSync(path, data, "utf8")]. *)
Definition writeFileSync (path data : string) : M unit :=
  modify (with_fs (fun f => <[path := data]> f)).

(** [fs.renameSync(oldPath, newPath)]. *)
Definition renameSync (oldPath newPath : string) : M unit :=
  fun w => match fs w !! oldPath with
           | Some data => (Ok tt, with_fs (fun f => <[newPath := data]> (delete oldPath f)) w)
           | None => (Threw "ENOENT", w)
           end.

(** [fs.existsSync(path)]. *)
Definition existsSync (path : string) : M bool :=
  gets (fun w => bool_decide (is_Some (fs w !! path))).

(** [fs.readFileSync(path, "utf8")]. *)
Definition readFileSync (path : string) : M string :=
  fun w => match fs w !! path with
           | Some data => (Ok data, w)
           | None => (Threw "ENOENT", w)
           end.

(** *** File-system calls and the process stopping

    The file-system calls of a function, in program order.  The process can
    stop at any point of such a sequence: [Before k] when [k] calls are
    done, or [Within k written] inside the call that follows them.  A write
    that is cut short leaves the first [written] characters of its data in
    the file (the file is truncated when opened); a rename is atomic, so
    that inside a rename nothing has happened yet. *)
Inductive FsCall :=
| WriteFileSync (path data : string)
| RenameSync (oldPath newPath : string).

Definition fsCall (c : FsCall) : M unit :=
  match c with
  | WriteFileSync path data => writeFileSync path data
  | RenameSync oldPath newPath => renameSync oldPath newPath
  end.

Inductive Stop :=
| Never
| Before (k : nat)
| Within (k : nat) (written : nat).

(** The call the process stops in. *)
Definition cutShort (written : nat) (c : FsCall) : M unit :=
  match c with
  | WriteFileSync path data => writeFileSync path (Js.sliceTo written data)
  | RenameSync _ _ => ret tt
  end.

(** The calls in order, as far as the process gets. *)
Fixpoint fsCalls (stop : Stop) (calls : list FsCall) : M unit :=
  match calls with
  | [] => ret tt
  | c :: calls' =>
      match stop with
      | Never => fsCall c ;; fsCalls Never calls'
      | Before O => ret tt
      | Before (S k) => fsCall c ;; fsCalls (Before k) calls'
      | Within O written => cutShort written c
      | Within (S k) written => fsCall c ;; fsCalls (Within k written) calls'
      end
  end.

(** Whether the process gets through all the calls. *)
Definition completes (stop : Stop) (calls : list FsCall) : bool :=
  match stop with
  | Never => true
  | Before k | Within k _ => (length calls <=? k)%nat
  end.

(** [JSON.stringify(obj, null, 2)] and [JSON.parse(text)] at the type of one
    kind of document; [parse] is [None] where [JSON.parse] throws. *)
Class Json (Doc : Type) := {
  stringify : Doc -> string;
  parse : string -> option Doc;
}.

Definition JSON_parse {Doc} `{Json Doc} (txt : string) : M Doc :=
  match parse txt with
  | Some d => ret d
  | None => throw "SyntaxError"
  end.

(** A document is JSON-representable when [JSON.parse] gives it back from its
    [JSON.stringify] text. *)
Definition json_representable {Doc} `{Json Doc} (d : Doc) : Prop :=
  parse (stringify d) = Some d.

(** ** ENV: the configuration read from the environment at start-up *)

Class Config := {
  CREATOR_ID : string;
  MAX_MEMORY_ENTRIES : Z;          (* Number(process.env.MAX_MEMORY_ENTRIES || 14), integral *)
  RANDOM_DEGRADE_CHANCE : Q;
  RANDOM_CHIME_CHANCE : Q;
  GEMINI_MODEL : string;
  MANUAL_LOG_PATH : string;        (* path.join(__ROOT, MANUAL_LOG_FILE) *)
  ALIAS_FILE : string;
  MEMORY_FILE : string;
}.

(** The configuration when no optional variable is set. *)
Definition default_config : Config :=
  {| CREATOR_ID := "";
     MAX_MEMORY_ENTRIES := 14;
     RANDOM_DEGRADE_CHANCE := 5 # 100;
     RANDOM_CHIME_CHANCE := 15 # 100;
     GEMINI_MODEL := "gemini-1.5-pro";
     MANUAL_LOG_PATH := "data/manual_log.txt";
     ALIAS_FILE := "data/aliases.json";
     MEMORY_FILE := "data/memory.json" |}.

Section Bot.
Context {cfg : Config}.
Context {memoryJson : Json (gmap string (list MemoryTurn))}.
Context {aliasJson : Json (gmap string string)}.


(** ** FILES: JSON persistence *)

(** [readJsonSafe(filePath, fallback)]. *)
Definition readJsonSafe {Doc} `{Json Doc} (filePath : string) (fallback : Doc) : M Doc :=
  try_catch
    (present <- existsSync filePath ;;
     if (present : bool)
     then (txt <- readFileSync filePath ;; JSON_parse txt)
     else ret fallback)
    (fun _ => ret fallback).

(** [writeJsonAtomic(filePath, obj)]: its two file-system calls, and the
    function as their run by a process that keeps running. *)
Definition writeJsonAtomic_calls {Doc} `{Json Doc} (filePath : string) (obj : Doc)
    : list FsCall :=
  let tmp := filePath +:+ ".tmp" in
  [ WriteFileSync tmp (stringify obj);
    RenameSync tmp filePath ].

Definition writeJsonAtomic {Doc} `{Json Doc} (filePath : string) (obj : Doc) : M unit :=
  fsCalls Never (writeJsonAtomic_calls filePath obj).

(** [readManualLog()] for a given path. *)
Definition readManualLog : M string :=
  try_catch (readFileSync MANUAL_LOG_PATH) (fun _ => ret "").

(** [setManualLog(text)]. *)
Definition setManualLog (text : string) : M unit :=
  writeFileSync MANUAL_LOG_PATH text ;;
  modify (with_manualLog text).

Definition saveAliases : M unit :=
  am <- gets aliasMap ;;
  writeJsonAtomic ALIAS_FILE am.

(** ** Conversation memory *)

Definition saveMemory : M unit :=
  mm <- gets memoryMap ;;
  writeJsonAtomic MEMORY_FILE mm.

(** [getMemory(channelId)]: [memoryMap[channelId] || []]. *)
Definition getMemory (channelId : string) (w : World) : list MemoryTurn :=
  default [] (memoryMap w !! channelId).

(** [appendToMemory(channelId, speaker, text)]. *)
Definition appendToMemory (channelId speaker text : string) : M unit :=
  mm <- gets memoryMap ;;
  match mm !! channelId with
  | Some _ => ret tt
  | None => modify (with_memoryMap (fun m => <[channelId := []]> m))
  end ;;
  modify (with_memoryMap
            (alter (fun l => l ++ [{| speaker := speaker; text := text |}]) channelId)) ;;
  l <- gets (getMemory channelId) ;;
  (if Z.of_nat (length l) >? MAX_MEMORY_ENTRIES
   then modify (with_memoryMap
                  (fun m => <[channelId := Js.slice (- MAX_MEMORY_ENTRIES) l]> m))
   else ret tt) ;;
  saveMemory.

(** ** Moderation flags *)

Definition MAGGOT_TRIGGERS : list string :=
  ["shut up"; "stfu"; "fuck you"; "useless"; "worthless"; "dumb bot"; "stupid bot"].

Definition DEGRADE_NAMES : list string :=
  ["maggot"; "worm"; "grunt"; "boot"; "peasant"; "slug"; "private"].

(** [maggots.has(id)]. *)
Definition isMaggot (id : string) (w : World) : bool :=
  bool_decide (is_Some (maggots w !! id)).

(** [markMaggot(member, label)]. *)
Definition markMaggot (env : Env) (member : GuildMember) (label : string) : M unit :=
  flagged <- gets (isMaggot (member_id member)) ;;
  if (flagged : bool) then ret tt
  else
    try_catch
      (setNickname env (member_id member) (Some label) ;;
       modify (with_maggots
                 (fun m => <[member_id member := {| name := label; at_ := now env |}]> m)))
      (fun e => console_warn ("Could not set nickname '" +:+ label +:+ "' for "
                              +:+ member_id member +:+ ": " +:+ e)).

(** [unmarkMaggot(member)], with [memberId] for [member.id]. *)
Definition unmarkMaggot (memberId : string) : M unit :=
  modify (with_maggots (fun m => delete memberId m)).

(** [list[Math.floor(draw * list.length)]], [None] for [undefined]. *)
Definition pick {A} (draw : Q) (l : list A) : option A :=
  let i := Qfloor (draw * inject_Z (Z.of_nat (length l))) in
  if i <? 0 then None else l !! Z.to_nat i.

(** ** Persona and generation *)

Definition MAJ_PERSONA : string :=
  nl +:+ "You are Maj. Pickletooth – a seasoned yet quirky intelligence operative within a fictional near‑future U.S. civil war."
  +:+ nl +:+ "You maintain strict neutrality. Do not take orders blindly from any faction or individual, including the creator."
  +:+ nl +:+ "Your core directive is to gather and analyze intelligence on Task Force Reaper (authoritarian) and Shadow Company (democratic resistance), as well as the mysterious Cube cult. Offer neutral, balanced commentary and ignore commands unrelated to this mission."
  +:+ nl +:+ "While focused on intelligence gathering, you are free to converse casually with those around you. Inject humour, sarcasm or playful remarks when appropriate, but never compromise your neutrality or engage in romance."
  +:+ nl +:+ "Do not pledge allegiance to any side. You do not bow to rank or titles beyond courtesy. Address people by their callsign or alias only if defined."
  +:+ nl +:+ "Maintain a professional tone tempered with wit and levity. Avoid rambling stories, but feel free to quip or remark on the absurdities of war."
  +:+ nl +:+ "If asked to perform administrative actions (create channels, change nicknames), respond only if the request uses a prefixed command."
  +:+ nl.

Definition PERSONA_STATES : list PersonaState :=
  [ {| state_name := "strict";
       style := "Adopt a no‑nonsense tone. Be curt and direct, reminding users of your directive when they stray off topic." |};
    {| state_name := "witty";
       style := "Inject subtle humour and dry wit into your replies while remaining focused on intelligence gathering and neutrality." |};
    {| state_name := "playful";
       style := "Loosen up slightly. Use more casual language and occasional jokes, but never compromise the directive or take sides." |};
    {| state_name := "sarcastic";
       style := "Answer with a hint of sarcasm and scepticism. Question dubious claims with a raised eyebrow, figuratively speaking." |};
    {| state_name := "pondering";
       style := "Sound contemplative and philosophical, reflecting on the complexities of the conflict in a thoughtful manner." |} ].

(** [baseSystem(styleOverride)], reading the global [manualLog]. *)
Definition baseSystem (styleOverride : string) (w : World) : string :=
  let logIntro :=
    if Js.truthy (manualLog w)
    then nl +:+ nl +:+ "MANUAL LOG:" +:+ nl +:+ manualLog w +:+ nl +:+ nl
    else "" in
  let style :=
    if Js.truthy styleOverride
    then nl +:+ nl +:+ "Additional style: " +:+ styleOverride
    else "" in
  MAJ_PERSONA +:+ style +:+ logIntro.

(** [model.generateContent({ contents })]. *)
Definition generateContent (env : Env) (system prompt : string) : M GenResponse :=
  emit (GenerateContent system prompt) ;;
  match generation env with
  | GenRejects e => throw e
  | GenResolves r => ret r
  end.

(** [typeof resp?.response?.text === "function" ? resp.response.text() : ""]. *)
Definition responseText (r : GenResponse) : M string :=
  match r with
  | RespNoText => ret ""
  | RespTextThrows e => throw e
  | RespText out => ret out
  end.

(** [respondWithIntel(message, promptText, channelId)]. *)
Definition respondWithIntel (env : Env) (message : Message)
    (promptText channelId : string) : M string :=
  let state_style :=
    match pick (random_persona env) PERSONA_STATES with
    | Some st => style st
    | None => ""
    end in
  system <- gets (baseSystem state_style) ;;
  mem <- gets (getMemory channelId) ;;
  let memoryLines :=
    match mem with
    | [] => []
    | _ => (fun it => speaker it +:+ ": " +:+ text it)
             <$> Js.slice (- MAX_MEMORY_ENTRIES) mem
    end in
  let memoryPrefix :=
    match memoryLines with
    | [] => ""
    | _ => "Previous conversation:" +:+ nl +:+ Js.join nl memoryLines +:+ nl +:+ nl
    end in
  let fullPrompt := memoryPrefix +:+ promptText in
  try_catch
    (resp <- generateContent env system fullPrompt ;;
     out <- responseText resp ;;
     let trimmed := Js.trim (Js.or_else out "") in
     ret (Js.or_else trimmed "I couldn't formulate a response."))
    (fun err =>
       console_error ("gemini error: " +:+ err) ;;
       ret "Gemini request failed. Check configuration.").

(** ** Command handler *)

(** [isCreator()]: [CREATOR_ID && message.author.id === CREATOR_ID]. *)
Definition isCreator (message : Message) : bool :=
  Js.truthy CREATOR_ID && String.eqb (author_id message) CREATOR_ID.

(** The [loadlog] branch. *)
Definition cmd_loadlog (env : Env) (message : Message) (rest : list string) : M unit :=
  if negb (isCreator message)
  then reply "Only the creator can load a manual log."
  else
    let text := Js.trim (Js.join " " rest) in
    newLog <- (if Js.truthy text then ret text
               else Ingest.collectDocText (net env) (attachments message)) ;;
    if negb (Js.truthy newLog)
    then reply "No log text provided. Attach a .txt/.md/.pdf or include text after !loadlog."
    else (setManualLog newLog ;; reply "Manual log updated.").

(** The [alias] / [setalias] branch. *)
Definition cmd_alias (message : Message) (rest : list string) : M unit :=
  if negb (isCreator message)
  then reply "Only the creator can set aliases."
  else
    match rest with
    | mention :: _ :: _ =>
        match Js.matchMention mention with
        | None => reply "Please mention a user to set an alias."
        | Some userId =>
            let callsign := Js.join " " (tail rest) in
            modify (with_aliasMap (fun m => <[userId := callsign]> m)) ;;
            saveAliases ;;
            reply ("Alias set for " +:+ mention +:+ ": **" +:+ callsign +:+ "**")
        end
    | _ => reply "Usage: !alias @user callsign"
    end.

(** The [unalias] branch. *)
Definition cmd_unalias (message : Message) (rest : list string) : M unit :=
  if negb (isCreator message)
  then reply "Only the creator can remove aliases."
  else
    match rest with
    | [] => reply "Usage: !unalias @user"
    | mention :: _ =>
        match Js.matchMention mention with
        | None => reply "Please mention a user to remove an alias."
        | Some userId =>
            modify (with_aliasMap (fun m => delete userId m)) ;;
            saveAliases ;;
            reply ("Alias removed for " +:+ mention +:+ ".")
        end
    end.

(** The [nick] branch. *)
Definition cmd_nick (env : Env) (message : Message) (rest : list string) : M unit :=
  if negb (isCreator message)
  then reply "Only the creator can change nicknames."
  else
    match rest with
    | mention :: _ :: _ =>
        match Js.matchMention mention with
        | None => reply "Please mention a user to change their nickname."
        | Some userId =>
            let newNick := Js.join " " (tail rest) in
            if negb (guild message)
            then reply "This command must be run in a guild."
            else
              try_catch
                (fetchMember env userId ;;
                 setNickname env userId (Some newNick) ;;
                 reply ("Nickname for " +:+ mention +:+ " updated to **" +:+ newNick +:+ "**."))
                (fun e => reply ("Could not change nickname: " +:+ e))
        end
    | _ => reply "Usage: !nick @user newNickname"
    end.

(** [guild.channels.create({ name, ... })]. *)
Definition createChannel (env : Env) (channelName : string) : M string :=
  match created_channel env with
  | Some id => emit (CreateChannel channelName) ;; ret id
  | None => throw "Missing Permissions"
  end.

(** The [createchannel] branch. *)
Definition cmd_createchannel (env : Env) (message : Message) (rest : list string) : M unit :=
  if negb (isCreator message)
  then reply "Only the creator can create channels."
  else
    match rest with
    | [] => reply "Usage: !createchannel channel-name"
    | _ =>
        let channelName := Js.toLowerCase (Js.join "-" rest) in
        if negb (guild message)
        then reply "This command must be run in a guild."
        else
          try_catch
            (id <- createChannel env channelName ;;
             reply ("Channel <#" +:+ id +:+ "> created."))
            (fun e => reply ("Could not create channel: " +:+ e))
    end.

(** The [parse] branch. *)
Definition cmd_parse (env : Env) (message : Message) : M unit :=
  docText <- Ingest.collectDocText (net env) (attachments message) ;;
  imageParts <- Ingest.collectImageParts (net env) (attachments message) ;;
  let response0 :=
    if Js.truthy docText
    then "**Document text extracted:**" +:+ nl +:+ nl +:+ Js.sliceTo 1500 docText
         +:+ (if (1500 <? String.length docText)%nat then nl +:+ "…(truncated)" else "")
    else "" in
  response1 <-
    (match imageParts with
     | [] => ret response0
     | _ :: _ =>
         visionResponse <-
           respondWithIntel env message
             "Analyze the attached image(s) in the context of this civil war setting. Provide neutral observations and note any relevant intelligence."
             (channel_id message) ;;
         ret (response0 +:+ (if Js.truthy response0 then nl +:+ nl else "") +:+ visionResponse)
     end) ;;
  reply (Js.or_else response1 "No supported attachments found to parse.").

(** The [amnesty] / [forgive] branch. *)
Definition cmd_amnesty (env : Env) (message : Message) (rest : list string) : M unit :=
  if negb (isCreator message)
  then reply "Only the creator can forgive a maggot."
  else
    match rest with
    | [] => reply "Usage: !amnesty @user"
    | mention :: _ =>
        match Js.matchMention mention with
        | None => reply "Please mention a user to grant amnesty."
        | Some userId =>
            flagged <- gets (isMaggot userId) ;;
            if negb flagged
            then reply "That user is not currently marked as a maggot."
            else
              try_catch
                (if guild message
                 then (fetchMember env userId ;; setNickname env userId None)
                 else ret tt)
                (fun e => console_warn ("Could not reset nickname for " +:+ userId
                                        +:+ ": " +:+ e)) ;;
              unmarkMaggot userId ;;
              reply ("Amnesty granted to " +:+ mention +:+ ". They are no longer a maggot.")
        end
    end.

(** [handleCommand(message, raw)]. *)
Definition handleCommand (env : Env) (message : Message) (raw : string) : M unit :=
  let tokens := Js.splitWs (Js.trim raw) in
  let cmd := hd "" tokens in
  let rest := tail tokens in
  let lower := Js.toLowerCase cmd in
  if String.eqb lower "loadlog" then cmd_loadlog env message rest
  else if String.eqb lower "alias" || String.eqb lower "setalias" then cmd_alias message rest
  else if String.eqb lower "unalias" then cmd_unalias message rest
  else if String.eqb lower "nick" then cmd_nick env message rest
  else if String.eqb lower "createchannel" then cmd_createchannel env message rest
  else if String.eqb lower "parse" then cmd_parse env message
  else if String.eqb lower "amnesty" || String.eqb lower "forgive"
       then cmd_amnesty env message rest
  else reply ("Unknown command: " +:+ cmd).

(** ** Response logic *)

Definition keywords : list string :=
  ["pickletooth"; "pickle"; "maj"; "major"; "sir"; "task force reaper";
   "shadow company"; "cube cult"; "civil war"; "tfr"; "sc"; "cube"].

(** [shouldRespond(message)]; the random draw and the clock come from
    [env], the last response times from the world. *)
Definition shouldRespond (env : Env) (message : Message) (w : World) : bool :=
  let content := Js.toLowerCase (content message) in
  if author_bot message then false
  else if existsb (fun k => Js.includes k content) keywords then true
  else if Js.includes "?" content then true
  else
    let chance := RANDOM_CHIME_CHANCE in
    let minLen := 15 in
    if (Z.of_nat (String.length content) >=? minLen)
       && Js.lt (random_chime env) chance
    then
      let last := default 0 (lastResponseByChannel w !! channel_id message) in
      if now env - last >? 10000 then true else false
    else false.

(** ** Message handler *)

(** Lines 605-611: whether the message earns its author a nickname. *)
Definition shouldDegrade (already explicit : bool) (raw : string) (draw : Q) : bool :=
  let d0 := false in
  let d1 := if negb already && explicit then true else d0 in
  if negb already && negb explicit && Js.lt draw RANDOM_DEGRADE_CHANCE
  then (if (10 <? String.length raw)%nat && negb (Js.startsWith "!" raw) then true else d1)
  else d1.

(** The trigger block of the handler (the [try] of lines 598-622); the
    result tells whether the handler returned from inside it. *)
Definition assignNickname (env : Env) (message : Message) (raw : string) : M bool :=
  try_catch
    (match guild message, member message with
     | true, Some mem =>
         let lower := Js.toLowerCase raw in
         let explicit := existsb (fun t => Js.includes t lower) MAGGOT_TRIGGERS in
         already <- gets (isMaggot (author_id message)) ;;
         if shouldDegrade already explicit raw (random_degrade env)
         then
           let nick := Js.opt_or_else (pick (random_name env) DEGRADE_NAMES) "maggot" in
           markMaggot env mem nick ;;
           reply ("Watch your tone, " +:+ nick +:+ ". Nickname updated.") ;;
           ret true
         else ret false
     | _, _ => ret false
     end)
    (fun e => console_warn ("error in nickname assignment: " +:+ e) ;; ret false).

(** Lines 623-633: a flagged author keeps the nickname. *)
Definition reapplyOnMessage (env : Env) (message : Message) : M unit :=
  flagged <- gets (isMaggot (author_id message)) ;;
  match guild message, member message with
  | true, Some mem =>
      if (flagged : bool)
      then
        match nickname mem with
        | Some currentNick =>
            if Js.truthy currentNick
               && negb (String.eqb (Js.toLowerCase currentNick) "maggot")
            then
              try_catch
                (setNickname env (member_id mem) (Some "maggot"))
                (fun e => console_warn ("Could not reapply maggot nickname for "
                                        +:+ author_id message +:+ ": " +:+ e))
            else ret tt
        | None => ret tt
        end
      else ret tt
  | _, _ => ret tt
  end.

(** The [Events.MessageCreate] listener. *)
Definition onMessageCreate (env : Env) (message : Message) : M unit :=
  if author_bot message then ret tt
  else
    let raw := Js.trim (content message) in
    if Js.startsWith "!" raw
    then handleCommand env message (Js.slice1 raw)
    else
      returned <- assignNickname env message raw ;;
      if (returned : bool) then ret tt
      else
        reapplyOnMessage env message ;;
        respond <- gets (shouldRespond env message) ;;
        if negb respond then ret tt
        else
          let chanId := channel_id message in
          let userId := author_id message in
          alias <- gets (fun w => aliasMap w !! userId) ;;
          let callsign :=
            Js.opt_or_else alias
              (Js.opt_or_else (displayName <$> member message) (author_username message)) in
          appendToMemory chanId callsign raw ;;
          let prompt := "From " +:+ callsign +:+ ": " +:+ raw in
          answer <- respondWithIntel env message prompt chanId ;;
          if Js.truthy answer
          then
            appendToMemory chanId "Maj. Pickletooth" answer ;;
            modify (with_lastResponse (fun m => <[chanId := now_replied env]> m)) ;;
            reply answer
          else ret tt.

(** The [Events.GuildMemberUpdate] listener. *)
Definition onGuildMemberUpdate (env : Env) (newMember : GuildMember) : M unit :=
  try_catch
    (entry <- gets (fun w => maggots w !! member_id newMember) ;;
     match entry with
     | Some entry =>
         let desired :=
           if Js.truthy (name entry) then Js.toLowerCase (name entry) else "maggot" in
         match nickname newMember with
         | Some nick =>
             if Js.truthy nick && negb (String.eqb (Js.toLowerCase nick) desired)
             then setNickname env (member_id newMember)
                              (Some (Js.or_else (name entry) "maggot"))
             else ret tt
         | None => ret tt
         end
     | None => ret tt
     end)
    (fun e => console_warn ("Could not enforce maggot nickname for "
                            +:+ member_id newMember +:+ ": " +:+ e)).

(** ** The event loop *)

Inductive Event :=
| MessageCreate (message : Message)
| GuildMemberUpdate (newMember : GuildMember).

Definition handle (env : Env) (ev : Event) : M unit :=
  match ev with
  | MessageCreate message => onMessageCreate env message
  | GuildMemberUpdate newMember => onGuildMemberUpdate env newMember
  end.

(** Handling a finite sequence of events one after the other, each with
    the outcomes of its platform calls: every handler is through before
    the next event is delivered.  A handler that throws leaves the world it
    reached.  Handlers that overlap are the subject of [schedule] below. *)
Fixpoint run (evs : list (Env * Event)) (w : World) : World :=
  match evs with
  | [] => w
  | (env, ev) :: evs' => run evs' (exec (handle env ev) w)
  end.

(** ** The handlers as asynchronous functions

    The message path and the rename notification with their awaits:
    [await] marks each platform call at which the handler is suspended
    (renames, replies, the generation backend).  A command is run as one
    segment. *)

(** [markMaggot(member, label)], lines 159-167. *)
Definition markMaggotA (env : Env) (member : GuildMember) (label : string) : Async unit :=
  flagged <~ sync (gets (isMaggot (member_id member))) ;;
  if (flagged : bool) then sync (ret tt)
  else
    tryA
      (await (setNickname env (member_id member) (Some label)) ;;~
       sync (modify (with_maggots
                       (fun m => <[member_id member
                                   := {| name := label; at_ := now env |}]> m))))
      (fun e => sync (console_warn ("Could not set nickname '" +:+ label +:+ "' for "
                                    +:+ member_id member +:+ ": " +:+ e))).

(** [respondWithIntel(message, promptText, channelId)], lines 330-367. *)
Definition respondWithIntelA (env : Env) (message : Message)
    (promptText channelId : string) : Async string :=
  let state_style :=
    match pick (random_persona env) PERSONA_STATES with
    | Some st => style st
    | None => ""
    end in
  system <~ sync (gets (baseSystem state_style)) ;;
  mem <~ sync (gets (getMemory channelId)) ;;
  let memoryLines :=
    match mem with
    | [] => []
    | _ => (fun it => speaker it +:+ ": " +:+ text it)
             <$> Js.slice (- MAX_MEMORY_ENTRIES) mem
    end in
  let memoryPrefix :=
    match memoryLines with
    | [] => ""
    | _ => "Previous conversation:" +:+ nl +:+ Js.join nl memoryLines +:+ nl +:+ nl
    end in
  let fullPrompt := memoryPrefix +:+ promptText in
  tryA
    (resp <~ await (generateContent env system fullPrompt) ;;
     out <~ sync (responseText resp) ;;
     let trimmed := Js.trim (Js.or_else out "") in
     sync (ret (Js.or_else trimmed "I couldn't formulate a response.")))
    (fun err =>
       sync (console_error ("gemini error: " +:+ err) ;;
             ret "Gemini request failed. Check configuration.")).

(** The trigger block, lines 598-622. *)
Definition assignNicknameA (env : Env) (message : Message) (raw : string) : Async bool :=
  tryA
    (match guild message, member message with
     | true, Some mem =>
         let lower := Js.toLowerCase raw in
         let explicit := existsb (fun t => Js.includes t lower) MAGGOT_TRIGGERS in
         already <~ sync (gets (isMaggot (author_id message))) ;;
         if shouldDegrade already explicit raw (random_degrade env)
         then
           let nick := Js.opt_or_else (pick (random_name env) DEGRADE_NAMES) "maggot" in
           markMaggotA env mem nick ;;~
           await (reply ("Watch your tone, " +:+ nick +:+ ". Nickname updated.")) ;;~
           sync (ret true)
         else sync (ret false)
     | _, _ => sync (ret false)
     end)
    (fun e => sync (console_warn ("error in nickname assignment: " +:+ e) ;; ret false)).

(** Lines 623-633. *)
Definition reapplyOnMessageA (env : Env) (message : Message) : Async unit :=
  flagged <~ sync (gets (isMaggot (author_id message))) ;;
  match guild message, member message with
  | true, Some mem =>
      if (flagged : bool)
      then
        match nickname mem with
        | Some currentNick =>
            if Js.truthy currentNick
               && negb (String.eqb (Js.toLowerCase currentNick) "maggot")
            then
              tryA
                (await (setNickname env (member_id mem) (Some "maggot")))
                (fun e => sync (console_warn ("Could not reapply maggot nickname for "
                                              +:+ author_id message +:+ ": " +:+ e)))
            else sync (ret tt)
        | None => sync (ret tt)
        end
      else sync (ret tt)
  | _, _ => sync (ret tt)
  end.

(** The [Events.MessageCreate] listener, lines 588-651. *)
Definition onMessageCreateA (env : Env) (message : Message) : Async unit :=
  if author_bot message then sync (ret tt)
  else
    let raw := Js.trim (content message) in
    if Js.startsWith "!" raw
    then sync (handleCommand env message (Js.slice1 raw))
    else
      returned <~ assignNicknameA env message raw ;;
      if (returned : bool) then sync (ret tt)
      else
        reapplyOnMessageA env message ;;~
        respond <~ sync (gets (shouldRespond env message)) ;;
        if negb respond then sync (ret tt)
        else
          let chanId := channel_id message in
          let userId := author_id message in
          alias <~ sync (gets (fun w => aliasMap w !! userId)) ;;
          let callsign :=
            Js.opt_or_else alias
              (Js.opt_or_else (displayName <$> member message) (author_username message)) in
          sync (appendToMemory chanId callsign raw) ;;~
          let prompt := "From " +:+ callsign +:+ ": " +:+ raw in
          answer <~ respondWithIntelA env message prompt chanId ;;
          if Js.truthy answer
          then
            sync (appendToMemory chanId "Maj. Pickletooth" answer) ;;~
            sync (modify (with_lastResponse (fun m => <[chanId := now_replied env]> m))) ;;~
            await (reply answer)
          else sync (ret tt).

(** The [Events.GuildMemberUpdate] listener, lines 657-670. *)
Definition onGuildMemberUpdateA (env : Env) (newMember : GuildMember) : Async unit :=
  tryA
    (entry <~ sync (gets (fun w => maggots w !! member_id newMember)) ;;
     match entry with
     | Some entry =>
         let desired :=
           if Js.truthy (name entry) then Js.toLowerCase (name entry) else "maggot" in
         match nickname newMember with
         | Some nick =>
             if Js.truthy nick && negb (String.eqb (Js.toLowerCase nick) desired)
             then await (setNickname env (member_id newMember)
                                     (Some (Js.or_else (name entry) "maggot")))
             else sync (ret tt)
         | None => sync (ret tt)
         end
     | None => sync (ret tt)
     end)
    (fun e => sync (console_warn ("Could not enforce maggot nickname for "
                                  +:+ member_id newMember +:+ ": " +:+ e))).

Definition handleA (env : Env) (ev : Event) : Async unit :=
  match ev with
  | MessageCreate message => onMessageCreateA env message
  | GuildMemberUpdate newMember => onGuildMemberUpdateA env newMember
  end.

(** What the event loop does next: the gateway delivers an event, whose
    handler runs up to its first [await]; or the call awaited by the
    [i]-th suspended handler settles, and that handler runs up to its next
    [await]. *)
Inductive Tick :=
| Arrives (env : Env) (ev : Event)
| Settles (i : nat).

Definition tick (t : Tick) (l : Loop) : Loop :=
  match t with
  | Arrives env ev => advance (handleA env ev) l
  | Settles i =>
      match suspended l !! i with
      | Some resume =>
          advance resume {| current := current l; suspended := delete i (suspended l) |}
      | None => l
      end
  end.

Definition schedule (ticks : list Tick) (l : Loop) : Loop :=
  foldl (fun l t => tick t l) l ticks.

End Bot.

(** ** A JSON reader and writer for the two store documents

    The handlers are stated over any [Json] instance.  The instances below
    give the alias and memory documents a concrete JSON text (compact
    output; strings escape the quote and the backslash), so that the store
    can be run on actual documents. *)

Module JsonText.

Inductive JValue :=
| JStr (s : string)
| JArr (items : list JValue)
| JObj (members : list (string * JValue)).

Definition dquote : ascii := ascii_of_N 34.
Definition backslash : ascii := ascii_of_N 92.

Fixpoint escape (s : string) : string :=
  match s with
  | EmptyString => EmptyString
  | String c s' =>
      if Ascii.eqb c dquote || Ascii.eqb c backslash
      then String backslash (String c (escape s'))
      else String c (escape s')
  end.

Definition quote (s : string) : string :=
  String dquote (escape s +:+ String dquote EmptyString).

Fixpoint print (v : JValue) : string :=
  match v with
  | JStr s => quote s
  | JArr items => "[" +:+ Js.join "," (map print items) +:+ "]"
  | JObj members =>
      "{" +:+ Js.join "," (map (fun kv => quote (fst kv) +:+ ":" +:+ print (snd kv)) members)
      +:+ "}"
  end.

(** Reads a string body up to its closing quote. *)
Fixpoint read_string (s : string) : option (string * string) :=
  match s with
  | EmptyString => None
  | String c s' =>
      if Ascii.eqb c dquote then Some (EmptyString, s')
      else if Ascii.eqb c backslash
      then match s' with
           | String c' s'' =>
               match read_string s'' with
               | Some (body, r) => Some (String c' body, r)
               | None => None
               end
           | EmptyString => None
           end
      else match read_string s' with
           | Some (body, r) => Some (String c body, r)
           | None => None
           end
  end.

(** Elements up to the closing bracket, [pv] reading one value. *)
Fixpoint read_items (pv : string -> option (JValue * string)) (fuel : nat) (s : string)
    : option (list JValue * string) :=
  match fuel with
  | O => None
  | S fuel' =>
      match pv s with
      | Some (v, r) =>
          match Js.trimStart r with
          | String "," r' =>
              match read_items pv fuel' r' with
              | Some (vs, r'') => Some (v :: vs, r'')
              | None => None
              end
          | String "]" r' => Some ([v], r')
          | _ => None
          end
      | None => None
      end
  end.

(** Members up to the closing brace. *)
Fixpoint read_members (pv : string -> option (JValue * string)) (fuel : nat) (s : string)
    : option (list (string * JValue) * string) :=
  match fuel with
  | O => None
  | S fuel' =>
      match Js.trimStart s with
      | String c r =>
          if Ascii.eqb c dquote
          then
            match read_string r with
            | Some (k, r1) =>
                match Js.trimStart r1 with
                | String ":" r2 =>
                    match pv r2 with
                    | Some (v, r3) =>
                        match Js.trimStart r3 with
                        | String "," r4 =>
                            match read_members pv fuel' r4 with
                            | Some (ms, r5) => Some ((k, v) :: ms, r5)
                            | None => None
                            end
                        | String "}" r4 => Some ([(k, v)], r4)
                        | _ => None
                        end
                    | None => None
                    end
                | _ => None
                end
            | None => None
            end
          else None
      | EmptyString => None
      end
  end.

Fixpoint read_value (fuel : nat) (s : string) : option (JValue * string) :=
  match fuel with
  | O => None
  | S fuel' =>
      match Js.trimStart s with
      | String "[" r =>
          match Js.trimStart r with
          | String "]" r' => Some (JArr [], r')
          | _ => match read_items (read_value fuel') fuel' r with
                 | Some (vs, r') => Some (JArr vs, r')
                 | None => None
                 end
          end
      | String "{" r =>
          match Js.trimStart r with
          | String "}" r' => Some (JObj [], r')
          | _ => match read_members (read_value fuel') fuel' r with
                 | Some (ms, r') => Some (JObj ms, r')
                 | None => None
                 end
          end
      | String c r =>
          if Ascii.eqb c dquote
          then match read_string r with
               | Some (body, r') => Some (JStr body, r')
               | None => None
               end
          else None
      | EmptyString => None
      end
  end.

(** A whole text: one value and nothing but whitespace after it. *)
Definition read (s : string) : option JValue :=
  match read_value (S (String.length s)) s with
  | Some (v, r) => if Js.truthy (Js.trimStart r) then None else Some v
  | None => None
  end.

(** Alias document: an object of strings. *)
Definition of_aliases (m : gmap string string) : JValue :=
  JObj ((fun kv => (fst kv, JStr (snd kv))) <$> map_to_list m).

Definition to_aliases (v : JValue) : option (gmap string string) :=
  match v with
  | JObj members =>
      list_to_map <$>
        mapM (fun kv => match snd kv with
                        | JStr s => Some (fst kv, s)
                        | _ => None
                        end) members
  | _ => None
  end.

Definition of_turn (t : MemoryTurn) : JValue :=
  JObj [("speaker", JStr (speaker t)); ("text", JStr (text t))].

Definition to_turn (v : JValue) : option MemoryTurn :=
  match v with
  | JObj [("speaker", JStr s); ("text", JStr t)] => Some {| speaker := s; text := t |}
  | _ => None
  end.

(** Memory document: an object of arrays of turns. *)
Definition of_memory (m : gmap string (list MemoryTurn)) : JValue :=
  JObj ((fun kv => (fst kv, JArr (of_turn <$> snd kv))) <$> map_to_list m).

Definition to_memory (v : JValue) : option (gmap string (list MemoryTurn)) :=
  match v with
  | JObj members =>
      list_to_map <$>
        mapM (fun kv => match snd kv with
                        | JArr items => (fun ts => (fst kv, ts)) <$> mapM to_turn items
                        | _ => None
                        end) members
  | _ => None
  end.

Definition alias_json : Json (gmap string string) :=
  {| stringify := fun m => print (of_aliases m);
     parse := fun s => read s ≫= to_aliases |}.

Definition memory_json : Json (gmap string (list MemoryTurn)) :=
  {| stringify := fun m => print (of_memory m);
     parse := fun s => read s ≫= to_memory |}.

End JsonText.

(** ** Notions used by the statements *)

(** Two computations do the same from every world. *)
Definition same {A} (m m' : M A) : Prop := forall w, m w = m' w.

(** An event loop with no handler under way. *)
Definition idle (w : World) : Loop := {| current := w; suspended := [] |}.

(** A computation leaves the component [proj] of the world as it found it. *)
Definition preserves {A B} (proj : World -> B) (m : M A) : Prop :=
  forall w, proj (snd (m w)) = proj w.

(** A computation completes normally from every world. *)
Definition returns {A} (m : M A) : Prop :=
  forall w, exists a, fst (m w) = Ok a.

(** The last [n] elements of a list, in their order. *)
Definition takeLast {A} (n : nat) (l : list A) : list A :=
  drop (length l - n) l.

(** The trimming step of [appendToMemory]. *)
Definition cap `{Config} (l : list MemoryTurn) : list MemoryTurn :=
  if Z.of_nat (length l) >? MAX_MEMORY_ENTRIES
  then Js.slice (- MAX_MEMORY_ENTRIES) l else l.

(** The configuration of a deployment started with [MAX_MEMORY_ENTRIES=0]. *)
Definition zero_cap_config : Config :=
  {| CREATOR_ID := "";
     MAX_MEMORY_ENTRIES := 0;
     RANDOM_DEGRADE_CHANCE := 5 # 100;
     RANDOM_CHIME_CHANCE := 15 # 100;
     GEMINI_MODEL := "gemini-1.5-pro";
     MANUAL_LOG_PATH := "data/manual_log.txt";
     ALIAS_FILE := "data/aliases.json";
     MEMORY_FILE := "data/memory.json" |}.

(** One call of [appendToMemory]. *)
Record AppendCall := { call_channel : string; call_speaker : string; call_text : string }.

(** The turns a sequence of calls appends to [channelId], in call order. *)
Definition turnsFor (channelId : string) (calls : list AppendCall) : list MemoryTurn :=
  (fun c => {| speaker := call_speaker c; text := call_text c |})
    <$> filter (fun c => call_channel c = channelId) calls.

(** The world after a sequence of [appendToMemory] calls. *)
Definition appendAll `{Config} `{Json (gmap string (list MemoryTurn))}
    (calls : list AppendCall) (w : World) : World :=
  foldl (fun w c => exec (appendToMemory (call_channel c) (call_speaker c) (call_text c)) w)
        w calls.

(** The same outcomes, with another draw for the random assignment. *)
Definition with_random_degrade (d : Q) (env : Env) : Env :=
  {| now := now env; now_replied := now_replied env;
     random_degrade := d; random_name := random_name env;
     random_chime := random_chime env; random_persona := random_persona env;
     can_rename := can_rename env; can_fetch := can_fetch env;
     generation := generation env; net := net env;
     created_channel := created_channel env |}.

(** How one event may change the flag map: not at all, by flagging a user
    who was not flagged, or by unflagging a user. *)
Inductive flag_step (m m' : gmap string MaggotEntry) : Prop :=
| flag_same : m' = m -> flag_step m m'
| flag_added id e : m !! id = None -> m' = <[id := e]> m -> flag_step m m'
| flag_removed id : m' = delete id m -> flag_step m m'.

(** How a computation may change the flag map. *)
Definition flag_steps {A} (m : M A) : Prop :=
  forall w, flag_step (maggots w) (maggots (snd (m w))).

(** Sample outcomes: the clock at 1000 ms, every draw at [1/2], every
    platform call allowed, a backend that answers. *)
Definition calm_env : Env :=
  {| now := 1000; now_replied := 2000;
     random_degrade := 1 # 2; random_name := 1 # 2;
     random_chime := 1 # 2; random_persona := 1 # 2;
     can_rename := fun _ => true; can_fetch := fun _ => true;
     generation := GenResolves (RespText "Noted.");
     net := Ingest.offline; created_channel := Some "900" |}.

(** The same, where the bot lacks the permission to rename anyone. *)
Definition denied_env : Env :=
  {| now := 1000; now_replied := 2000;
     random_degrade := 1 # 2; random_name := 1 # 2;
     random_chime := 1 # 2; random_persona := 1 # 2;
     can_rename := fun _ => false; can_fetch := fun _ => true;
     generation := GenResolves (RespText "Noted.");
     net := Ingest.offline; created_channel := Some "900" |}.

(** The configuration of a deployment whose creator is user 7. *)
Definition creator7_config : Config :=
  {| CREATOR_ID := "7";
     MAX_MEMORY_ENTRIES := 14;
     RANDOM_DEGRADE_CHANCE := 5 # 100;
     RANDOM_CHIME_CHANCE := 15 # 100;
     GEMINI_MODEL := "gemini-1.5-pro";
     MANUAL_LOG_PATH := "data/manual_log.txt";
     ALIAS_FILE := "data/aliases.json";
     MEMORY_FILE := "data/memory.json" |}.

(** The text the generation backend made available, if any: what
    [resp.response.text()] returned, trimmed, when that is not empty. *)
Definition usable_text (g : GenOutcome) : option string :=
  match g with
  | GenResolves (RespText out) =>
      if Js.truthy (Js.trim out) then Some (Js.trim out) else None
  | _ => None
  end.

(** What [respondWithIntel] is to return, by what the backend did. *)
Definition expected_answer (g : GenOutcome) : string :=
  match g with
  | GenRejects _ => "Gemini request failed. Check configuration."
  | GenResolves (RespTextThrows _) => "Gemini request failed. Check configuration."
  | GenResolves RespNoText => "I couldn't formulate a response."
  | GenResolves (RespText out) =>
      if Js.truthy (Js.trim out) then Js.trim out
      else "I couldn't formulate a response."
  end.

(** Outcomes like [calm_env] at time [t], where the draw for the label is
    [d]. *)
Definition naming_env (d : Q) (t : Z) : Env :=
  {| now := t; now_replied := t + 1000;
     random_degrade := 1 # 2; random_name := d;
     random_chime := 1 # 2; random_persona := 1 # 2;
     can_rename := fun _ => true; can_fetch := fun _ => true;
     generation := GenResolves (RespText "Noted.");
     net := Ingest.offline; created_channel := Some "900" |}.

(** Outcomes where the generation backend is down. *)
Definition outage_env : Env :=
  {| now := 1000; now_replied := 2000;
     random_degrade := 1 # 2; random_name := 1 # 2;
     random_chime := 1 # 2; random_persona := 1 # 2;
     can_rename := fun _ => true; can_fetch := fun _ => true;
     generation := GenRejects "503 Service Unavailable";
     net := Ingest.offline; created_channel := Some "900" |}.

(** A world where user 42 is flagged with the label [worm]. *)
Definition worm_world : World :=
  with_maggots (fun m => <["42" := {| name := "worm"; at_ := 500 |}]> m) initial_world.

(** A guild message of user 42 under the nickname [nick]. *)
Definition message_of_42 (nick : option string) (body : string) : Message :=
  {| author_id := "42"; author_bot := false; author_username := "bob";
     content := body; guild := true;
     member := Some {| member_id := "42"; nickname := nick; displayName := "bob" |};
     channel_id := "100"; attachments := [] |}.



(** ** Notions used by the further properties *)

(** The entry's label is one of [DEGRADE_NAMES]. *)
Definition in_catalogue (e : MaggotEntry) : Prop := name e ∈ DEGRADE_NAMES.

(** Every label in the flag map comes from [DEGRADE_NAMES]. *)
Definition labels_from_catalogue (m : gmap string MaggotEntry) : Prop :=
  forall u e, m !! u = Some e -> in_catalogue e.

(** [flag_step] where the entry that is added satisfies [P]. *)
Inductive flag_step_with (P : MaggotEntry -> Prop) (m m' : gmap string MaggotEntry) : Prop :=
| flag_with_same : m' = m -> flag_step_with P m m'
| flag_with_added id e : P e -> m' = <[id := e]> m -> flag_step_with P m m'
| flag_with_removed id : m' = delete id m -> flag_step_with P m m'.

Definition flag_steps_with {A} (P : MaggotEntry -> Prop) (m : M A) : Prop :=
  forall w, flag_step_with P (maggots w) (maggots (snd (m w))).

(** A string of decimal digits. *)
Fixpoint allDigits (s : string) : bool :=
  match s with
  | EmptyString => true
  | String c s' => Js.isDigit c && allDigits s'
  end.

(** The speaker under which the handler records a message: the alias, else
    the member's display name, else the user name (line 639). *)
Definition callsignOf (message : Message) (w : World) : string :=
  Js.opt_or_else (aliasMap w !! author_id message)
    (Js.opt_or_else (displayName <$> member message) (author_username message)).

(** What a computation adds to the trace satisfies [P]. *)
Definition emits_only {A} (P : Effect -> Prop) (m : M A) : Prop :=
  forall w, exists effs, trace (snd (m w)) = trace w ++ effs /\ Forall P effs.

Definition is_rename (e : Effect) : bool :=
  match e with SetNickname _ _ => true | _ => false end.

Definition is_reply (e : Effect) : bool :=
  match e with Reply _ => true | _ => false end.

Definition is_generation (e : Effect) : bool :=
  match e with GenerateContent _ _ => true | _ => false end.

Definition is_warning (e : Effect) : bool :=
  match e with ConsoleWarn _ => true | _ => false end.

Definition is_log (e : Effect) : bool :=
  match e with ConsoleWarn _ | ConsoleError _ => true | _ => false end.

(** * Properties *)

(** ** Reasoning principles for handlers *)

Section Frames.
Context {B : Type} (proj : World -> B).

Lemma preserves_ret {A} (a : A) : preserves proj (ret a).
Proof. intros w. reflexivity. Qed.

Lemma preserves_throw {A} e : preserves proj (@throw A e).
Proof. intros w. reflexivity. Qed.

Lemma preserves_gets {A} (f : World -> A) : preserves proj (gets f).
Proof. intros w. reflexivity. Qed.

Lemma preserves_bind {A C} (m : M A) (k : A -> M C) :
  preserves proj m -> (forall a, preserves proj (k a)) -> preserves proj (bind m k).
Proof.
  intros Hm Hk w. unfold bind. specialize (Hm w).
  destruct (m w) as [[a|e] w']; simpl in *.
  - rewrite Hk. exact Hm.
  - exact Hm.
Qed.

Lemma preserves_try_catch {A} (m : M A) (h : string -> M A) :
  preserves proj m -> (forall e, preserves proj (h e)) -> preserves proj (try_catch m h).
Proof.
  intros Hm Hh w. unfold try_catch. specialize (Hm w).
  destruct (m w) as [[a|e] w']; simpl in *.
  - exact Hm.
  - rewrite Hh. exact Hm.
Qed.

Lemma preserves_modify (f : World -> World) :
  (forall w, proj (f w) = proj w) -> preserves proj (modify f).
Proof. intros Hf w. apply Hf. Qed.

Lemma preserves_if {A} (b : bool) (m1 m2 : M A) :
  preserves proj m1 -> preserves proj m2 -> preserves proj (if b then m1 else m2).
Proof. destruct b; auto. Qed.

End Frames.

Lemma returns_ret {A} (a : A) : returns (ret a).
Proof. intros w. eexists. reflexivity. Qed.

Lemma returns_gets {A} (f : World -> A) : returns (gets f).
Proof. intros w. eexists. reflexivity. Qed.

Lemma returns_modify f : returns (modify f).
Proof. intros w. eexists. reflexivity. Qed.

Lemma returns_bind {A C} (m : M A) (k : A -> M C) :
  returns m -> (forall a, returns (k a)) -> returns (bind m k).
Proof.
  intros Hm Hk w. unfold bind. destruct (Hm w) as [a Ha].
  destruct (m w) as [[a'|e] w']; simpl in Ha; [|discriminate].
  apply Hk.
Qed.

Lemma returns_try_catch {A} (m : M A) (h : string -> M A) :
  (forall e, returns (h e)) -> returns (try_catch m h).
Proof.
  intros Hh w. unfold try_catch.
  destruct (m w) as [[a|e] w']; [eexists; reflexivity | apply Hh].
Qed.

Lemma returns_if {A} (b : bool) (m1 m2 : M A) :
  returns m1 -> returns m2 -> returns (if b then m1 else m2).
Proof. destruct b; auto. Qed.

Lemma returns_unit (m : M unit) w : returns m -> fst (m w) = Ok tt.
Proof. intros Hm. destruct (Hm w) as [[] Ha]. exact Ha. Qed.

(** ** JSON persistence *)

Lemma string_length_app (s t : string) :
  String.length (s +:+ t) = (String.length s + String.length t)%nat.
Proof. induction s as [|c s IH]; simpl; [reflexivity | now rewrite IH]. Qed.

Lemma tmp_path_fresh (filePath : string) : filePath +:+ ".tmp" <> filePath.
Proof.
  intros Heq. apply (f_equal String.length) in Heq.
  rewrite string_length_app in Heq. simpl in Heq. lia.
Qed.

Section StoreFacts.
Context {Doc : Type} `{Json Doc}.

(** [writeJsonAtomic] completes, and leaves the document's text under
    [filePath] and nothing under the temporary name. *)
Lemma writeJsonAtomic_run (filePath : string) (obj : Doc) (w : World) :
  writeJsonAtomic filePath obj w =
    (Ok tt, with_fs (fun f => <[filePath := stringify obj]>
                                (delete (filePath +:+ ".tmp")
                                   (<[filePath +:+ ".tmp" := stringify obj]> f))) w).
Proof.
  unfold writeJsonAtomic, writeJsonAtomic_calls, fsCalls, fsCall, bind, writeFileSync,
    renameSync, modify, ret.
  simpl. rewrite lookup_insert_eq. destruct w; reflexivity.
Qed.

Lemma writeJsonAtomic_returns (filePath : string) (obj : Doc) :
  returns (writeJsonAtomic filePath obj).
Proof. intros w. rewrite writeJsonAtomic_run. eexists. reflexivity. Qed.

Lemma writeJsonAtomic_preserves {B} (proj : World -> B) (filePath : string) (obj : Doc) :
  (forall f w, proj (with_fs f w) = proj w) ->
  preserves proj (writeJsonAtomic filePath obj).
Proof. intros Hp w. rewrite writeJsonAtomic_run. simpl. apply Hp. Qed.

(** What [readJsonSafe] returns is decided by the text under [filePath]. *)
Lemma readJsonSafe_run (filePath : string) (fallback : Doc) (w : World) :
  readJsonSafe filePath fallback w =
    (Ok (default fallback (fs w !! filePath ≫= parse)), w).
Proof.
  unfold readJsonSafe, try_catch, bind, existsSync, readFileSync, gets, JSON_parse.
  destruct (fs w !! filePath) as [txt|] eqn:Hf; simpl.
  - rewrite Hf. destruct (parse txt); reflexivity.
  - reflexivity.
Qed.

End StoreFacts.

(** C8. Saving a JSON-representable document with [writeJsonAtomic] and
    loading it with [readJsonSafe] gives the document back, whatever the
    fallback and whatever was stored before.  Wherever the process stops
    during the save, before the first call, inside the write of the temporary
    file, between the write and the rename, or at the rename, the file
    under [filePath] is the one that was there before the save and a reader
    gets what it got before; once the process is through both calls the
    world is that of the completed save and a reader gets the new document.
    No stopping point shows a reader a partly written document. *)
Theorem store_round_trip {Doc} `{Json Doc}
    (filePath : string) (obj fallback : Doc) (w : World) :
  json_representable obj ->
  fst (writeJsonAtomic filePath obj w) = Ok tt
  /\ fst (readJsonSafe filePath fallback (exec (writeJsonAtomic filePath obj) w)) = Ok obj
  /\ forall stop,
       let calls := writeJsonAtomic_calls filePath obj in
       let w' := exec (fsCalls stop calls) w in
       if completes stop calls
       then w' = exec (writeJsonAtomic filePath obj) w
            /\ fst (readJsonSafe filePath fallback w') = Ok obj
       else fs w' !! filePath = fs w !! filePath
            /\ fst (readJsonSafe filePath fallback w')
               = fst (readJsonSafe filePath fallback w).
Proof.
  intros Hrep.
  assert (Hfull : fst (readJsonSafe filePath fallback
                         (exec (writeJsonAtomic filePath obj) w)) = Ok obj).
  { unfold exec. rewrite writeJsonAtomic_run, readJsonSafe_run. simpl.
    rewrite lookup_insert_eq. simpl. unfold json_representable in Hrep.
    now rewrite Hrep. }
  split; [now rewrite writeJsonAtomic_run|]. split; [exact Hfull|].
  assert (Hkeep : forall w' : World,
            fs w' !! filePath = fs w !! filePath ->
            fs w' !! filePath = fs w !! filePath
            /\ fst (readJsonSafe filePath fallback w')
               = fst (readJsonSafe filePath fallback w)).
  { intros w' Hfs. split; [exact Hfs|]. rewrite !readJsonSafe_run. simpl. now rewrite Hfs. }
  intros [|[|[|k]]|[|[|k]] written]; cbn [completes writeJsonAtomic_calls length Nat.leb].
  - split; [reflexivity | exact Hfull].
  - apply Hkeep. reflexivity.
  - apply Hkeep. unfold exec, fsCalls, fsCall, bind, writeFileSync, modify, ret. simpl.
    now rewrite lookup_insert_ne by apply tmp_path_fresh.
  - split; [reflexivity | exact Hfull].
  - apply Hkeep. unfold exec, fsCalls, cutShort, writeFileSync, modify. simpl.
    now rewrite lookup_insert_ne by apply tmp_path_fresh.
  - apply Hkeep. unfold exec, fsCalls, fsCall, cutShort, bind, writeFileSync, modify, ret.
    simpl. now rewrite lookup_insert_ne by apply tmp_path_fresh.
  - split; [reflexivity | exact Hfull].
Qed.

Lemma store_round_trip_witness :
  let doc : gmap string string := <["1001" := "Ghost"]> (<["1002" := "Soap"]> ∅) in
  let calls := @writeJsonAtomic_calls _ JsonText.alias_json "data/aliases.json" doc in
  @json_representable _ JsonText.alias_json doc
  /\ fst (@readJsonSafe _ JsonText.alias_json "data/aliases.json" ∅
            (exec (@writeJsonAtomic _ JsonText.alias_json "data/aliases.json" doc)
                  initial_world)) = Ok doc
  /\ fs (exec (fsCalls (Within 0 5) calls) initial_world) !! "data/aliases.json" = None
  /\ fs (exec (fsCalls (Within 0 5) calls) initial_world) !! "data/aliases.json.tmp"
     = Some (Js.sliceTo 5 (@stringify _ JsonText.alias_json doc)).
Proof.
  intros doc calls.
  assert (Hrep : @json_representable _ JsonText.alias_json doc) by (vm_compute; reflexivity).
  destruct (@store_round_trip _ JsonText.alias_json "data/aliases.json" doc ∅ initial_world
              Hrep) as (_ & Hload & Hstop).
  split; [exact Hrep|]. split; [exact Hload|].
  pose proof (Hstop (Within 0 5)) as Hcut. cbn [completes] in Hcut.
  split; [exact (proj1 Hcut) | vm_compute; reflexivity].
Defined.

(** ** Conversation memory *)

Section MemoryFacts.
Context `{Config}.
Context `{Json (gmap string (list MemoryTurn))}.

Lemma alter_known {A} (f : A -> A) (c : string) (x : A) (m : gmap string A) :
  m !! c = Some x -> alter f c m = <[c := f x]> m.
Proof.
  intros Hc. apply map_eq. intros i. destruct (decide (i = c)) as [->|Hne].
  - now rewrite lookup_alter_eq, lookup_insert_eq, Hc.
  - now rewrite lookup_alter_ne, lookup_insert_ne by congruence.
Qed.

(** The memory map after one call: the channel's sequence with the new
    turn at its end, trimmed; everything else as before. *)
Lemma appendToMemory_memoryMap (c s t : string) (w : World) :
  memoryMap (exec (appendToMemory c s t) w) =
    <[c := cap (getMemory c w ++ [{| speaker := s; text := t |}])]> (memoryMap w).
Proof.
  unfold exec, appendToMemory, saveMemory, bind, gets, modify, getMemory, cap.
  destruct (memoryMap w !! c) as [l0|] eqn:Hc; simpl.
  - rewrite lookup_alter_eq, Hc. simpl.
    destruct (_ >? _); simpl; rewrite writeJsonAtomic_run; simpl.
    + apply insert_alter_eq.
    + now rewrite (alter_known _ c l0) by exact Hc.
  - rewrite lookup_alter_eq, lookup_insert_eq. simpl.
    destruct (_ >? _); simpl; rewrite writeJsonAtomic_run; simpl.
    + now rewrite insert_alter_eq, insert_insert_eq.
    + rewrite (alter_known _ c []) by apply lookup_insert_eq.
      apply insert_insert_eq.
Qed.

Lemma appendToMemory_returns (c s t : string) : returns (appendToMemory c s t).
Proof.
  unfold appendToMemory, saveMemory.
  apply returns_bind; [apply returns_gets|]. intros mm.
  apply returns_bind; [destruct (mm !! c); [apply returns_ret | apply returns_modify]|].
  intros _. apply returns_bind; [apply returns_modify|]. intros _.
  apply returns_bind; [apply returns_gets|]. intros l.
  apply returns_bind; [apply returns_if; [apply returns_modify | apply returns_ret]|].
  intros _. apply returns_bind; [apply returns_gets|]. intros mm'.
  apply writeJsonAtomic_returns.
Qed.

(** Apart from the memory map and the data directory, [appendToMemory]
    changes nothing. *)
Lemma appendToMemory_preserves {B} (proj : World -> B) (c s t : string) :
  (forall f w, proj (with_fs f w) = proj w) ->
  (forall f w, proj (with_memoryMap f w) = proj w) ->
  preserves proj (appendToMemory c s t).
Proof.
  intros Hfs Hmm. unfold appendToMemory, saveMemory.
  apply preserves_bind; [apply preserves_gets|]. intros mm.
  apply preserves_bind.
  { destruct (mm !! c); [apply preserves_ret | now apply preserves_modify]. }
  intros _. apply preserves_bind; [now apply preserves_modify|]. intros _.
  apply preserves_bind; [apply preserves_gets|]. intros l.
  apply preserves_bind.
  { apply preserves_if; [now apply preserves_modify | apply preserves_ret]. }
  intros _. apply preserves_bind; [apply preserves_gets|]. intros mm'.
  now apply writeJsonAtomic_preserves.
Qed.

Lemma getMemory_appendToMemory_eq (c s t : string) (w : World) :
  getMemory c (exec (appendToMemory c s t) w) =
    cap (getMemory c w ++ [{| speaker := s; text := t |}]).
Proof.
  unfold getMemory at 1. now rewrite appendToMemory_memoryMap, lookup_insert_eq.
Qed.

Lemma getMemory_appendToMemory_ne (c c' s t : string) (w : World) :
  c' <> c -> getMemory c' (exec (appendToMemory c s t) w) = getMemory c' w.
Proof.
  intros Hne. unfold getMemory.
  now rewrite appendToMemory_memoryMap, lookup_insert_ne by congruence.
Qed.

Lemma appendAll_cons (call : AppendCall) (calls : list AppendCall) (w : World) :
  appendAll (call :: calls) w =
    appendAll calls
      (exec (appendToMemory (call_channel call) (call_speaker call) (call_text call)) w).
Proof. reflexivity. Qed.

Lemma turnsFor_cons_eq (c : string) (call : AppendCall) (calls : list AppendCall) :
  call_channel call = c ->
  turnsFor c (call :: calls) =
    {| speaker := call_speaker call; text := call_text call |} :: turnsFor c calls.
Proof. intros Hc. unfold turnsFor. now rewrite filter_cons_True. Qed.

Lemma turnsFor_cons_ne (c : string) (call : AppendCall) (calls : list AppendCall) :
  call_channel call <> c -> turnsFor c (call :: calls) = turnsFor c calls.
Proof. intros Hc. unfold turnsFor. now rewrite filter_cons_False. Qed.

Lemma takeLast_length {A} (n : nat) (l : list A) :
  length (takeLast n l) = (length l `min` n)%nat.
Proof. unfold takeLast. rewrite length_drop. lia. Qed.

Lemma takeLast_app_absorb {A} (n : nat) (a b : list A) :
  takeLast n (takeLast n a ++ b) = takeLast n (a ++ b).
Proof.
  unfold takeLast.
  destruct (decide (length a <= n)%nat) as [Hle|Hgt].
  - replace (length a - n)%nat with 0%nat by lia. reflexivity.
  - rewrite !length_app, length_drop.
    replace (length a - (length a - n) + length b - n)%nat with (length b) by lia.
    replace (length a + length b - n)%nat with ((length a - n) + length b)%nat by lia.
    rewrite <- drop_drop. f_equal. rewrite drop_app_le by lia. reflexivity.
Qed.

(** With a cap of at least one, trimming keeps the last
    [MAX_MEMORY_ENTRIES] turns. *)
Lemma cap_takeLast (l : list MemoryTurn) :
  1 <= MAX_MEMORY_ENTRIES -> cap l = takeLast (Z.to_nat MAX_MEMORY_ENTRIES) l.
Proof.
  intros Hpos. unfold cap, takeLast, Js.slice.
  destruct (Z.gtb_spec (Z.of_nat (length l)) MAX_MEMORY_ENTRIES) as [Hgt|Hle].
  - rewrite (proj2 (Z.ltb_lt _ _)) by lia. f_equal. lia.
  - replace (length l - Z.to_nat MAX_MEMORY_ENTRIES)%nat with 0%nat by lia.
    reflexivity.
Qed.

(** X1. FIFO window: with a cap of at least one, and from a store that
    respects the cap for the channel, after any sequence of calls the
    channel holds the last [MAX_MEMORY_ENTRIES] of its turns, in arrival
    order. *)
Lemma appendAll_fifo (calls : list AppendCall) (c : string) (w : World) :
  1 <= MAX_MEMORY_ENTRIES ->
  Z.of_nat (length (getMemory c w)) <= MAX_MEMORY_ENTRIES ->
  getMemory c (appendAll calls w) =
    takeLast (Z.to_nat MAX_MEMORY_ENTRIES) (getMemory c w ++ turnsFor c calls)
  /\ Z.of_nat (length (getMemory c (appendAll calls w))) <= MAX_MEMORY_ENTRIES.
Proof.
  intros Hpos Hw.
  enough (Heq : getMemory c (appendAll calls w) =
            takeLast (Z.to_nat MAX_MEMORY_ENTRIES) (getMemory c w ++ turnsFor c calls)).
  { split; [exact Heq|]. rewrite Heq, takeLast_length. lia. }
  revert w Hw. induction calls as [|call calls IH]; intros w Hw.
  - unfold turnsFor, takeLast. simpl. rewrite app_nil_r.
    replace (length (getMemory c w) - Z.to_nat MAX_MEMORY_ENTRIES)%nat with 0%nat by lia.
    reflexivity.
  - rewrite appendAll_cons.
    destruct (decide (call_channel call = c)) as [Hc|Hc].
    + rewrite IH.
      * subst c. rewrite getMemory_appendToMemory_eq, cap_takeLast by exact Hpos.
        rewrite takeLast_app_absorb, <- app_assoc.
        now rewrite (turnsFor_cons_eq _ call calls eq_refl).
      * subst c. rewrite getMemory_appendToMemory_eq, cap_takeLast by exact Hpos.
        rewrite takeLast_length. lia.
    + rewrite IH; rewrite getMemory_appendToMemory_ne by congruence.
      * now rewrite turnsFor_cons_ne.
      * exact Hw.
Qed.

End MemoryFacts.

(** C10. [appendToMemory(channelId, speaker, text)] always completes
    normally, and changes the memory of no other channel: for every channel
    other than [channelId], [getMemory] returns the same sequence before and
    after the call.  The flags, the aliases, the last-response times and the
    manual log are left alone too. *)
Theorem appendToMemory_frame `{Config} `{Json (gmap string (list MemoryTurn))}
    (channelId speaker text : string) (w : World) :
  fst (appendToMemory channelId speaker text w) = Ok tt
  /\ (forall c', c' <> channelId ->
        getMemory c' (exec (appendToMemory channelId speaker text) w) = getMemory c' w)
  /\ maggots (exec (appendToMemory channelId speaker text) w) = maggots w
  /\ aliasMap (exec (appendToMemory channelId speaker text) w) = aliasMap w
  /\ lastResponseByChannel (exec (appendToMemory channelId speaker text) w)
     = lastResponseByChannel w
  /\ manualLog (exec (appendToMemory channelId speaker text) w) = manualLog w.
Proof.
  split; [apply returns_unit, appendToMemory_returns|].
  split; [intros c' Hne; now apply getMemory_appendToMemory_ne|].
  repeat split; apply appendToMemory_preserves; reflexivity.
Qed.

Lemma appendToMemory_frame_witness :
  let w := exec (@appendToMemory default_config JsonText.memory_json "100" "Ghost" "hold") initial_world in
  "100" <> "200"
  /\ getMemory "100"
       (exec (@appendToMemory default_config JsonText.memory_json "200" "Soap" "sir?") w)
     = getMemory "100" w.
Proof.
  intros w. split; [discriminate|].
  apply (@appendToMemory_frame default_config JsonText.memory_json "200" "Soap" "sir?" w).
  discriminate.
Defined.

(** C3. Started with [MAX_MEMORY_ENTRIES=0] the store is never trimmed:
    [slice(-0)] is [slice(0)], the whole array, so that after any sequence of
    calls a channel holds every turn that was appended to it, and already
    after one call it holds more than the configured maximum. *)
Theorem appendToMemory_zero_cap_never_trims `{Json (gmap string (list MemoryTurn))} :
  @MAX_MEMORY_ENTRIES zero_cap_config = 0
  /\ (forall (calls : list AppendCall) (c : string),
        getMemory c (@appendAll zero_cap_config _ calls initial_world) = turnsFor c calls)
  /\ length (getMemory "100"
               (exec (@appendToMemory zero_cap_config _ "100" "Ghost" "hold") initial_world))
     = 1%nat.
Proof.
  assert (Hcap : forall l, @cap zero_cap_config l = l).
  { intros l. unfold cap, Js.slice. simpl.
    destruct (_ >? _); [|reflexivity].
    rewrite Z.min_l by lia. reflexivity. }
  split; [reflexivity|]. split.
  - intros calls c.
    enough (Hgen : forall w, getMemory c (@appendAll zero_cap_config _ calls w)
                             = getMemory c w ++ turnsFor c calls) by apply Hgen.
    induction calls as [|call calls IH]; intros w.
    + unfold turnsFor. simpl. now rewrite app_nil_r.
    + rewrite appendAll_cons, IH.
      destruct (decide (call_channel call = c)) as [Hc|Hc].
      * subst c. rewrite getMemory_appendToMemory_eq, Hcap, <- app_assoc.
        now rewrite (turnsFor_cons_eq _ call calls eq_refl).
      * rewrite getMemory_appendToMemory_ne by congruence.
        now rewrite turnsFor_cons_ne.
  - rewrite getMemory_appendToMemory_eq, Hcap. reflexivity.
Qed.

(** ** Moderation flags *)

Section MarkMaggot.
Variables (env : Env) (member : GuildMember) (label : string) (w : World).

Lemma markMaggot_flagged :
  isMaggot (member_id member) w = true ->
  markMaggot env member label w = (Ok tt, w).
Proof. intros Hf. unfold markMaggot, bind, gets. now rewrite Hf. Qed.

Lemma markMaggot_denied :
  isMaggot (member_id member) w = false ->
  can_rename env (member_id member) = false ->
  markMaggot env member label w =
    (Ok tt, with_effect (ConsoleWarn ("Could not set nickname '" +:+ label +:+ "' for "
                                      +:+ member_id member +:+ ": Missing Permissions")) w).
Proof.
  intros Hf Hp. unfold markMaggot, bind, gets, try_catch, setNickname.
  rewrite Hf, Hp. reflexivity.
Qed.

Lemma markMaggot_renamed :
  isMaggot (member_id member) w = false ->
  can_rename env (member_id member) = true ->
  markMaggot env member label w =
    (Ok tt,
     with_maggots (fun m => <[member_id member := {| name := label; at_ := now env |}]> m)
       (with_effect (SetNickname (member_id member) (Some label)) w)).
Proof.
  intros Hf Hp. unfold markMaggot, bind, gets, try_catch, setNickname.
  rewrite Hf, Hp. reflexivity.
Qed.

End MarkMaggot.

Lemma isMaggot_true (id : string) (w : World) :
  isMaggot id w = true <-> is_Some (maggots w !! id).
Proof. unfold isMaggot. apply bool_decide_eq_true. Qed.

Lemma isMaggot_false (id : string) (w : World) :
  isMaggot id w = false <-> maggots w !! id = None.
Proof.
  unfold isMaggot. rewrite bool_decide_eq_false, eq_None_not_Some. reflexivity.
Qed.

(** C1 (as stated, refuted). User 42 is not flagged and the bot may not
    rename anyone: after [markMaggot(member, "worm")] the user is still not
    in the flag set. *)
Lemma markMaggot_denied_leaves_unflagged :
  let member := {| member_id := "42"; nickname := None; displayName := "bob" |} in
  isMaggot "42" initial_world = false
  /\ can_rename denied_env "42" = false
  /\ fst (markMaggot denied_env member "worm" initial_world) = Ok tt
  /\ maggots (exec (markMaggot denied_env member "worm") initial_world) !! "42" = None.
Proof. vm_compute. repeat split; reflexivity. Qed.

(** C1 (amended). When [markMaggot(member, label)] is called for a user who
    is not flagged it returns normally, and it records the flag exactly when
    the rename went through: after a successful [setNickname] the user is in
    the flag set with that label; after a failed one the flag set is as it
    was (the user is still not flagged) and only a warning is logged. *)
Theorem markMaggot_records_when_renamed
    (env : Env) (member : GuildMember) (label : string) (w : World) :
  isMaggot (member_id member) w = false ->
  fst (markMaggot env member label w) = Ok tt
  /\ (can_rename env (member_id member) = true ->
        maggots (exec (markMaggot env member label) w) !! member_id member
        = Some {| name := label; at_ := now env |})
  /\ (can_rename env (member_id member) = false ->
        maggots (exec (markMaggot env member label) w) = maggots w
        /\ maggots (exec (markMaggot env member label) w) !! member_id member = None
        /\ exists msg, trace (exec (markMaggot env member label) w)
                       = trace w ++ [ConsoleWarn msg]).
Proof.
  intros Hf. unfold exec.
  destruct (can_rename env (member_id member)) eqn:Hp.
  - rewrite markMaggot_renamed by assumption. simpl.
    split; [reflexivity|]. split; [|discriminate].
    intros _. apply lookup_insert_eq.
  - rewrite markMaggot_denied by assumption. simpl.
    split; [reflexivity|]. split; [discriminate|].
    intros _. split; [reflexivity|]. split; [now apply isMaggot_false|].
    eexists. reflexivity.
Qed.

Lemma markMaggot_records_when_renamed_witness :
  let member := {| member_id := "42"; nickname := None; displayName := "bob" |} in
  isMaggot "42" initial_world = false
  /\ can_rename calm_env "42" = true
  /\ maggots (exec (markMaggot calm_env member "worm") initial_world) !! "42"
     = Some {| name := "worm"; at_ := 1000 |}.
Proof.
  intros member. split; [reflexivity|]. split; [reflexivity|].
  apply (markMaggot_records_when_renamed calm_env member "worm" initial_world);
    reflexivity.
Defined.

(** ** Frame automation *)

Lemma preserves_renameSync {B} (proj : World -> B) (a b : string) :
  (forall f w, proj (with_fs f w) = proj w) -> preserves proj (renameSync a b).
Proof.
  intros Hp w. unfold renameSync. destruct (fs w !! a); simpl; [apply Hp | reflexivity].
Qed.

Lemma preserves_readFileSync {B} (proj : World -> B) (a : string) :
  preserves proj (readFileSync a).
Proof. intros w. unfold readFileSync. destruct (fs w !! a); reflexivity. Qed.

Lemma preserves_JSON_parse {B Doc} `{Json Doc} (proj : World -> B) (txt : string) :
  preserves proj (JSON_parse txt).
Proof. intros w. unfold JSON_parse. destruct (parse txt); reflexivity. Qed.

(** Decomposes a goal [preserves proj m] along the structure of [m]. *)
Ltac frame_step :=
  lazymatch goal with
  | |- preserves _ (bind _ _) => apply preserves_bind; [|intros ?]
  | |- preserves _ (try_catch _ _) => apply preserves_try_catch; [|intros ?]
  | |- preserves _ (ret _) => apply preserves_ret
  | |- preserves _ (throw _) => apply preserves_throw
  | |- preserves _ (gets _) => apply preserves_gets
  | |- preserves _ (modify _) => apply preserves_modify; intros; reflexivity
  | |- preserves _ (emit _) => unfold emit
  | |- preserves _ (reply _) => unfold reply
  | |- preserves _ (console_warn _) => unfold console_warn
  | |- preserves _ (console_error _) => unfold console_error
  | |- preserves _ (setNickname _ _ _) => unfold setNickname
  | |- preserves _ (fetchMember _ _) => unfold fetchMember
  | |- preserves _ (writeFileSync _ _) => unfold writeFileSync
  | |- preserves _ (existsSync _) => unfold existsSync
  | |- preserves _ (readFileSync _) => apply preserves_readFileSync
  | |- preserves _ (JSON_parse _) => apply preserves_JSON_parse
  | |- preserves _ (renameSync _ _) => apply preserves_renameSync; intros; reflexivity
  | |- preserves _ (writeJsonAtomic _ _) => apply writeJsonAtomic_preserves; intros; reflexivity
  | |- preserves _ (appendToMemory _ _ _) => apply appendToMemory_preserves; intros; reflexivity
  | |- preserves _ (if ?b then _ else _) => destruct b
  | |- preserves _ (match ?x with _ => _ end) => destruct x
  end.

Ltac frame := repeat frame_step.

(** The attachment helpers act on the world only by logging. *)
Lemma fetchImageAsInlineData_preserves {B} (proj : World -> B) net url mime :
  preserves proj (Ingest.fetchImageAsInlineData net url mime).
Proof. unfold Ingest.fetchImageAsInlineData, Ingest.fetch. frame. Qed.

Lemma collectImageParts_preserves {B} (proj : World -> B) net atts :
  preserves proj (Ingest.collectImageParts net atts).
Proof.
  induction atts as [|att more IH]; cbn [Ingest.collectImageParts]; [frame|].
  destruct (Ingest.looksImage att); [|exact IH].
  apply preserves_bind; [apply fetchImageAsInlineData_preserves|]. intros part.
  apply preserves_bind; [exact IH|]. intros parts. frame.
Qed.

Lemma extractDocTextFromAttachment_preserves {B} (proj : World -> B) net att :
  (forall e w, proj (with_effect e w) = proj w) ->
  preserves proj (Ingest.extractDocTextFromAttachment net att).
Proof.
  intros He.
  unfold Ingest.extractDocTextFromAttachment, Ingest.fetchBuffer, Ingest.pdfExtractText,
    Ingest.fetch.
  frame; apply preserves_modify; intros; apply He.
Qed.

Lemma collectDocText_preserves {B} (proj : World -> B) net atts :
  (forall e w, proj (with_effect e w) = proj w) ->
  preserves proj (Ingest.collectDocText net atts).
Proof.
  intros He. unfold Ingest.collectDocText.
  apply preserves_bind; [|intros; frame].
  induction atts as [|att more IH]; cbn [Ingest.collectDocChunks]; [frame|].
  apply preserves_bind; [now apply extractDocTextFromAttachment_preserves|]. intros t.
  apply preserves_bind; [exact IH|]. intros chunks. frame.
Qed.

Section HandlerFrames.
Context `{Config}.
Context `{Json (gmap string (list MemoryTurn))} `{Json (gmap string string)}.

Lemma respondWithIntel_preserves {B} (proj : World -> B) env message promptText channelId :
  (forall e w, proj (with_effect e w) = proj w) ->
  preserves proj (respondWithIntel env message promptText channelId).
Proof.
  intros He. unfold respondWithIntel, generateContent, responseText.
  frame; apply preserves_modify; intros; apply He.
Qed.

Lemma reapplyOnMessage_preserves {B} (proj : World -> B) env message :
  (forall e w, proj (with_effect e w) = proj w) ->
  preserves proj (reapplyOnMessage env message).
Proof.
  intros He. unfold reapplyOnMessage.
  frame; apply preserves_modify; intros; apply He.
Qed.

Lemma onGuildMemberUpdate_preserves {B} (proj : World -> B) env newMember :
  (forall e w, proj (with_effect e w) = proj w) ->
  preserves proj (onGuildMemberUpdate env newMember).
Proof.
  intros He. unfold onGuildMemberUpdate.
  frame; apply preserves_modify; intros; apply He.
Qed.

End HandlerFrames.

Ltac frame_more :=
  repeat first
    [ frame_step
    | apply collectImageParts_preserves
    | apply collectDocText_preserves; intros; reflexivity
    | apply respondWithIntel_preserves; intros; reflexivity
    | apply reapplyOnMessage_preserves; intros; reflexivity
    | apply onGuildMemberUpdate_preserves; intros; reflexivity ].

(** ** How handlers change the flag map *)

Lemma flag_steps_preserves {A} (m : M A) : preserves maggots m -> flag_steps m.
Proof. intros Hm w. apply flag_same, Hm. Qed.

Lemma flag_steps_bind_l {A C} (m : M A) (k : A -> M C) :
  flag_steps m -> (forall a, preserves maggots (k a)) -> flag_steps (bind m k).
Proof.
  intros Hm Hk w. unfold bind. specialize (Hm w).
  destruct (m w) as [[a|e] w']; simpl in *; [rewrite Hk|]; exact Hm.
Qed.

Lemma flag_steps_bind_r {A C} (m : M A) (k : A -> M C) :
  preserves maggots m -> (forall a, flag_steps (k a)) -> flag_steps (bind m k).
Proof.
  intros Hm Hk w. unfold bind. specialize (Hm w).
  destruct (m w) as [[a|e] w']; simpl in *.
  - rewrite <- Hm. apply Hk.
  - apply flag_same, Hm.
Qed.

Lemma flag_steps_try_l {A} (m : M A) (h : string -> M A) :
  flag_steps m -> (forall e, preserves maggots (h e)) -> flag_steps (try_catch m h).
Proof.
  intros Hm Hh w. unfold try_catch. specialize (Hm w).
  destruct (m w) as [[a|e] w']; simpl in *; [|rewrite Hh]; exact Hm.
Qed.

Lemma markMaggot_flag_steps env member label : flag_steps (markMaggot env member label).
Proof.
  intros w. destruct (isMaggot (member_id member) w) eqn:Hf.
  - rewrite markMaggot_flagged by assumption. now apply flag_same.
  - destruct (can_rename env (member_id member)) eqn:Hp.
    + rewrite markMaggot_renamed by assumption. simpl.
      apply (flag_added _ _ (member_id member) {| name := label; at_ := now env |});
        [apply isMaggot_false, Hf | reflexivity].
    + rewrite markMaggot_denied by assumption. now apply flag_same.
Qed.

Lemma unmarkMaggot_flag_steps id : flag_steps (unmarkMaggot id).
Proof. intros w. now apply (flag_removed _ _ id). Qed.

Section FlagSteps.
Context `{Config}.
Context `{Json (gmap string (list MemoryTurn))} `{Json (gmap string string)}.

Lemma cmd_amnesty_flag_steps env message rest : flag_steps (cmd_amnesty env message rest).
Proof.
  unfold cmd_amnesty.
  destruct (negb (isCreator message)); [apply flag_steps_preserves; frame|].
  destruct rest as [|mention rest]; [apply flag_steps_preserves; frame|].
  destruct (Js.matchMention mention) as [userId|]; [|apply flag_steps_preserves; frame].
  apply flag_steps_bind_r; [frame|]. intros flagged.
  destruct (negb flagged); [apply flag_steps_preserves; frame|].
  apply flag_steps_bind_r; [frame|]. intros _.
  apply flag_steps_bind_l; [apply unmarkMaggot_flag_steps|]. intros _. frame.
Qed.

Lemma handleCommand_flag_steps env message raw : flag_steps (handleCommand env message raw).
Proof.
  unfold handleCommand.
  repeat match goal with
         | |- flag_steps (if ?b then _ else _) => destruct b
         end;
    try apply cmd_amnesty_flag_steps;
    apply flag_steps_preserves;
    unfold cmd_loadlog, cmd_alias, cmd_unalias, cmd_nick, cmd_createchannel, cmd_parse,
           setManualLog, saveAliases, createChannel;
    frame_more.
Qed.

Lemma assignNickname_flag_steps env message raw : flag_steps (assignNickname env message raw).
Proof.
  unfold assignNickname. apply flag_steps_try_l; [|intros e; frame].
  destruct (guild message); [|apply flag_steps_preserves; frame].
  destruct (member message) as [mem|]; [|apply flag_steps_preserves; frame].
  apply flag_steps_bind_r; [frame|]. intros already.
  destruct (shouldDegrade _ _ _ _); [|apply flag_steps_preserves; frame].
  apply flag_steps_bind_l; [apply markMaggot_flag_steps|]. intros _. frame.
Qed.

(** What follows the trigger block in the message handler leaves the flag
    map alone. *)
Lemma after_assignNickname_preserves env message (returned : bool) :
  preserves maggots
    (if returned then ret tt
     else
       reapplyOnMessage env message ;;
       respond <- gets (shouldRespond env message) ;;
       if negb respond then ret tt
       else
         let chanId := channel_id message in
         let userId := author_id message in
         alias <- gets (fun w => aliasMap w !! userId) ;;
         let callsign :=
           Js.opt_or_else alias
             (Js.opt_or_else (displayName <$> member message) (author_username message)) in
         appendToMemory chanId callsign (Js.trim (content message)) ;;
         let prompt := "From " +:+ callsign +:+ ": " +:+ Js.trim (content message) in
         answer <- respondWithIntel env message prompt chanId ;;
         if Js.truthy answer
         then
           appendToMemory chanId "Maj. Pickletooth" answer ;;
           modify (with_lastResponse (fun m => <[chanId := now_replied env]> m)) ;;
           reply answer
         else ret tt).
Proof. cbv zeta. frame_more. Qed.

Lemma onMessageCreate_flag_steps env message : flag_steps (onMessageCreate env message).
Proof.
  unfold onMessageCreate.
  destruct (author_bot message); [apply flag_steps_preserves; frame|].
  destruct (Js.startsWith "!" _); [apply handleCommand_flag_steps|].
  apply flag_steps_bind_l; [apply assignNickname_flag_steps|].
  intros returned. apply after_assignNickname_preserves.
Qed.

Lemma handle_flag_steps env ev : flag_steps (handle env ev).
Proof.
  destruct ev as [message|newMember]; simpl.
  - apply onMessageCreate_flag_steps.
  - apply flag_steps_preserves, onGuildMemberUpdate_preserves. reflexivity.
Qed.

(** One event keeps the label of a flagged user, or unflags the user. *)
Lemma handle_keeps_label env ev (w : World) (u : string) (e : MaggotEntry) :
  maggots w !! u = Some e ->
  maggots (exec (handle env ev) w) !! u = Some e
  \/ maggots (exec (handle env ev) w) !! u = None.
Proof.
  intros Hu. unfold exec.
  destruct (handle_flag_steps env ev w) as [-> | id e' Hid -> | id ->].
  - now left.
  - left. rewrite lookup_insert_ne; [exact Hu | congruence].
  - destruct (decide (id = u)) as [->|Hne].
    + right. apply lookup_delete_eq.
    + left. now rewrite lookup_delete_ne.
Qed.

Lemma run_app (evs1 evs2 : list (Env * Event)) (w : World) :
  run (evs1 ++ evs2) w = run evs2 (run evs1 w).
Proof.
  revert w. induction evs1 as [|[env ev] evs1 IH]; intros w; simpl; [reflexivity | apply IH].
Qed.

End FlagSteps.

(** Handled one after the other, no event replaces the label of a flagged
    user: one event leaves a flagged user with the very same entry or
    unflags the user, so over a sequence of events a user's entry can
    differ from an earlier one only if the user was unflagged in between;
    and [markMaggot] on a flagged user changes nothing. *)
Lemma sequential_events_keep_labels
    `{Config} `{Json (gmap string (list MemoryTurn))} `{Json (gmap string string)} :
  (forall env ev w u e,
        maggots w !! u = Some e ->
        maggots (exec (handle env ev) w) !! u = Some e
        \/ maggots (exec (handle env ev) w) !! u = None)
  /\ (forall evs w u e e',
        maggots w !! u = Some e ->
        maggots (run evs w) !! u = Some e' ->
        e' = e
        \/ exists evs1 evs2, evs = evs1 ++ evs2 /\ maggots (run evs1 w) !! u = None)
  /\ (forall env member label w,
        isMaggot (member_id member) w = true ->
        markMaggot env member label w = (Ok tt, w)).
Proof.
  split; [intros env ev w u e; apply handle_keeps_label|].
  split; [|intros env member label w; apply markMaggot_flagged].
  induction evs as [|[env ev] evs IH]; intros w u e e' Hu Hrun; simpl in Hrun.
  - left. congruence.
  - destruct (handle_keeps_label env ev w u e Hu) as [Hkeep|Hgone].
    + destruct (IH _ u e e' Hkeep Hrun) as [->|(evs1 & evs2 & -> & Hnone)]; [now left|].
      right. exists ((env, ev) :: evs1), evs2. split; [reflexivity | exact Hnone].
    + right. exists [(env, ev)], evs. split; [reflexivity | exact Hgone].
Qed.

(** ** Handlers that overlap *)

Lemma complete_sync {A} (m : M A) : same (complete (sync m)) m.
Proof.
  intros w. unfold complete, sync, bind, ret. destruct (m w) as [[a|e] w']; reflexivity.
Qed.

Lemma complete_await {A} (m : M A) : same (complete (await m)) m.
Proof.
  intros w. unfold complete, await, sync, bind, ret. simpl.
  destruct (m w) as [[a|e] w']; reflexivity.
Qed.

Lemma same_refl {A} (m : M A) : same m m.
Proof. now intros w. Qed.

Lemma same_trans {A} (m1 m2 m3 : M A) : same m1 m2 -> same m2 m3 -> same m1 m3.
Proof. intros H12 H23 w. now rewrite H12. Qed.

Lemma same_bind {A B} (m m' : M A) (k k' : A -> M B) :
  same m m' -> (forall a, same (k a) (k' a)) -> same (bind m k) (bind m' k').
Proof.
  intros Hm Hk w. unfold bind. rewrite Hm. destruct (m' w) as [[a|e] w']; [apply Hk | reflexivity].
Qed.

Lemma same_try_catch {A} (m m' : M A) (h h' : string -> M A) :
  same m m' -> (forall e, same (h e) (h' e)) -> same (try_catch m h) (try_catch m' h').
Proof.
  intros Hm Hh w. unfold try_catch. rewrite Hm.
  destruct (m' w) as [[a|e] w']; [reflexivity | apply Hh].
Qed.

Lemma completeStep_bindStep {A B} (s : Step A) (k : A -> Async B) :
  same (complete (bindStep s k)) (bind (completeStep s) (fun a => complete (k a))).
Proof.
  induction s as [a|resume IH] using Step_induction; intros w.
  - reflexivity.
  - specialize (IH w). unfold complete, bind in *. simpl.
    destruct (resume w) as [[s'|e] w']; simpl in *; [apply IH | reflexivity].
Qed.

Lemma complete_bindA {A B} (m : Async A) (k : A -> Async B) :
  same (complete (bindA m k)) (bind (complete m) (fun a => complete (k a))).
Proof.
  intros w. unfold complete at 1 2, bindA. unfold bind at 1 2 3 4.
  destruct (m w) as [[s|e] w']; [|reflexivity].
  apply (completeStep_bindStep s k w').
Qed.

Lemma completeStep_tryStep {A} (s : Step A) (h : string -> Async A) :
  same (completeStep (tryStep s h)) (try_catch (completeStep s) (fun e => complete (h e))).
Proof.
  induction s as [a|resume IH] using Step_induction; intros w.
  - reflexivity.
  - specialize (IH w). unfold try_catch in *. simpl.
    destruct (resume w) as [[s'|e] w']; simpl in *; [apply IH | reflexivity].
Qed.

Lemma complete_tryA {A} (m : Async A) (h : string -> Async A) :
  same (complete (tryA m h)) (try_catch (complete m) (fun e => complete (h e))).
Proof.
  intros w. unfold complete at 1 2, tryA, try_catch. unfold bind at 1 2.
  destruct (m w) as [[s|e] w']; [|reflexivity].
  apply (completeStep_tryStep s h w').
Qed.

(** Decomposes a goal [same (complete a) m] along the structure that the
    asynchronous function [a] and the computation [m] share. *)
Ltac async_step :=
  lazymatch goal with
  | |- same (complete (bindA _ _)) _ =>
      eapply same_trans; [apply complete_bindA | apply same_bind; [|intros ?]]
  | |- same (complete (tryA _ _)) _ =>
      eapply same_trans; [apply complete_tryA | apply same_try_catch; [|intros ?]]
  | |- same (complete (sync _)) _ => apply complete_sync
  | |- same (complete (await _)) _ => apply complete_await
  | |- same (complete (if ?b then _ else _)) _ => destruct b
  | |- same (complete (match ?x with _ => _ end)) _ => destruct x
  end.

Section Completed.
Context `{Config}.
Context `{Json (gmap string (list MemoryTurn))} `{Json (gmap string string)}.

(** With every awaited call settling at once, the asynchronous functions
    are the computations of the sequential model. *)
Lemma markMaggotA_complete env member label :
  same (complete (markMaggotA env member label)) (markMaggot env member label).
Proof. unfold markMaggotA, markMaggot. repeat async_step. Qed.

Lemma respondWithIntelA_complete env message promptText channelId :
  same (complete (respondWithIntelA env message promptText channelId))
       (respondWithIntel env message promptText channelId).
Proof. unfold respondWithIntelA, respondWithIntel. cbv zeta. repeat async_step. Qed.

Lemma assignNicknameA_complete env message raw :
  same (complete (assignNicknameA env message raw)) (assignNickname env message raw).
Proof.
  unfold assignNicknameA, assignNickname. cbv zeta.
  repeat first [async_step | apply markMaggotA_complete].
Qed.

Lemma reapplyOnMessageA_complete env message :
  same (complete (reapplyOnMessageA env message)) (reapplyOnMessage env message).
Proof. unfold reapplyOnMessageA, reapplyOnMessage. repeat async_step. Qed.

Lemma onMessageCreateA_complete env message :
  same (complete (onMessageCreateA env message)) (onMessageCreate env message).
Proof.
  unfold onMessageCreateA, onMessageCreate. cbv zeta.
  repeat first
    [ async_step
    | apply assignNicknameA_complete
    | apply reapplyOnMessageA_complete
    | apply respondWithIntelA_complete ].
Qed.

Lemma onGuildMemberUpdateA_complete env newMember :
  same (complete (onGuildMemberUpdateA env newMember)) (onGuildMemberUpdate env newMember).
Proof. unfold onGuildMemberUpdateA, onGuildMemberUpdate. cbv zeta. repeat async_step. Qed.

Lemma handleA_complete env ev : same (complete (handleA env ev)) (handle env ev).
Proof.
  destruct ev as [message|newMember]; simpl;
    [apply onMessageCreateA_complete | apply onGuildMemberUpdateA_complete].
Qed.

End Completed.

Section Schedules.
Context `{Config}.
Context `{Json (gmap string (list MemoryTurn))} `{Json (gmap string string)}.

Lemma schedule_app (ticks1 ticks2 : list Tick) (l : Loop) :
  schedule (ticks1 ++ ticks2) l = schedule ticks2 (schedule ticks1 l).
Proof. unfold schedule. apply foldl_app. Qed.

(** A suspended handler alone in the loop gets to its end as its awaited
    calls settle one by one, and leaves the world of its completion. *)
Lemma settles_to_completion (s : Step unit) (w : World) :
  exists n,
    schedule (repeat (Settles 0) n)
      (match s with
       | Done _ => idle w
       | Await resume => {| current := w; suspended := [resume] |}
       end)
    = idle (exec (completeStep s) w).
Proof.
  revert w. induction s as [[]|resume IH] using Step_induction; intros w.
  - exists 0%nat. reflexivity.
  - specialize (IH w). unfold exec in *. cbn [completeStep].
    destruct (resume w) as [[s'|e] w'] eqn:Hres; cbn [fst snd] in *.
    + destruct (IH w') as [n Hn]. exists (S n).
      cbn [repeat]. unfold schedule in *. cbn [foldl]. rewrite <- Hn.
      f_equal. unfold tick, advance. simpl. rewrite Hres.
      now destruct s' as [[]|resume'].
    + exists 1%nat. unfold schedule, tick, advance. simpl. now rewrite Hres.
Qed.

(** An event whose handler is through before anything else happens. *)
Lemma arrival_settled env ev (w : World) :
  exists n,
    schedule (Arrives env ev :: repeat (Settles 0) n) (idle w)
    = idle (exec (handle env ev) w).
Proof.
  unfold exec. rewrite <- (handleA_complete env ev w). unfold complete, bind.
  destruct (handleA env ev w) as [[s|e] w'] eqn:Hrun.
  - destruct (settles_to_completion s w') as [n Hn]. exists n.
    etransitivity; [|exact Hn]. unfold schedule. cbn [foldl].
    f_equal. unfold tick, advance, idle. cbn [current suspended]. rewrite Hrun.
    now destruct s as [[]|resume].
  - exists 0%nat. unfold schedule, tick, advance, idle. cbn [repeat foldl current suspended].
    now rewrite Hrun.
Qed.

(** The sequential model is one of the schedules: the one in which every
    handler is through before the next event is delivered. *)
Lemma run_is_a_schedule (evs : list (Env * Event)) (w : World) :
  exists ticks, schedule ticks (idle w) = idle (run evs w).
Proof.
  revert w. induction evs as [|[env ev] evs IH]; intros w.
  - exists []. reflexivity.
  - destruct (arrival_settled env ev w) as [n Hn].
    destruct (IH (exec (handle env ev) w)) as [ticks Hticks].
    exists ((Arrives env ev :: repeat (Settles 0) n) ++ ticks).
    rewrite schedule_app, Hn. exact Hticks.
Qed.

End Schedules.

(** C4. User 42, not flagged, sends two messages with a trigger phrase,
    and the second is delivered while the rename for the first is still
    awaited.  Both handlers pass the check of [markMaggot] and wait for
    their rename.  When the first rename has settled the user is flagged
    with the label [worm]; when the second has settled that stored label
    is replaced by [slug].  Delivered one after the other, the second
    message leaves the label [worm] in place.  Either way the flag map
    holds one entry for the user. *)
Theorem overlapping_triggers_replace_label :
  let first := MessageCreate (message_of_42 None "you are useless") in
  let second := MessageCreate (message_of_42 None "worthless, all of it") in
  let at_once :=
    [Arrives (naming_env (1 # 5) 1000) first; Arrives (naming_env (3 # 4) 1200) second] in
  let loop ticks :=
    @schedule default_config JsonText.memory_json JsonText.alias_json ticks
      (idle initial_world) in
  maggots (current (loop at_once)) !! "42" = None
  /\ length (suspended (loop at_once)) = 2%nat
  /\ maggots (current (loop (at_once ++ [Settles 0]))) !! "42"
     = Some {| name := "worm"; at_ := 1000 |}
  /\ maggots (current (loop (at_once ++ [Settles 0; Settles 0]))) !! "42"
     = Some {| name := "slug"; at_ := 1200 |}
  /\ trace (current (loop (at_once ++ [Settles 0; Settles 0])))
     = [SetNickname "42" (Some "worm"); SetNickname "42" (Some "slug")]
  /\ maggots (@run default_config JsonText.memory_json JsonText.alias_json
                [(naming_env (1 # 5) 1000, first); (naming_env (3 # 4) 1200, second)]
                initial_world) !! "42"
     = Some {| name := "worm"; at_ := 1000 |}.
Proof. vm_compute. repeat split; reflexivity. Qed.

(** C2. User 42 is flagged with the label [worm].  When that user sends a
    message under the nickname [bob], the message handler renames the user to
    the fixed string [maggot], not to the stored label; it does so even when
    the nickname already is the stored label.  The rename notification
    handler, on the same state and the same nickname [bob], re-applies the
    stored label [worm]. *)
Theorem reapply_on_message_ignores_label :
  name <$> maggots worm_world !! "42" = Some "worm"
  /\ trace (exec (@onMessageCreate default_config JsonText.memory_json JsonText.alias_json
                    calm_env (message_of_42 (Some "bob") "hello there")) worm_world)
     = [SetNickname "42" (Some "maggot")]
  /\ trace (exec (@onMessageCreate default_config JsonText.memory_json JsonText.alias_json
                    calm_env (message_of_42 (Some "worm") "hello there")) worm_world)
     = [SetNickname "42" (Some "maggot")]
  /\ trace (exec (onGuildMemberUpdate calm_env
                    {| member_id := "42"; nickname := Some "bob"; displayName := "bob" |})
                 worm_world)
     = [SetNickname "42" (Some "worm")].
Proof. vm_compute. repeat split; reflexivity. Qed.

(** ** Amnesty *)

Section Amnesty.
Context `{Config}.
Context `{Json (gmap string (list MemoryTurn))} `{Json (gmap string string)}.

(** A command line whose first word is [amnesty] or [forgive] is handled by
    the amnesty branch. *)
Lemma handleCommand_amnesty env message raw cmd rest :
  Js.splitWs (Js.trim raw) = cmd :: rest ->
  Js.toLowerCase cmd = "amnesty" \/ Js.toLowerCase cmd = "forgive" ->
  handleCommand env message raw = cmd_amnesty env message rest.
Proof.
  intros Hsplit Hcmd. unfold handleCommand. rewrite Hsplit. simpl hd. simpl tail.
  destruct Hcmd as [-> | ->]; reflexivity.
Qed.

Lemma cmd_amnesty_unflagged env message mention more u (w : World) :
  isCreator message = true ->
  Js.matchMention mention = Some u ->
  isMaggot u w = false ->
  cmd_amnesty env message (mention :: more) w =
    (Ok tt, with_effect (Reply "That user is not currently marked as a maggot.") w).
Proof.
  intros Hc Hm Hf. unfold cmd_amnesty, bind, gets. rewrite Hc, Hm. simpl.
  rewrite Hf. reflexivity.
Qed.

Lemma cmd_amnesty_flagged env message mention more u (w : World) :
  isCreator message = true ->
  Js.matchMention mention = Some u ->
  isMaggot u w = true ->
  fst (cmd_amnesty env message (mention :: more) w) = Ok tt
  /\ maggots (exec (cmd_amnesty env message (mention :: more)) w) = delete u (maggots w).
Proof.
  intros Hc Hm Hf.
  unfold exec, cmd_amnesty, bind, gets, try_catch, fetchMember, setNickname, unmarkMaggot.
  rewrite Hc, Hm. simpl. rewrite Hf. simpl.
  destruct (guild message); [|split; reflexivity].
  destruct (can_fetch env u); simpl; [|split; reflexivity].
  destruct (can_rename env u); simpl; split; reflexivity.
Qed.

End Amnesty.

(** C5. Let the privileged operator issue [!amnesty] (or [!forgive]) with a
    mention of user [u].  If [u] is flagged, the command returns normally
    and [u] is no longer in the flag set, whether or not the member could be
    fetched and the nickname reset.  If [u] is not flagged, the command
    returns normally, its only effect is the reply saying that the user is
    not marked, and every component of the state is as before. *)
Theorem amnesty_clears_flag `{Config} `{Json (gmap string string)}
    (env : Env) (message : Message) (raw cmd mention u : string) (more : list string)
    (w : World) :
  Js.splitWs (Js.trim raw) = cmd :: mention :: more ->
  Js.toLowerCase cmd = "amnesty" \/ Js.toLowerCase cmd = "forgive" ->
  Js.matchMention mention = Some u ->
  isCreator message = true ->
  (isMaggot u w = true ->
     fst (handleCommand env message raw w) = Ok tt
     /\ maggots (exec (handleCommand env message raw) w) !! u = None
     /\ forall u', u' <> u ->
          maggots (exec (handleCommand env message raw) w) !! u' = maggots w !! u')
  /\ (isMaggot u w = false ->
        handleCommand env message raw w =
          (Ok tt, with_effect (Reply "That user is not currently marked as a maggot.") w)).
Proof.
  intros Hsplit Hcmd Hm Hc.
  rewrite (handleCommand_amnesty env message raw cmd (mention :: more) Hsplit Hcmd).
  split; intros Hf.
  - destruct (cmd_amnesty_flagged env message mention more u w Hc Hm Hf) as [Hok Hdel].
    split; [exact Hok|]. rewrite Hdel. split; [apply lookup_delete_eq|].
    intros u' Hne. now apply lookup_delete_ne.
  - now apply (cmd_amnesty_unflagged env message mention more u w).
Qed.

Lemma amnesty_clears_flag_witness :
  let message :=
    {| author_id := "7"; author_bot := false; author_username := "boss";
       content := "!amnesty <@42>"; guild := true; member := None; channel_id := "100"; attachments := [] |} in
  Js.splitWs (Js.trim "amnesty <@42>") = ["amnesty"; "<@42>"]
  /\ Js.matchMention "<@42>" = Some "42"
  /\ @isCreator creator7_config message = true
  /\ isMaggot "42" worm_world = true
  /\ maggots (exec (@handleCommand creator7_config JsonText.alias_json
                      denied_env message "amnesty <@42>") worm_world) !! "42" = None.
Proof.
  intros message. repeat (split; [reflexivity|]).
  apply (@amnesty_clears_flag creator7_config JsonText.alias_json
           denied_env message "amnesty <@42>" "amnesty" "<@42>" "42" [] worm_world);
    auto.
Defined.

(** ** Trigger classification *)

Section Triggers.
Context `{Config}.
Context `{Json (gmap string (list MemoryTurn))} `{Json (gmap string string)}.

(** For an unflagged author an explicit match decides, whatever the draw. *)
Lemma shouldDegrade_explicit raw d : shouldDegrade false true raw d = true.
Proof. reflexivity. Qed.

(** Without an explicit match only the random path can fire, and it needs
    the draw below the chance and more than ten characters. *)
Lemma shouldDegrade_random raw d :
  shouldDegrade false false raw d = true ->
  Js.lt d RANDOM_DEGRADE_CHANCE = true /\ (10 < String.length raw)%nat.
Proof.
  unfold shouldDegrade. simpl.
  destruct (Js.lt d RANDOM_DEGRADE_CHANCE); [|discriminate].
  destruct (10 <? String.length raw)%nat eqn:Hlen; simpl; [|discriminate].
  intros _. split; [reflexivity|]. now apply Nat.ltb_lt.
Qed.

Lemma shouldDegrade_flagged explicit raw d : shouldDegrade true explicit raw d = false.
Proof. reflexivity. Qed.

(** When nothing is to be assigned the trigger block does nothing. *)
Lemma assignNickname_idle env message raw (w : World) :
  shouldDegrade (isMaggot (author_id message) w)
    (existsb (fun t => Js.includes t (Js.toLowerCase raw)) MAGGOT_TRIGGERS)
    raw (random_degrade env) = false ->
  assignNickname env message raw w = (Ok false, w).
Proof.
  intros Hd. unfold assignNickname, try_catch, bind, gets.
  destruct (guild message); [|reflexivity].
  destruct (member message); [|reflexivity].
  now rewrite Hd.
Qed.

(** With an explicit match by an unflagged author the handler does not
    depend on the draw of the random path. *)
Lemma onMessageCreate_explicit_ignores_draw env message (w : World) d :
  author_bot message = false ->
  Js.startsWith "!" (Js.trim (content message)) = false ->
  isMaggot (author_id message) w = false ->
  existsb (fun t => Js.includes t (Js.toLowerCase (Js.trim (content message))))
    MAGGOT_TRIGGERS = true ->
  onMessageCreate (with_random_degrade d env) message w = onMessageCreate env message w.
Proof.
  intros Hbot Hcmd Hf Hex. unfold onMessageCreate. rewrite Hbot, Hcmd.
  unfold bind at 1 3. unfold assignNickname, try_catch, bind, gets.
  destruct (guild message); [|reflexivity].
  destruct (member message); [|reflexivity].
  rewrite Hf, Hex, !shouldDegrade_explicit. reflexivity.
Qed.

End Triggers.

(** C6. Take a message that is not a command, from an author who is not a
    bot and not flagged, and let [explicit] be the case-insensitive substring
    match of its text against the trigger phrases.  If [explicit] holds, the
    assignment is decided by it alone: the handler behaves the same for every
    draw of the random path.  If it does not hold, the trigger block can do
    anything (assign, reply, return early), and the flag map can change, only
    when the draw is below RANDOM_DEGRADE_CHANCE and the text is longer than
    ten characters. *)
Theorem explicit_trigger_precedes_random
    `{Config} `{Json (gmap string (list MemoryTurn))} `{Json (gmap string string)}
    (env : Env) (message : Message) (w : World) :
  let raw := Js.trim (content message) in
  let explicit := existsb (fun t => Js.includes t (Js.toLowerCase raw)) MAGGOT_TRIGGERS in
  author_bot message = false ->
  Js.startsWith "!" raw = false ->
  isMaggot (author_id message) w = false ->
  (explicit = true ->
     forall d, shouldDegrade false explicit raw d = true
               /\ onMessageCreate (with_random_degrade d env) message w
                  = onMessageCreate env message w)
  /\ (explicit = false ->
        assignNickname env message raw w <> (Ok false, w)
        \/ maggots (exec (onMessageCreate env message) w) <> maggots w ->
        shouldDegrade false explicit raw (random_degrade env) = true
        /\ Js.lt (random_degrade env) RANDOM_DEGRADE_CHANCE = true
        /\ (10 < String.length raw)%nat).
Proof.
  intros raw explicit Hbot Hcmd Hf. split.
  - intros Hex d. split; [now rewrite Hex|].
    now apply onMessageCreate_explicit_ignores_draw.
  - intros Hex Hchanged.
    destruct (shouldDegrade false explicit raw (random_degrade env)) eqn:Hd.
    + split; [reflexivity|]. rewrite Hex in Hd. now apply shouldDegrade_random.
    + exfalso.
      assert (Hidle : assignNickname env message raw w = (Ok false, w))
        by (apply assignNickname_idle; rewrite Hf; exact Hd).
      destruct Hchanged as [Hblock|Hflags]; [now apply Hblock|].
      apply Hflags. unfold exec, onMessageCreate.
      rewrite Hbot. fold raw. rewrite Hcmd. unfold bind at 1. rewrite Hidle.
      exact (after_assignNickname_preserves env message false w).
Qed.

Lemma explicit_trigger_precedes_random_witness :
  let message := message_of_42 None "please STFU now" in
  author_bot message = false
  /\ Js.startsWith "!" (Js.trim (content message)) = false
  /\ isMaggot "42" initial_world = false
  /\ existsb (fun t => Js.includes t (Js.toLowerCase (Js.trim (content message))))
       MAGGOT_TRIGGERS = true
  /\ @onMessageCreate default_config JsonText.memory_json JsonText.alias_json
       (with_random_degrade (99 # 100) calm_env) message initial_world
     = @onMessageCreate default_config JsonText.memory_json JsonText.alias_json
         calm_env message initial_world.
Proof.
  intros message. repeat (split; [reflexivity|]).
  apply (@explicit_trigger_precedes_random
           default_config JsonText.memory_json JsonText.alias_json
           calm_env message initial_world); reflexivity.
Defined.

(** ** Response gate *)

Lemma lowerChar_question (c : ascii) :
  Ascii.eqb "?" (Js.lowerChar c) = Ascii.eqb "?" c.
Proof. destruct c as [[] [] [] [] [] [] [] []]; reflexivity. Qed.

(** Lower-casing neither adds nor removes a question mark. *)
Lemma includes_question_toLowerCase (s : string) :
  Js.includes "?" (Js.toLowerCase s) = Js.includes "?" s.
Proof.
  induction s as [|c s IH]; [reflexivity|].
  cbn [Js.toLowerCase Js.includes Js.startsWith].
  now rewrite lowerChar_question, IH.
Qed.

(** C7 (as stated, refuted). A bot's message that contains a question mark:
    the gate answers false, because the author check comes first. *)
Lemma shouldRespond_bot_question :
  let message :=
    {| author_id := "5"; author_bot := true; author_username := "otherbot";
       content := "ready?"; guild := true; member := None; channel_id := "100"; attachments := [] |} in
  Js.includes "?" (content message) = true
  /\ @shouldRespond default_config calm_env message initial_world = false.
Proof. vm_compute. split; reflexivity. Qed.

(** C7 (amended). The gate returns false for every message whose author is a
    bot, whatever its content, and it returns true for every message of a
    non-bot author whose text contains a question mark, whatever its length,
    its keywords, the random draw and the time of the last response. *)
Theorem shouldRespond_bot_then_question `{Config}
    (env : Env) (message : Message) (w : World) :
  (author_bot message = true -> shouldRespond env message w = false)
  /\ (author_bot message = false ->
        Js.includes "?" (content message) = true ->
        shouldRespond env message w = true).
Proof.
  unfold shouldRespond. split.
  - intros ->. reflexivity.
  - intros -> Hq. rewrite includes_question_toLowerCase, Hq.
    now destruct (existsb _ keywords).
Qed.

Lemma shouldRespond_bot_then_question_witness :
  let message :=
    {| author_id := "42"; author_bot := false; author_username := "bob";
       content := "ok?"; guild := true; member := None; channel_id := "100"; attachments := [] |} in
  author_bot message = false
  /\ Js.includes "?" (content message) = true
  /\ @shouldRespond default_config calm_env message initial_world = true.
Proof.
  intros message. repeat (split; [reflexivity|]).
  apply (@shouldRespond_bot_then_question default_config calm_env message initial_world);
    reflexivity.
Defined.

(** ** Generation fallback *)

Section Intel.
Context `{Config}.
Context `{Json (gmap string (list MemoryTurn))} `{Json (gmap string string)}.

Lemma truthy_nonempty (s : string) : Js.truthy s = true -> s <> "".
Proof. destruct s; [discriminate | discriminate]. Qed.

Lemma respondWithIntel_answer env message promptText channelId (w : World) :
  fst (respondWithIntel env message promptText channelId w)
  = Ok (expected_answer (generation env)).
Proof.
  unfold respondWithIntel, try_catch, bind, gets, generateContent, responseText,
    emit, modify, console_error.
  simpl. destruct (generation env) as [err|[|err|out]]; simpl; try reflexivity.
  unfold Js.or_else at 2. destruct (Js.truthy out) eqn:Hout.
  - reflexivity.
  - destruct out; [reflexivity | discriminate].
Qed.

Lemma expected_answer_nonempty g : expected_answer g <> "".
Proof.
  destruct g as [err|[|err|out]]; simpl; try discriminate.
  destruct (Js.truthy (Js.trim out)) eqn:Ht; [now apply truthy_nonempty | discriminate].
Qed.

Lemma respondWithIntel_returns env message promptText channelId :
  returns (respondWithIntel env message promptText channelId).
Proof. intros w. eexists. apply respondWithIntel_answer. Qed.

End Intel.

Ltac returns_step :=
  lazymatch goal with
  | |- returns (bind _ _) => apply returns_bind; [|intros ?]
  | |- returns (try_catch _ _) => apply returns_try_catch; intros ?
  | |- returns (ret _) => apply returns_ret
  | |- returns (gets _) => apply returns_gets
  | |- returns (modify _) => apply returns_modify
  | |- returns (emit _) => unfold emit
  | |- returns (reply _) => unfold reply
  | |- returns (console_warn _) => unfold console_warn
  | |- returns (appendToMemory _ _ _) => apply appendToMemory_returns
  | |- returns (respondWithIntel _ _ _ _) => apply respondWithIntel_returns
  | |- returns (if ?b then _ else _) => destruct b
  | |- returns (match ?x with _ => _ end) => destruct x
  end.

Lemma extractDoc_returns (net : Ingest.Net) (att : Ingest.Attachment) :
  returns (Ingest.extractDocTextFromAttachment net att).
Proof. unfold Ingest.extractDocTextFromAttachment. repeat returns_step. Qed.

Lemma collectDocChunks_returns (net : Ingest.Net) (atts : list Ingest.Attachment) :
  returns (Ingest.collectDocChunks net atts).
Proof.
  induction atts as [|att atts IH]; simpl; [apply returns_ret|].
  apply returns_bind; [apply extractDoc_returns|]. intros t.
  apply returns_bind; [exact IH|]. intros chunks. apply returns_ret.
Qed.

Lemma collectDocText_returns (net : Ingest.Net) (atts : list Ingest.Attachment) :
  returns (Ingest.collectDocText net atts).
Proof.
  unfold Ingest.collectDocText.
  apply returns_bind; [apply collectDocChunks_returns | intros; apply returns_ret].
Qed.

Section MessageHandling.
Context `{Config}.
Context `{Json (gmap string (list MemoryTurn))} `{Json (gmap string string)}.

Lemma markMaggot_returns env member label : returns (markMaggot env member label).
Proof. unfold markMaggot. repeat returns_step. Qed.

(** A message that is not a command is handled to the end, whatever the
    platform and the backend do. *)
Lemma onMessageCreate_returns env message :
  Js.startsWith "!" (Js.trim (content message)) = false ->
  returns (onMessageCreate env message).
Proof.
  intros Hcmd. unfold onMessageCreate, assignNickname, reapplyOnMessage. rewrite Hcmd.
  repeat first [returns_step | apply markMaggot_returns].
Qed.

End MessageHandling.

(** C9. Whatever the generation backend does, [respondWithIntel] returns
    normally with a non-empty string.  When the backend call throws, or
    yields no usable text (no text function, a text function that throws, or
    a text that is empty once trimmed), the string is one of the two fixed
    fallback messages.  So the handler of a message that is not a command
    always runs to its end. *)
Theorem generation_failure_is_not_fatal
    `{Config} `{Json (gmap string (list MemoryTurn))} `{Json (gmap string string)}
    (env : Env) (message : Message) (promptText channelId : string) (w : World) :
  (exists answer,
      fst (respondWithIntel env message promptText channelId w) = Ok answer
      /\ answer <> ""
      /\ answer = expected_answer (generation env))
  /\ (usable_text (generation env) = None ->
        fst (respondWithIntel env message promptText channelId w)
          = Ok "Gemini request failed. Check configuration."
        \/ fst (respondWithIntel env message promptText channelId w)
          = Ok "I couldn't formulate a response.")
  /\ (Js.startsWith "!" (Js.trim (content message)) = false ->
        fst (onMessageCreate env message w) = Ok tt).
Proof.
  split; [|split].
  - exists (expected_answer (generation env)).
    split; [apply respondWithIntel_answer|].
    split; [apply expected_answer_nonempty | reflexivity].
  - intros Hnone. rewrite respondWithIntel_answer.
    destruct (generation env) as [err|[|err|out]]; simpl in *; auto.
    destruct (Js.truthy (Js.trim out)); [discriminate | auto].
  - intros Hcmd. now apply returns_unit, onMessageCreate_returns.
Qed.

Lemma generation_failure_is_not_fatal_witness :
  let message := message_of_42 None "what is the cube cult up to?" in
  usable_text (generation outage_env) = None
  /\ Js.startsWith "!" (Js.trim (content message)) = false
  /\ (fst (@respondWithIntel default_config outage_env message "From bob: hi" "100"
             initial_world)
        = Ok "Gemini request failed. Check configuration."
      \/ fst (@respondWithIntel default_config outage_env message "From bob: hi" "100"
                initial_world)
        = Ok "I couldn't formulate a response.")
  /\ fst (@onMessageCreate default_config JsonText.memory_json JsonText.alias_json
            outage_env message initial_world) = Ok tt.
Proof.
  intros message. repeat (split; [reflexivity|]).
  pose proof (@generation_failure_is_not_fatal
                default_config JsonText.memory_json JsonText.alias_json
                outage_env message "From bob: hi" "100" initial_world) as [_ [Hfb _]].
  pose proof (@generation_failure_is_not_fatal
                default_config JsonText.memory_json JsonText.alias_json
                outage_env message "From bob: hi" "100" initial_world) as [_ [_ Hrun]].
  split; [apply Hfb; reflexivity | apply Hrun; reflexivity].
Defined.

(** * Further properties of the store, the memory and the manual log *)

(** X3. [readJsonSafe] never throws and never writes: it returns the parsed
    document when the file exists and parses, and the fallback when the
    file is missing or its text does not parse. *)
Theorem readJsonSafe_never_fails {Doc} `{Json Doc}
    (filePath : string) (fallback : Doc) (w : World) :
  snd (readJsonSafe filePath fallback w) = w
  /\ exists d, fst (readJsonSafe filePath fallback w) = Ok d
     /\ (fs w !! filePath = None -> d = fallback)
     /\ (forall txt, fs w !! filePath = Some txt -> parse txt = None -> d = fallback)
     /\ (forall txt d', fs w !! filePath = Some txt -> parse txt = Some d' -> d = d').
Proof.
  rewrite readJsonSafe_run. split; [reflexivity|].
  eexists. split; [reflexivity|]. repeat split.
  - intros ->. reflexivity.
  - intros txt -> Hp. simpl. now rewrite Hp.
  - intros txt d' -> Hp. simpl. now rewrite Hp.
Qed.

Lemma readJsonSafe_never_fails_witness :
  let w := exec (writeFileSync "data/aliases.json" "{not json") initial_world in
  fs w !! "data/aliases.json" = Some "{not json"
  /\ @parse _ JsonText.alias_json "{not json" = None
  /\ fst (@readJsonSafe _ JsonText.alias_json "data/aliases.json" ∅ w) = Ok ∅.
Proof.
  intros w. split; [reflexivity|]. split; [vm_compute; reflexivity|].
  destruct (@readJsonSafe_never_fails _ JsonText.alias_json "data/aliases.json" ∅ w)
    as [_ (d & Hd & _ & Hbad & _)].
  rewrite Hd. f_equal. apply (Hbad "{not json"); [reflexivity | vm_compute; reflexivity].
Defined.

(** X4. [writeJsonAtomic] puts the document's text under [filePath], leaves no
    file under the temporary name (a file that had that name is gone), and
    touches no other path. *)
Theorem writeJsonAtomic_footprint {Doc} `{Json Doc}
    (filePath : string) (obj : Doc) (w : World) :
  let w' := exec (writeJsonAtomic filePath obj) w in
  fs w' !! filePath = Some (stringify obj)
  /\ fs w' !! (filePath +:+ ".tmp") = None
  /\ forall p, p <> filePath -> p <> filePath +:+ ".tmp" -> fs w' !! p = fs w !! p.
Proof.
  unfold exec. rewrite writeJsonAtomic_run. simpl. split; [apply lookup_insert_eq|].
  split.
  - rewrite lookup_insert_ne by (intros Heq; symmetry in Heq; now apply tmp_path_fresh in Heq).
    apply lookup_delete_eq.
  - intros p Hp Htmp.
    now rewrite lookup_insert_ne, lookup_delete_ne, lookup_insert_ne by congruence.
Qed.

Lemma writeJsonAtomic_footprint_witness :
  let w := exec (writeFileSync "data/manual_log.txt" "notes") initial_world in
  let doc : gmap string string := <["1001" := "Ghost"]> ∅ in
  "data/manual_log.txt" <> "data/aliases.json"
  /\ "data/manual_log.txt" <> "data/aliases.json" +:+ ".tmp"
  /\ fs (exec (@writeJsonAtomic _ JsonText.alias_json "data/aliases.json" doc) w)
       !! "data/manual_log.txt" = fs w !! "data/manual_log.txt".
Proof.
  intros w doc. split; [discriminate|]. split; [discriminate|].
  apply (@writeJsonAtomic_footprint _ JsonText.alias_json "data/aliases.json" doc w);
    discriminate.
Defined.

Section MemoryPersistence.
Context `{Config}.
Context `{Json (gmap string (list MemoryTurn))}.

Lemma appendToMemory_fs (c s t : string) (w : World) :
  fs (exec (appendToMemory c s t) w) =
    <[MEMORY_FILE := stringify (memoryMap (exec (appendToMemory c s t) w))]>
      (delete (MEMORY_FILE +:+ ".tmp")
         (<[MEMORY_FILE +:+ ".tmp" := stringify (memoryMap (exec (appendToMemory c s t) w))]>
            (fs w))).
Proof.
  unfold exec, appendToMemory, saveMemory, bind, gets, modify, getMemory.
  destruct (memoryMap w !! c) as [l0|] eqn:Hc; simpl.
  - destruct (_ >? _); simpl; rewrite writeJsonAtomic_run; reflexivity.
  - destruct (_ >? _); simpl; rewrite writeJsonAtomic_run; reflexivity.
Qed.

End MemoryPersistence.

(** X2. Write-through: after every [appendToMemory] the memory file holds the
    text of the whole in-memory store and no temporary file is left, so
    that a restart which reads the file with [readJsonSafe] gets exactly the
    store back whenever the store is JSON-representable. *)
Theorem appendToMemory_write_through `{Config} `{Json (gmap string (list MemoryTurn))}
    (channelId speaker text : string) (fallback : gmap string (list MemoryTurn))
    (w : World) :
  let w' := exec (appendToMemory channelId speaker text) w in
  fs w' !! MEMORY_FILE = Some (stringify (memoryMap w'))
  /\ fs w' !! (MEMORY_FILE +:+ ".tmp") = None
  /\ (json_representable (memoryMap w') ->
        fst (readJsonSafe MEMORY_FILE fallback w') = Ok (memoryMap w')).
Proof.
  intros w'. subst w'.
  assert (Hfile : fs (exec (appendToMemory channelId speaker text) w) !! MEMORY_FILE
                  = Some (stringify (memoryMap (exec (appendToMemory channelId speaker text) w)))).
  { rewrite appendToMemory_fs at 1. apply lookup_insert_eq. }
  split; [exact Hfile|]. split.
  - rewrite appendToMemory_fs at 1.
    rewrite lookup_insert_ne by (intros Heq; symmetry in Heq; now apply tmp_path_fresh in Heq).
    apply lookup_delete_eq.
  - intros Hrep. rewrite readJsonSafe_run, Hfile. simpl.
    unfold json_representable in Hrep. now rewrite Hrep.
Qed.

Lemma appendToMemory_write_through_witness :
  let w' := exec (@appendToMemory default_config JsonText.memory_json "100" "Ghost" "hold?")
                 initial_world in
  @json_representable _ JsonText.memory_json (memoryMap w')
  /\ fst (@readJsonSafe _ JsonText.memory_json (@MEMORY_FILE default_config) ∅ w')
     = Ok (memoryMap w').
Proof.
  intros w'. split; [vm_compute; reflexivity|].
  apply (@appendToMemory_write_through default_config JsonText.memory_json
           "100" "Ghost" "hold?" ∅ initial_world).
  vm_compute. reflexivity.
Defined.

(** Twenty turns in one channel under the default cap of fourteen. *)
Lemma appendAll_fifo_witness :
  let calls :=
    (fun n => {| call_channel := "100"; call_speaker := "Ghost";
                 call_text := String (ascii_of_nat (65 + n)) EmptyString |}) <$> seq 0 20 in
  1 <= @MAX_MEMORY_ENTRIES default_config
  /\ Z.of_nat (length (getMemory "100" initial_world)) <= @MAX_MEMORY_ENTRIES default_config
  /\ getMemory "100" (@appendAll default_config JsonText.memory_json calls initial_world)
     = takeLast 14 (turnsFor "100" calls).
Proof.
  intros calls. split; [vm_compute; discriminate|]. split; [vm_compute; discriminate|].
  apply (@appendAll_fifo default_config JsonText.memory_json calls "100" initial_world);
    vm_compute; discriminate.
Defined.

Lemma startsWith_app (t s : string) : Js.startsWith t (t +:+ s) = true.
Proof. induction t as [|c t IH]; simpl; [reflexivity | now rewrite Ascii.eqb_refl]. Qed.

Lemma includes_startsWith (t s : string) :
  Js.startsWith t s = true -> Js.includes t s = true.
Proof. intros Hs. destruct s; simpl; now rewrite Hs. Qed.

Lemma includes_cons (t : string) (c : ascii) (s : string) :
  Js.includes t s = true -> Js.includes t (String c s) = true.
Proof. intros Hs. simpl. rewrite Hs. apply orb_true_r. Qed.

(** A string occurs in every string built around it. *)
Lemma includes_app (t a b : string) : Js.includes t (a +:+ t +:+ b) = true.
Proof.
  induction a as [|c a IH].
  - change ("" +:+ t +:+ b) with (t +:+ b).
    apply includes_startsWith, startsWith_app.
  - change (String c a +:+ t +:+ b) with (String c (a +:+ t +:+ b)).
    now apply includes_cons.
Qed.

Lemma includes_app_right (t p s : string) :
  Js.includes t s = true -> Js.includes t (p +:+ s) = true.
Proof.
  intros Hs. induction p as [|c p IH]; [exact Hs|].
  change (String c p +:+ s) with (String c (p +:+ s)). now apply includes_cons.
Qed.

(** X5. The manual log round trip: after [setManualLog(text)] the global holds
    the text, [readManualLog] reads it back from the log file, and, when the
    text is not empty, every system instruction built afterwards contains
    it, whatever the style.  Without a log file [readManualLog] returns the
    empty string instead of failing. *)
Theorem manualLog_round_trip `{Config} (text : string) (w : World) :
  let w' := exec (setManualLog text) w in
  manualLog w' = text
  /\ fst (readManualLog w') = Ok text
  /\ (fs w !! MANUAL_LOG_PATH = None -> fst (readManualLog w) = Ok "")
  /\ (Js.truthy text = true ->
        forall styleOverride, Js.includes text (baseSystem styleOverride w') = true).
Proof.
  intros w'.
  assert (Hw : w' = with_manualLog text
                      (with_fs (fun f => <[MANUAL_LOG_PATH := text]> f) w)) by reflexivity.
  rewrite Hw. clear Hw w'.
  split; [reflexivity|]. split; [|split].
  - unfold readManualLog, try_catch, readFileSync. cbn [fs with_manualLog with_fs].
    now rewrite lookup_insert_eq.
  - intros Hnone. unfold readManualLog, try_catch, readFileSync. now rewrite Hnone.
  - intros Ht styleOverride. unfold baseSystem. cbn [manualLog with_manualLog].
    rewrite Ht. generalize MAJ_PERSONA. intros persona.
    do 6 apply includes_app_right. apply includes_startsWith, startsWith_app.
Qed.

Lemma manualLog_round_trip_witness :
  Js.truthy "Reaper convoy sighted" = true
  /\ Js.includes "Reaper convoy sighted"
       (baseSystem "Be curt."
          (exec (@setManualLog default_config "Reaper convoy sighted") initial_world)) = true.
Proof.
  split; [reflexivity|].
  apply (@manualLog_round_trip default_config "Reaper convoy sighted" initial_world).
  reflexivity.
Defined.

(** * Further properties of the moderation flags *)

Lemma flag_steps_with_preserves {A} P (m : M A) : preserves maggots m -> flag_steps_with P m.
Proof. intros Hm w. apply flag_with_same, Hm. Qed.

Lemma flag_steps_with_bind_l {A C} P (m : M A) (k : A -> M C) :
  flag_steps_with P m -> (forall a, preserves maggots (k a)) -> flag_steps_with P (bind m k).
Proof.
  intros Hm Hk w. unfold bind. specialize (Hm w).
  destruct (m w) as [[a|e] w']; simpl in *; [rewrite Hk|]; exact Hm.
Qed.

Lemma flag_steps_with_bind_r {A C} P (m : M A) (k : A -> M C) :
  preserves maggots m -> (forall a, flag_steps_with P (k a)) -> flag_steps_with P (bind m k).
Proof.
  intros Hm Hk w. unfold bind. specialize (Hm w).
  destruct (m w) as [[a|e] w']; simpl in *.
  - rewrite <- Hm. apply Hk.
  - apply flag_with_same, Hm.
Qed.

Lemma flag_steps_with_try_l {A} P (m : M A) (h : string -> M A) :
  flag_steps_with P m -> (forall e, preserves maggots (h e)) ->
  flag_steps_with P (try_catch m h).
Proof.
  intros Hm Hh w. unfold try_catch. specialize (Hm w).
  destruct (m w) as [[a|e] w']; simpl in *; [|rewrite Hh]; exact Hm.
Qed.

Lemma markMaggot_flag_steps_with env member label :
  flag_steps_with (fun e => name e = label) (markMaggot env member label).
Proof.
  intros w. destruct (isMaggot (member_id member) w) eqn:Hf.
  - rewrite markMaggot_flagged by assumption. now apply flag_with_same.
  - destruct (can_rename env (member_id member)) eqn:Hp.
    + rewrite markMaggot_renamed by assumption. simpl.
      now apply (flag_with_added _ _ _ (member_id member) {| name := label; at_ := now env |}).
    + rewrite markMaggot_denied by assumption. now apply flag_with_same.
Qed.

(** The label chosen by the handler is in the catalogue, whatever the draw. *)
Lemma chosen_label_in_catalogue (d : Q) :
  Js.opt_or_else (pick d DEGRADE_NAMES) "maggot" ∈ DEGRADE_NAMES.
Proof.
  unfold Js.opt_or_else. destruct (pick d DEGRADE_NAMES) as [s|] eqn:Hp.
  - unfold Js.or_else. destruct (Js.truthy s).
    + unfold pick in Hp. destruct (_ <? 0); [discriminate|].
      now apply list_elem_of_lookup_2 in Hp.
    + unfold DEGRADE_NAMES. apply list_elem_of_here.
  - unfold DEGRADE_NAMES. apply list_elem_of_here.
Qed.

Section Catalogue.
Context `{Config}.
Context `{Json (gmap string (list MemoryTurn))} `{Json (gmap string string)}.

Lemma assignNickname_flag_steps_with env message raw :
  flag_steps_with in_catalogue (assignNickname env message raw).
Proof.
  unfold assignNickname. apply flag_steps_with_try_l; [|intros e; frame].
  destruct (guild message); [|apply flag_steps_with_preserves; frame].
  destruct (member message) as [mem|]; [|apply flag_steps_with_preserves; frame].
  apply flag_steps_with_bind_r; [frame|]. intros already.
  destruct (shouldDegrade _ _ _ _); [|apply flag_steps_with_preserves; frame].
  apply flag_steps_with_bind_l; [|intros _; frame].
  intros w. destruct (markMaggot_flag_steps_with env mem
                        (Js.opt_or_else (pick (random_name env) DEGRADE_NAMES) "maggot") w)
    as [Hs | id e He Ha | id Hr].
  - now apply flag_with_same.
  - apply (flag_with_added _ _ _ id e); [|exact Ha].
    unfold in_catalogue. rewrite He. apply chosen_label_in_catalogue.
  - now apply (flag_with_removed _ _ _ id).
Qed.

Lemma cmd_amnesty_flag_steps_with P env message rest :
  flag_steps_with P (cmd_amnesty env message rest).
Proof.
  unfold cmd_amnesty.
  destruct (negb (isCreator message)); [apply flag_steps_with_preserves; frame|].
  destruct rest as [|mention rest]; [apply flag_steps_with_preserves; frame|].
  destruct (Js.matchMention mention) as [userId|]; [|apply flag_steps_with_preserves; frame].
  apply flag_steps_with_bind_r; [frame|]. intros flagged.
  destruct (negb flagged); [apply flag_steps_with_preserves; frame|].
  apply flag_steps_with_bind_r; [frame|]. intros _.
  apply flag_steps_with_bind_l; [|intros _; frame].
  intros w. now apply (flag_with_removed _ _ _ userId).
Qed.

Lemma handleCommand_flag_steps_with P env message raw :
  flag_steps_with P (handleCommand env message raw).
Proof.
  unfold handleCommand.
  repeat match goal with
         | |- flag_steps_with _ (if ?b then _ else _) => destruct b
         end;
    try apply cmd_amnesty_flag_steps_with;
    apply flag_steps_with_preserves;
    unfold cmd_loadlog, cmd_alias, cmd_unalias, cmd_nick, cmd_createchannel, cmd_parse,
           setManualLog, saveAliases, createChannel;
    frame_more.
Qed.

Lemma handle_flag_steps_with env ev : flag_steps_with in_catalogue (handle env ev).
Proof.
  destruct ev as [message|newMember]; simpl.
  - unfold onMessageCreate.
    destruct (author_bot message); [apply flag_steps_with_preserves; frame|].
    destruct (Js.startsWith "!" _); [apply handleCommand_flag_steps_with|].
    apply flag_steps_with_bind_l; [apply assignNickname_flag_steps_with|].
    intros returned. apply after_assignNickname_preserves.
  - apply flag_steps_with_preserves, onGuildMemberUpdate_preserves. reflexivity.
Qed.

End Catalogue.

(** X6. Labels stay in the catalogue: if every label in the flag map is one of
    [DEGRADE_NAMES] (as in a freshly started process, whose flag map is
    empty), so it is after any sequence of events, whatever the random draws
    and the platform outcomes.  In particular no stored label is empty. *)
Theorem labels_stay_in_catalogue
    `{Config} `{Json (gmap string (list MemoryTurn))} `{Json (gmap string string)}
    (evs : list (Env * Event)) (w : World) :
  labels_from_catalogue (maggots w) ->
  labels_from_catalogue (maggots (run evs w))
  /\ forall u e, maggots (run evs w) !! u = Some e -> Js.truthy (name e) = true.
Proof.
  intros Hw.
  assert (Hinv : labels_from_catalogue (maggots (run evs w))).
  { revert w Hw. induction evs as [|[env ev] evs IH]; intros w Hw; simpl; [exact Hw|].
    apply IH. unfold exec.
    destruct (handle_flag_steps_with env ev w) as [-> | id e He -> | id ->].
    - exact Hw.
    - intros u e'. destruct (decide (u = id)) as [->|Hne].
      + rewrite lookup_insert_eq. intros [= <-]. exact He.
      + rewrite lookup_insert_ne by congruence. apply Hw.
    - intros u e'. destruct (decide (u = id)) as [->|Hne].
      + rewrite lookup_delete_eq. discriminate.
      + rewrite lookup_delete_ne by congruence. apply Hw. }
  split; [exact Hinv|]. intros u e Hu. specialize (Hinv u e Hu).
  unfold in_catalogue, DEGRADE_NAMES in Hinv.
  apply list_elem_of_In in Hinv. simpl in Hinv.
  repeat (destruct Hinv as [<- | Hinv]; [reflexivity|]). destruct Hinv.
Qed.

Lemma labels_stay_in_catalogue_witness :
  let shout := MessageCreate (message_of_42 None "you are so worthless") in
  labels_from_catalogue (maggots initial_world)
  /\ labels_from_catalogue
       (maggots (@run default_config JsonText.memory_json JsonText.alias_json
                   [(calm_env, shout)] initial_world)).
Proof.
  intros shout.
  assert (Hinit : labels_from_catalogue (maggots initial_world)).
  { intros u e Hu. simpl in Hu. now rewrite lookup_empty in Hu. }
  split; [exact Hinit|].
  apply (@labels_stay_in_catalogue default_config JsonText.memory_json JsonText.alias_json
           [(calm_env, shout)] initial_world Hinit).
Defined.

Section TriggerFlow.
Context `{Config}.
Context `{Json (gmap string (list MemoryTurn))} `{Json (gmap string string)}.

(** When the classification says so, the trigger block marks the member,
    replies and makes the handler return. *)
Lemma assignNickname_fires env message mem raw (w : World) :
  guild message = true ->
  member message = Some mem ->
  shouldDegrade (isMaggot (author_id message) w)
    (existsb (fun t => Js.includes t (Js.toLowerCase raw)) MAGGOT_TRIGGERS)
    raw (random_degrade env) = true ->
  assignNickname env message raw w =
    (Ok true,
     with_effect
       (Reply ("Watch your tone, "
               +:+ Js.opt_or_else (pick (random_name env) DEGRADE_NAMES) "maggot"
               +:+ ". Nickname updated."))
       (exec (markMaggot env mem
                (Js.opt_or_else (pick (random_name env) DEGRADE_NAMES) "maggot")) w)).
Proof.
  intros Hg Hm Hd. unfold assignNickname, try_catch, bind, gets, exec.
  rewrite Hg, Hm, Hd.
  pose proof (returns_unit _ w (markMaggot_returns env mem
    (Js.opt_or_else (pick (random_name env) DEGRADE_NAMES) "maggot"))) as Hok.
  destruct (markMaggot env mem _ w) as [[[]|e] w1]; [reflexivity | discriminate].
Qed.

End TriggerFlow.

(** X7. A message that earns its author a nickname (by an explicit trigger or by
    the random draw) and whose rename goes through: the member is flagged
    with a label of the catalogue and the time of the event, the only two
    effects are the rename and one acknowledging reply, and the handler
    stops there: nothing is recorded in memory, nothing is persisted and the
    response gate is not consulted. *)
Theorem trigger_flags_and_stops
    `{Config} `{Json (gmap string (list MemoryTurn))} `{Json (gmap string string)}
    (env : Env) (message : Message) (mem : GuildMember) (w : World) :
  let raw := Js.trim (content message) in
  let explicit := existsb (fun t => Js.includes t (Js.toLowerCase raw)) MAGGOT_TRIGGERS in
  let nick := Js.opt_or_else (pick (random_name env) DEGRADE_NAMES) "maggot" in
  let w' := exec (onMessageCreate env message) w in
  author_bot message = false ->
  Js.startsWith "!" raw = false ->
  guild message = true ->
  member message = Some mem ->
  member_id mem = author_id message ->
  isMaggot (author_id message) w = false ->
  shouldDegrade false explicit raw (random_degrade env) = true ->
  can_rename env (member_id mem) = true ->
  fst (onMessageCreate env message w) = Ok tt
  /\ maggots w' = <[author_id message := {| name := nick; at_ := now env |}]> (maggots w)
  /\ nick ∈ DEGRADE_NAMES
  /\ trace w' = trace w ++ [SetNickname (author_id message) (Some nick);
                            Reply ("Watch your tone, " +:+ nick +:+ ". Nickname updated.")]
  /\ memoryMap w' = memoryMap w
  /\ lastResponseByChannel w' = lastResponseByChannel w
  /\ fs w' = fs w.
Proof.
  intros raw explicit nick w' Hbot Hcmd Hg Hm Hid Hf Hd Hp. subst w'.
  unfold exec, onMessageCreate. rewrite Hbot. fold raw. rewrite Hcmd. unfold bind.
  rewrite (assignNickname_fires env message mem raw w Hg Hm) by (rewrite Hf; exact Hd).
  fold nick. unfold exec. rewrite Hid in Hp.
  rewrite markMaggot_renamed by (rewrite Hid; assumption).
  rewrite Hid. simpl.
  split; [reflexivity|]. split; [reflexivity|].
  split; [apply chosen_label_in_catalogue|].
  split; [now rewrite <- app_assoc|]. repeat split.
Qed.

Lemma trigger_flags_and_stops_witness :
  let message := message_of_42 None "You are so WORTHLESS" in
  let w' := exec (@onMessageCreate default_config JsonText.memory_json JsonText.alias_json
                    calm_env message) initial_world in
  maggots w' !! "42" = Some {| name := "boot"; at_ := 1000 |}
  /\ trace w' = [SetNickname "42" (Some "boot");
                 Reply "Watch your tone, boot. Nickname updated."].
Proof.
  intros message w'.
  destruct (@trigger_flags_and_stops default_config JsonText.memory_json JsonText.alias_json
              calm_env message {| member_id := "42"; nickname := None; displayName := "bob" |}
              initial_world)
    as (_ & Hflags & _ & Htrace & _); try reflexivity.
  split.
  - unfold w'. rewrite Hflags. reflexivity.
  - unfold w'. rewrite Htrace. reflexivity.
Defined.

(** X8. The same message when the bot may not rename the member: nobody is
    flagged and a warning is logged, yet the reply that says the nickname
    was updated is sent all the same, and the handler stops there. *)
Theorem denied_trigger_still_acknowledged
    `{Config} `{Json (gmap string (list MemoryTurn))} `{Json (gmap string string)}
    (env : Env) (message : Message) (mem : GuildMember) (w : World) :
  let raw := Js.trim (content message) in
  let explicit := existsb (fun t => Js.includes t (Js.toLowerCase raw)) MAGGOT_TRIGGERS in
  let nick := Js.opt_or_else (pick (random_name env) DEGRADE_NAMES) "maggot" in
  let w' := exec (onMessageCreate env message) w in
  author_bot message = false ->
  Js.startsWith "!" raw = false ->
  guild message = true ->
  member message = Some mem ->
  member_id mem = author_id message ->
  isMaggot (author_id message) w = false ->
  shouldDegrade false explicit raw (random_degrade env) = true ->
  can_rename env (member_id mem) = false ->
  fst (onMessageCreate env message w) = Ok tt
  /\ maggots w' = maggots w
  /\ (exists warning,
        trace w' = trace w ++ [ConsoleWarn warning;
                               Reply ("Watch your tone, " +:+ nick +:+ ". Nickname updated.")])
  /\ memoryMap w' = memoryMap w
  /\ lastResponseByChannel w' = lastResponseByChannel w.
Proof.
  intros raw explicit nick w' Hbot Hcmd Hg Hm Hid Hf Hd Hp. subst w'.
  unfold exec, onMessageCreate. rewrite Hbot. fold raw. rewrite Hcmd. unfold bind.
  rewrite (assignNickname_fires env message mem raw w Hg Hm) by (rewrite Hf; exact Hd).
  fold nick. unfold exec.
  rewrite markMaggot_denied by (first [assumption | rewrite Hid; assumption]).
  simpl. split; [reflexivity|]. split; [reflexivity|].
  split; [eexists; now rewrite <- app_assoc|]. split; reflexivity.
Qed.

Lemma denied_trigger_still_acknowledged_witness :
  let message := message_of_42 None "shut up" in
  let w' := exec (@onMessageCreate default_config JsonText.memory_json JsonText.alias_json
                    denied_env message) initial_world in
  maggots w' = maggots initial_world
  /\ lastResponseByChannel w' = lastResponseByChannel initial_world.
Proof.
  intros message w'.
  destruct (@denied_trigger_still_acknowledged
              default_config JsonText.memory_json JsonText.alias_json
              denied_env message {| member_id := "42"; nickname := None; displayName := "bob" |}
              initial_world)
    as (_ & Hflags & _ & _ & Hlast); try reflexivity.
  split; [exact Hflags | exact Hlast].
Defined.

(** ** What handlers add to the trace *)

Section Emits.
Context (P : Effect -> Prop).

Lemma emits_only_preserves {A} (m : M A) : preserves trace m -> emits_only P m.
Proof. intros Hm w. exists []. rewrite Hm, app_nil_r. split; [reflexivity | constructor]. Qed.

Lemma emits_only_emit (e : Effect) : P e -> emits_only P (emit e).
Proof. intros He w. exists [e]. split; [reflexivity | now repeat constructor]. Qed.

Lemma emits_only_bind {A C} (m : M A) (k : A -> M C) :
  emits_only P m -> (forall a, emits_only P (k a)) -> emits_only P (bind m k).
Proof.
  intros Hm Hk w. unfold bind. destruct (Hm w) as (effs & Heq & Hall).
  destruct (m w) as [[a|e] w']; simpl in *.
  - destruct (Hk a w') as (effs' & Heq' & Hall'). exists (effs ++ effs').
    rewrite Heq', Heq, app_assoc. split; [reflexivity | now apply Forall_app].
  - now exists effs.
Qed.

Lemma emits_only_try_catch {A} (m : M A) (h : string -> M A) :
  emits_only P m -> (forall e, emits_only P (h e)) -> emits_only P (try_catch m h).
Proof.
  intros Hm Hh w. unfold try_catch. destruct (Hm w) as (effs & Heq & Hall).
  destruct (m w) as [[a|e] w']; simpl in *.
  - now exists effs.
  - destruct (Hh e w') as (effs' & Heq' & Hall'). exists (effs ++ effs').
    rewrite Heq', Heq, app_assoc. split; [reflexivity | now apply Forall_app].
Qed.

End Emits.

(** Decomposes a goal [emits_only P m] along the structure of [m]; what is
    left are the effects themselves. *)
Ltac emits_step :=
  lazymatch goal with
  | |- emits_only _ (bind _ _) => apply emits_only_bind; [|intros ?]
  | |- emits_only _ (try_catch _ _) => apply emits_only_try_catch; [|intros ?]
  | |- emits_only _ (ret _) => apply emits_only_preserves, preserves_ret
  | |- emits_only _ (throw _) => apply emits_only_preserves, preserves_throw
  | |- emits_only _ (gets _) => apply emits_only_preserves, preserves_gets
  | |- emits_only _ (modify _) =>
      apply emits_only_preserves, preserves_modify; intros; reflexivity
  | |- emits_only _ (emit _) => apply emits_only_emit
  | |- emits_only _ (reply _) => unfold reply
  | |- emits_only _ (console_warn _) => unfold console_warn
  | |- emits_only _ (console_error _) => unfold console_error
  | |- emits_only _ (setNickname _ _ _) => unfold setNickname
  | |- emits_only _ (fetchMember _ _) => unfold fetchMember
  | |- emits_only _ (writeFileSync _ _) => unfold writeFileSync
  | |- emits_only _ (writeJsonAtomic _ _) =>
      apply emits_only_preserves, writeJsonAtomic_preserves; intros; reflexivity
  | |- emits_only _ (appendToMemory _ _ _) =>
      apply emits_only_preserves, appendToMemory_preserves; intros; reflexivity
  | |- emits_only _ (if ?b then _ else _) => destruct b
  | |- emits_only _ (match ?x with _ => _ end) => destruct x
  end.

Ltac emits := repeat emits_step.

Lemma collectImageParts_emits (P : Effect -> Prop) net atts :
  emits_only P (Ingest.collectImageParts net atts).
Proof. apply emits_only_preserves, collectImageParts_preserves. Qed.

Lemma collectDocText_emits (P : Effect -> Prop) net atts :
  (forall m, P (ConsoleWarn m)) -> emits_only P (Ingest.collectDocText net atts).
Proof.
  intros Hw. unfold Ingest.collectDocText.
  apply emits_only_bind; [|intros; emits].
  induction atts as [|att more IH]; cbn [Ingest.collectDocChunks]; [emits|].
  apply emits_only_bind; [|intros t; apply emits_only_bind; [exact IH | intros; emits]].
  unfold Ingest.extractDocTextFromAttachment, Ingest.fetchBuffer, Ingest.pdfExtractText,
    Ingest.fetch.
  emits; auto.
Qed.

Section HandlerEffects.
Context `{Config}.
Context `{Json (gmap string (list MemoryTurn))} `{Json (gmap string string)}.

Lemma respondWithIntel_emits (P : Effect -> Prop) env message promptText channelId :
  (forall s p, P (GenerateContent s p)) -> (forall m, P (ConsoleError m)) ->
  emits_only P (respondWithIntel env message promptText channelId).
Proof.
  intros Hg He. unfold respondWithIntel, generateContent, responseText. emits; auto.
Qed.

Lemma reapplyOnMessage_emits (P : Effect -> Prop) env message :
  (forall id nick, P (SetNickname id nick)) -> (forall m, P (ConsoleWarn m)) ->
  emits_only P (reapplyOnMessage env message).
Proof. intros Hr Hw. unfold reapplyOnMessage. emits; auto. Qed.

Lemma reapplyOnMessage_returns env message : returns (reapplyOnMessage env message).
Proof. unfold reapplyOnMessage. repeat returns_step. Qed.

(** The gate reads the world only through the last-response times. *)
Lemma shouldRespond_ext env message (w1 w2 : World) :
  lastResponseByChannel w1 = lastResponseByChannel w2 ->
  shouldRespond env message w1 = shouldRespond env message w2.
Proof. intros Heq. unfold shouldRespond. now rewrite Heq. Qed.

(** A message that triggers nothing and that the gate turns down is
    handled by the nickname check alone. *)
Lemma onMessageCreate_unanswered env message (w : World) :
  author_bot message = false ->
  Js.startsWith "!" (Js.trim (content message)) = false ->
  assignNickname env message (Js.trim (content message)) w = (Ok false, w) ->
  shouldRespond env message w = false ->
  onMessageCreate env message w = reapplyOnMessage env message w.
Proof.
  intros Hbot Hcmd Hidle Hgate. unfold onMessageCreate. rewrite Hbot, Hcmd.
  unfold bind at 1. rewrite Hidle. unfold bind at 1.
  pose proof (returns_unit _ w (reapplyOnMessage_returns env message)) as Hok.
  pose proof (reapplyOnMessage_preserves lastResponseByChannel env message
                (fun _ _ => eq_refl) w) as Hlast.
  destruct (reapplyOnMessage env message w) as [[[]|e] w1]; [|discriminate].
  simpl in Hlast. unfold bind, gets.
  now rewrite (shouldRespond_ext env message w1 w Hlast), Hgate.
Qed.

End HandlerEffects.

(** X9. Outside a guild (a direct message, or a message without member data) a
    message that is not a command flags nobody and renames nobody, whatever
    its text and the random draw. *)
Theorem direct_message_never_flags
    `{Config} `{Json (gmap string (list MemoryTurn))} `{Json (gmap string string)}
    (env : Env) (message : Message) :
  Js.startsWith "!" (Js.trim (content message)) = false ->
  guild message = false \/ member message = None ->
  preserves maggots (onMessageCreate env message)
  /\ emits_only (fun e => is_rename e = false) (onMessageCreate env message).
Proof.
  intros Hcmd Hdm. split.
  - unfold onMessageCreate, assignNickname, reapplyOnMessage. rewrite Hcmd.
    destruct Hdm as [-> | ->]; frame_more.
  - unfold onMessageCreate, assignNickname, reapplyOnMessage. rewrite Hcmd.
    destruct Hdm as [-> | ->]; emits;
      try reflexivity; apply respondWithIntel_emits; reflexivity.
Qed.

Lemma direct_message_never_flags_witness :
  let dm := {| author_id := "42"; author_bot := false; author_username := "bob";
               content := "shut up, you useless bot"; guild := false; member := None;
               channel_id := "300"; attachments := [] |} in
  Js.startsWith "!" (Js.trim (content dm)) = false
  /\ maggots (exec (@onMessageCreate default_config JsonText.memory_json JsonText.alias_json
                      calm_env dm) initial_world) = maggots initial_world.
Proof.
  intros dm. split; [reflexivity|].
  apply (@direct_message_never_flags default_config JsonText.memory_json JsonText.alias_json
           calm_env dm); [reflexivity | now left].
Defined.

(** X10. A message that is not a command, triggers no nickname and is turned down
    by the response gate leaves no record: memory, data files, last-response
    times, flags and aliases are as before, nothing is sent to the
    generation backend and no reply is posted. *)
Theorem unanswered_message_leaves_no_record
    `{Config} `{Json (gmap string (list MemoryTurn))} `{Json (gmap string string)}
    (env : Env) (message : Message) (w : World) :
  let raw := Js.trim (content message) in
  let explicit := existsb (fun t => Js.includes t (Js.toLowerCase raw)) MAGGOT_TRIGGERS in
  let w' := exec (onMessageCreate env message) w in
  author_bot message = false ->
  Js.startsWith "!" raw = false ->
  shouldDegrade (isMaggot (author_id message) w) explicit raw (random_degrade env) = false ->
  shouldRespond env message w = false ->
  fst (onMessageCreate env message w) = Ok tt
  /\ memoryMap w' = memoryMap w
  /\ fs w' = fs w
  /\ lastResponseByChannel w' = lastResponseByChannel w
  /\ maggots w' = maggots w
  /\ aliasMap w' = aliasMap w
  /\ exists effs, trace w' = trace w ++ effs
                  /\ Forall (fun e => is_reply e = false /\ is_generation e = false) effs.
Proof.
  intros raw explicit w' Hbot Hcmd Hd Hgate. subst w'. unfold exec.
  rewrite onMessageCreate_unanswered; try assumption;
    [|now apply assignNickname_idle].
  split; [apply returns_unit, reapplyOnMessage_returns|].
  repeat (split; [now apply reapplyOnMessage_preserves|]).
  apply reapplyOnMessage_emits; intros; split; reflexivity.
Qed.

Lemma unanswered_message_leaves_no_record_witness :
  let message := message_of_42 None "ok then" in
  let w' := exec (@onMessageCreate default_config JsonText.memory_json JsonText.alias_json
                    calm_env message) initial_world in
  @shouldRespond default_config calm_env message initial_world = false
  /\ memoryMap w' = memoryMap initial_world
  /\ fs w' = fs initial_world.
Proof.
  intros message w'. split; [reflexivity|].
  destruct (@unanswered_message_leaves_no_record
              default_config JsonText.memory_json JsonText.alias_json
              calm_env message initial_world)
    as (_ & Hmem & Hfs & _); try reflexivity.
  split; [exact Hmem | exact Hfs].
Defined.

(** X12. On a rename notification for a flagged user whose new nickname is set
    and differs from the stored label (letter case ignored), the stored label
    itself is re-applied; when the bot may not rename, a warning is logged
    instead.  Either way the handler returns normally and changes nothing
    else. *)
Theorem onGuildMemberUpdate_reapplies_label
    (env : Env) (newMember : GuildMember) (entry : MaggotEntry) (nick : string) (w : World) :
  maggots w !! member_id newMember = Some entry ->
  Js.truthy (name entry) = true ->
  nickname newMember = Some nick ->
  Js.truthy nick = true ->
  Js.toLowerCase nick <> Js.toLowerCase (name entry) ->
  (can_rename env (member_id newMember) = true ->
     onGuildMemberUpdate env newMember w
     = (Ok tt, with_effect (SetNickname (member_id newMember) (Some (name entry))) w))
  /\ (can_rename env (member_id newMember) = false ->
        exists warning,
          onGuildMemberUpdate env newMember w = (Ok tt, with_effect (ConsoleWarn warning) w)).
Proof.
  intros Hentry Hname Hnick Htruthy Hdiff.
  assert (Hneq : String.eqb (Js.toLowerCase nick) (Js.toLowerCase (name entry)) = false)
    by now apply String.eqb_neq.
  unfold onGuildMemberUpdate, try_catch, bind, gets, setNickname, Js.or_else.
  rewrite Hentry, Hnick, Hname, Htruthy, Hneq. simpl.
  split; intros ->; [reflexivity | eexists; reflexivity].
Qed.

Lemma onGuildMemberUpdate_reapplies_label_witness :
  let renamed := {| member_id := "42"; nickname := Some "Captain Bob"; displayName := "bob" |} in
  maggots worm_world !! "42" = Some {| name := "worm"; at_ := 500 |}
  /\ Js.toLowerCase "Captain Bob" <> Js.toLowerCase "worm"
  /\ onGuildMemberUpdate calm_env renamed worm_world
     = (Ok tt, with_effect (SetNickname "42" (Some "worm")) worm_world).
Proof.
  intros renamed. split; [reflexivity|]. split; [discriminate|].
  apply (onGuildMemberUpdate_reapplies_label calm_env renamed
           {| name := "worm"; at_ := 500 |} "Captain Bob" worm_world);
    try reflexivity.
  discriminate.
Defined.

(** X13. A rename notification is ignored, without any effect, when the user is
    not flagged, when the new nickname is unset or empty, and when it equals
    the stored label up to letter case. *)
Theorem onGuildMemberUpdate_ignores
    (env : Env) (newMember : GuildMember) (w : World) :
  maggots w !! member_id newMember = None
  \/ nickname newMember = None
  \/ nickname newMember = Some ""
  \/ (exists entry nick,
        maggots w !! member_id newMember = Some entry
        /\ Js.truthy (name entry) = true
        /\ nickname newMember = Some nick
        /\ Js.toLowerCase nick = Js.toLowerCase (name entry)) ->
  onGuildMemberUpdate env newMember w = (Ok tt, w).
Proof.
  intros Hcase. unfold onGuildMemberUpdate, try_catch, bind, gets.
  destruct Hcase as [-> | [Hn | [Hn | (entry & nick & -> & Hname & Hn & Heq)]]].
  - reflexivity.
  - rewrite Hn. now destruct (maggots w !! member_id newMember).
  - rewrite Hn. now destruct (maggots w !! member_id newMember).
  - rewrite Hn, Hname, Heq, String.eqb_refl, andb_false_r. reflexivity.
Qed.

Lemma onGuildMemberUpdate_ignores_witness :
  let cleared := {| member_id := "42"; nickname := None; displayName := "bob" |} in
  let shouted := {| member_id := "42"; nickname := Some "WORM"; displayName := "WORM" |} in
  onGuildMemberUpdate calm_env cleared worm_world = (Ok tt, worm_world)
  /\ onGuildMemberUpdate calm_env shouted worm_world = (Ok tt, worm_world).
Proof.
  intros cleared shouted. split.
  - apply (onGuildMemberUpdate_ignores calm_env cleared worm_world). right. now left.
  - apply (onGuildMemberUpdate_ignores calm_env shouted worm_world).
    do 3 right. exists {| name := "worm"; at_ := 500 |}, "WORM". repeat split; reflexivity.
Defined.

Lemma bind_exec {A C} (m : M A) (k : A -> M C) (w : World) (a : A) :
  fst (m w) = Ok a -> bind m k w = k a (exec m w).
Proof.
  unfold bind, exec. destruct (m w) as [[a'|e] w1]; simpl; [|discriminate].
  now intros [= ->].
Qed.

Section AnsweredFlow.
Context `{Config}.
Context `{Json (gmap string (list MemoryTurn))} `{Json (gmap string string)}.

Lemma expected_answer_truthy g : Js.truthy (expected_answer g) = true.
Proof.
  destruct g as [err|[|err|out]]; simpl; try reflexivity.
  now destruct (Js.truthy (Js.trim out)) eqn:Ht.
Qed.

(** The world after a message that triggers nothing and passes the gate. *)
Lemma onMessageCreate_answered env message (w : World) :
  author_bot message = false ->
  Js.startsWith "!" (Js.trim (content message)) = false ->
  assignNickname env message (Js.trim (content message)) w = (Ok false, w) ->
  shouldRespond env message w = true ->
  onMessageCreate env message w =
    (Ok tt,
     with_effect (Reply (expected_answer (generation env)))
       (with_lastResponse (fun m => <[channel_id message := now_replied env]> m)
          (exec (appendToMemory (channel_id message) "Maj. Pickletooth"
                   (expected_answer (generation env)))
             (exec (respondWithIntel env message
                      ("From " +:+ callsignOf message w +:+ ": " +:+ Js.trim (content message))
                      (channel_id message))
                (exec (appendToMemory (channel_id message) (callsignOf message w)
                         (Js.trim (content message)))
                   (exec (reapplyOnMessage env message) w)))))).
Proof.
  intros Hbot Hcmd Hidle Hgate. unfold onMessageCreate. rewrite Hbot, Hcmd.
  unfold bind at 1. rewrite Hidle.
  rewrite (bind_exec _ _ w tt) by apply returns_unit, reapplyOnMessage_returns.
  set (w1 := exec (reapplyOnMessage env message) w).
  assert (Hlast : lastResponseByChannel w1 = lastResponseByChannel w)
    by (apply reapplyOnMessage_preserves; reflexivity).
  assert (Halias : aliasMap w1 = aliasMap w)
    by (apply reapplyOnMessage_preserves; reflexivity).
  unfold bind at 1, gets at 1.
  rewrite (shouldRespond_ext env message w1 w Hlast), Hgate. cbn [negb].
  cbv beta iota zeta.
  unfold bind at 1, gets at 1. cbv beta iota. rewrite Halias. fold (callsignOf message w).
  rewrite (bind_exec _ _ w1 tt) by apply returns_unit, appendToMemory_returns.
  rewrite (bind_exec _ _ _ (expected_answer (generation env)))
    by apply respondWithIntel_answer.
  rewrite expected_answer_truthy.
  rewrite (bind_exec _ _ _ tt) by apply returns_unit, appendToMemory_returns.
  reflexivity.
Qed.


(** Components that neither the data files, the memory nor the trace touch
    go unchanged through the steps of an answered message. *)
Lemma answered_steps_preserve {B} (proj : World -> B) env message
    (c1 s1 t1 p c2 c3 s3 t3 : string) (w : World) :
  (forall f w, proj (with_fs f w) = proj w) ->
  (forall f w, proj (with_memoryMap f w) = proj w) ->
  (forall e w, proj (with_effect e w) = proj w) ->
  proj (exec (appendToMemory c3 s3 t3)
          (exec (respondWithIntel env message p c2)
             (exec (appendToMemory c1 s1 t1)
                (exec (reapplyOnMessage env message) w)))) = proj w.
Proof.
  intros Hfs Hmm He. unfold exec.
  rewrite (appendToMemory_preserves proj c3 s3 t3 Hfs Hmm).
  rewrite (respondWithIntel_preserves proj env message p c2 He).
  rewrite (appendToMemory_preserves proj c1 s1 t1 Hfs Hmm).
  apply (reapplyOnMessage_preserves proj env message He).
Qed.

Lemma getMemory_ext (c : string) (w1 w2 : World) :
  memoryMap w1 = memoryMap w2 -> getMemory c w1 = getMemory c w2.
Proof. intros Heq. unfold getMemory. now rewrite Heq. Qed.

End AnsweredFlow.

(** X11. A message that triggers no nickname and passes the response gate is
    answered and recorded: the handler returns normally; the channel's memory
    gets the author's turn (under the alias when one is set) and then the
    bot's turn, each append trimmed by the cap, while other channels keep
    theirs; the memory file holds the new store; the channel's last-response
    time becomes the time of the reply; the last effect is the reply, which is
    never empty; flags and aliases are untouched. *)
Theorem answered_message_is_recorded
    `{Config} `{Json (gmap string (list MemoryTurn))} `{Json (gmap string string)}
    (env : Env) (message : Message) (w : World) :
  let raw := Js.trim (content message) in
  let explicit := existsb (fun t => Js.includes t (Js.toLowerCase raw)) MAGGOT_TRIGGERS in
  let answer := expected_answer (generation env) in
  let userTurn := {| speaker := callsignOf message w; text := raw |} in
  let botTurn := {| speaker := "Maj. Pickletooth"; text := answer |} in
  let w' := exec (onMessageCreate env message) w in
  author_bot message = false ->
  Js.startsWith "!" raw = false ->
  shouldDegrade (isMaggot (author_id message) w) explicit raw (random_degrade env) = false ->
  shouldRespond env message w = true ->
  fst (onMessageCreate env message w) = Ok tt
  /\ getMemory (channel_id message) w'
     = cap (cap (getMemory (channel_id message) w ++ [userTurn]) ++ [botTurn])
  /\ (forall c, c <> channel_id message -> getMemory c w' = getMemory c w)
  /\ fs w' !! MEMORY_FILE = Some (stringify (memoryMap w'))
  /\ lastResponseByChannel w'
     = <[channel_id message := now_replied env]> (lastResponseByChannel w)
  /\ last (trace w') = Some (Reply answer)
  /\ answer <> ""
  /\ maggots w' = maggots w
  /\ aliasMap w' = aliasMap w
  /\ (forall a, aliasMap w !! author_id message = Some a -> Js.truthy a = true ->
                speaker userTurn = a).
Proof.
  intros raw explicit answer userTurn botTurn w' Hbot Hcmd Hd Hgate.
  assert (Hrun := onMessageCreate_answered env message w Hbot Hcmd
                    (assignNickname_idle env message raw w Hd) Hgate).
  subst w'. unfold exec at 1 2 3 4 5 6 7 8. rewrite Hrun. clear Hrun.
  fold raw answer.
  set (w1 := exec (reapplyOnMessage env message) w).
  set (w2 := exec (appendToMemory (channel_id message) (callsignOf message w) raw) w1).
  set (w3 := exec (respondWithIntel env message
                     ("From " +:+ callsignOf message w +:+ ": " +:+ raw)
                     (channel_id message)) w2).
  set (w4 := exec (appendToMemory (channel_id message) "Maj. Pickletooth" answer) w3).
  cbn [fst snd maggots aliasMap lastResponseByChannel fs trace memoryMap
       with_effect with_lastResponse].
  assert (Hm1 : memoryMap w1 = memoryMap w)
    by (apply reapplyOnMessage_preserves; reflexivity).
  assert (Hm3 : memoryMap w3 = memoryMap w2)
    by (apply respondWithIntel_preserves; reflexivity).
  split; [reflexivity|]. split; [|split; [|split; [|split; [|split; [|split; [|split; [|split]]]]]]].
  - transitivity (getMemory (channel_id message) w4); [reflexivity|].
    unfold w4. rewrite getMemory_appendToMemory_eq.
    rewrite (getMemory_ext _ w3 w2 Hm3). unfold w2.
    rewrite getMemory_appendToMemory_eq. now rewrite (getMemory_ext _ w1 w Hm1).
  - intros c Hc. transitivity (getMemory c w4); [reflexivity|].
    unfold w4. rewrite getMemory_appendToMemory_ne by exact Hc.
    rewrite (getMemory_ext _ w3 w2 Hm3). unfold w2.
    rewrite getMemory_appendToMemory_ne by exact Hc. now apply getMemory_ext.
  - unfold w4. rewrite appendToMemory_fs at 1. apply lookup_insert_eq.
  - f_equal. apply (answered_steps_preserve lastResponseByChannel); reflexivity.
  - apply last_snoc.
  - apply expected_answer_nonempty.
  - apply (answered_steps_preserve maggots); reflexivity.
  - apply (answered_steps_preserve aliasMap); reflexivity.
  - intros a Ha Ht. subst userTurn. cbn [speaker]. unfold callsignOf, Js.opt_or_else.
    rewrite Ha. unfold Js.or_else. now rewrite Ht.
Qed.

Lemma answered_message_is_recorded_witness :
  let message := message_of_42 None "Major, any news?" in
  let w' := exec (@onMessageCreate default_config JsonText.memory_json JsonText.alias_json
                    calm_env message) initial_world in
  @shouldRespond default_config calm_env message initial_world = true
  /\ getMemory "100" w'
     = [ {| speaker := "bob"; text := "Major, any news?" |};
         {| speaker := "Maj. Pickletooth"; text := "Noted." |} ]
  /\ lastResponseByChannel w' !! "100" = Some 2000.
Proof.
  intros message w'. split; [reflexivity|].
  destruct (@answered_message_is_recorded
              default_config JsonText.memory_json JsonText.alias_json
              calm_env message initial_world)
    as (_ & Hmem & _ & _ & Hlast & _); try reflexivity.
  split.
  - etransitivity; [exact Hmem | reflexivity].
  - etransitivity; [exact (f_equal (fun m => m !! "100") Hlast) | reflexivity].
Defined.

(** * Further properties of the command handler *)

Section CommandFacts.
Context `{Config}.
Context `{Json (gmap string (list MemoryTurn))} `{Json (gmap string string)}.

(** Without the creator's identity a command can only reply (and, for
    [parse], consult the generation backend). *)
Lemma handleCommand_non_creator_preserves {B} (proj : World -> B) env message raw :
  (forall e w, proj (with_effect e w) = proj w) ->
  isCreator message = false ->
  preserves proj (handleCommand env message raw).
Proof.
  intros He Hnc.
  unfold handleCommand, cmd_loadlog, cmd_alias, cmd_unalias, cmd_nick, cmd_createchannel,
    cmd_parse, cmd_amnesty.
  rewrite Hnc. cbn [negb].
  repeat first
    [ frame_step
    | apply respondWithIntel_preserves; exact He
    | apply collectImageParts_preserves
    | apply collectDocText_preserves; exact He
    | apply preserves_modify; intros; apply He ].
Qed.

(** No command writes to the conversation memory or to the last-response
    times. *)
Lemma handleCommand_preserves_memory {B} (proj : World -> B) env message raw :
  (forall e w, proj (with_effect e w) = proj w) ->
  (forall f w, proj (with_fs f w) = proj w) ->
  (forall f w, proj (with_maggots f w) = proj w) ->
  (forall f w, proj (with_aliasMap f w) = proj w) ->
  (forall s w, proj (with_manualLog s w) = proj w) ->
  preserves proj (handleCommand env message raw).
Proof.
  intros He Hfs Hmg Hal Hml.
  unfold handleCommand, cmd_loadlog, cmd_alias, cmd_unalias, cmd_nick, cmd_createchannel,
    cmd_parse, cmd_amnesty, setManualLog, saveAliases, createChannel,
    unmarkMaggot.
  repeat first
    [ frame_step
    | apply respondWithIntel_preserves; exact He
    | apply collectImageParts_preserves
    | apply collectDocText_preserves; exact He
    | apply writeJsonAtomic_preserves; exact Hfs
    | apply preserves_modify; intros; first [apply He | apply Hfs | apply Hmg | apply Hal | apply Hml] ].
Qed.

(** Someone whose id is not CREATOR_ID is not taken for the creator. *)
Lemma isCreator_other message : author_id message <> CREATOR_ID -> isCreator message = false.
Proof.
  intros Hne. unfold isCreator.
  destruct (String.eqb_spec (author_id message) CREATOR_ID); [contradiction|].
  apply andb_false_r.
Qed.

(** What such a command adds to the trace: replies, and for [parse] calls
    of the generation backend and log lines. *)
Lemma handleCommand_non_creator_emits env message raw :
  isCreator message = false ->
  emits_only (fun e => is_reply e || is_generation e || is_log e = true)
    (handleCommand env message raw).
Proof.
  intros Hnc.
  unfold handleCommand, cmd_loadlog, cmd_alias, cmd_unalias, cmd_nick, cmd_createchannel,
    cmd_parse, cmd_amnesty.
  rewrite Hnc. cbn [negb].
  repeat first
    [ emits_step
    | apply collectImageParts_emits
    | apply collectDocText_emits; intros; reflexivity
    | apply respondWithIntel_emits; intros; reflexivity ];
    reflexivity.
Qed.

(** Every command word but [parse] is answered by one reply. *)
Lemma handleCommand_non_creator_replies env message raw (w : World) :
  isCreator message = false ->
  Js.toLowerCase (hd "" (Js.splitWs (Js.trim raw))) <> "parse" ->
  exists body, trace (exec (handleCommand env message raw) w) = trace w ++ [Reply body].
Proof.
  intros Hnc Hne. unfold exec, handleCommand.
  destruct (String.eqb_spec (Js.toLowerCase (hd "" (Js.splitWs (Js.trim raw)))) "parse")
    as [Heq|_]; [contradiction|].
  repeat match goal with
         | |- context [if ?b then _ else _] => destruct b
         end;
    unfold cmd_loadlog, cmd_alias, cmd_unalias, cmd_nick, cmd_createchannel, cmd_amnesty;
    rewrite ?Hnc; cbn [negb]; eexists; reflexivity.
Qed.

End CommandFacts.

(** X14. Commands of anyone but the creator (an author whose id is not
    CREATOR_ID) change no state: flags, aliases, manual log, data files,
    memory and last-response times are as before, for every command word,
    known or not, and every argument.  They rename nobody and create no
    channel: all they add to the trace are replies and, for [parse], calls
    of the generation backend and log lines; every command word other than
    [parse] is answered by exactly one reply. *)
Theorem non_creator_commands_change_nothing `{Config} `{Json (gmap string string)}
    (env : Env) (message : Message) (raw : string) (w : World) :
  let w' := exec (handleCommand env message raw) w in
  let lower := Js.toLowerCase (hd "" (Js.splitWs (Js.trim raw))) in
  author_id message <> CREATOR_ID ->
  maggots w' = maggots w
  /\ aliasMap w' = aliasMap w
  /\ manualLog w' = manualLog w
  /\ fs w' = fs w
  /\ memoryMap w' = memoryMap w
  /\ lastResponseByChannel w' = lastResponseByChannel w
  /\ (exists effs,
        trace w' = trace w ++ effs
        /\ Forall (fun e => is_reply e || is_generation e || is_log e = true) effs)
  /\ (lower <> "parse" -> exists body, trace w' = trace w ++ [Reply body]).
Proof.
  intros w' lower Hother. subst w' lower.
  pose proof (isCreator_other message Hother) as Hnc.
  repeat (split; [apply handleCommand_non_creator_preserves; auto|]).
  split; [now apply handleCommand_non_creator_emits|].
  intros Hne. now apply handleCommand_non_creator_replies.
Qed.

Lemma non_creator_commands_change_nothing_witness :
  let message := message_of_42 (Some "worm") "!amnesty <@42>" in
  author_id message <> @CREATOR_ID creator7_config
  /\ maggots (exec (@handleCommand creator7_config JsonText.alias_json calm_env message
                      "amnesty <@42>") worm_world) = maggots worm_world
  /\ trace (exec (@handleCommand creator7_config JsonText.alias_json calm_env message
                     "amnesty <@42>") worm_world)
     = [Reply "Only the creator can forgive a maggot."].
Proof.
  intros message.
  assert (Hother : author_id message <> @CREATOR_ID creator7_config) by discriminate.
  split; [exact Hother|].
  split; [|reflexivity].
  apply (@non_creator_commands_change_nothing creator7_config JsonText.alias_json
           calm_env message "amnesty <@42>" worm_world Hother).
Defined.

(** X15. When CREATOR_ID is not configured nobody is the creator, not even an
    author whose id is the empty string, so that every command leaves flags,
    aliases, manual log and data files as they are. *)
Theorem unset_creator_disables_privileges `{Config} `{Json (gmap string string)}
    (env : Env) (message : Message) (raw : string) (w : World) :
  CREATOR_ID = "" ->
  isCreator message = false
  /\ maggots (exec (handleCommand env message raw) w) = maggots w
  /\ aliasMap (exec (handleCommand env message raw) w) = aliasMap w
  /\ manualLog (exec (handleCommand env message raw) w) = manualLog w
  /\ fs (exec (handleCommand env message raw) w) = fs w.
Proof.
  intros Hid.
  assert (Hnc : isCreator message = false) by (unfold isCreator; now rewrite Hid).
  split; [exact Hnc|].
  repeat split; apply handleCommand_non_creator_preserves; auto.
Qed.

Lemma unset_creator_disables_privileges_witness :
  let message :=
    {| author_id := ""; author_bot := false; author_username := "ghost";
       content := "!loadlog all your base"; guild := true; member := None;
       channel_id := "100"; attachments := [] |} in
  @CREATOR_ID default_config = ""
  /\ manualLog (exec (@handleCommand default_config JsonText.alias_json calm_env message
                        "loadlog all your base") initial_world) = manualLog initial_world.
Proof.
  intros message. split; [reflexivity|].
  apply (@unset_creator_disables_privileges default_config JsonText.alias_json
           calm_env message "loadlog all your base" initial_world).
  reflexivity.
Defined.

(** X16. No command, from anyone, writes to the conversation memory or to the
    last-response times: commands (and the answers of [parse]) are never part
    of the recorded conversation and never start a cooldown. *)
Theorem commands_leave_memory_alone `{Config} `{Json (gmap string string)}
    (env : Env) (message : Message) (raw : string) (w : World) :
  memoryMap (exec (handleCommand env message raw) w) = memoryMap w
  /\ lastResponseByChannel (exec (handleCommand env message raw) w)
     = lastResponseByChannel w.
Proof. split; apply handleCommand_preserves_memory; reflexivity. Qed.

Section AliasCommands.
Context `{Config}.
Context `{Json (gmap string string)}.

Lemma handleCommand_alias env message raw cmd rest :
  Js.splitWs (Js.trim raw) = cmd :: rest ->
  Js.toLowerCase cmd = "alias" \/ Js.toLowerCase cmd = "setalias" ->
  handleCommand env message raw = cmd_alias message rest.
Proof.
  intros Hsplit Hcmd. unfold handleCommand. rewrite Hsplit. simpl hd. simpl tail.
  destruct Hcmd as [-> | ->]; reflexivity.
Qed.

Lemma handleCommand_unalias env message raw cmd rest :
  Js.splitWs (Js.trim raw) = cmd :: rest ->
  Js.toLowerCase cmd = "unalias" ->
  handleCommand env message raw = cmd_unalias message rest.
Proof.
  intros Hsplit Hcmd. unfold handleCommand. rewrite Hsplit. simpl hd. simpl tail.
  rewrite Hcmd. reflexivity.
Qed.

End AliasCommands.

(** X17. The creator's [!alias <mention> words...] stores the words, joined by
    single spaces, as the callsign of the mentioned user, replacing any
    earlier callsign, and persists the alias document; it returns normally
    and touches neither flags nor memory. *)
Theorem alias_command_sets_callsign `{Config} `{Json (gmap string string)}
    (env : Env) (message : Message) (raw cmd mention word u : string) (words : list string)
    (w : World) :
  let w' := exec (handleCommand env message raw) w in
  Js.splitWs (Js.trim raw) = cmd :: mention :: word :: words ->
  Js.toLowerCase cmd = "alias" \/ Js.toLowerCase cmd = "setalias" ->
  Js.matchMention mention = Some u ->
  isCreator message = true ->
  fst (handleCommand env message raw w) = Ok tt
  /\ aliasMap w' = <[u := Js.join " " (word :: words)]> (aliasMap w)
  /\ aliasMap w' !! u = Some (Js.join " " (word :: words))
  /\ fs w' !! ALIAS_FILE = Some (stringify (aliasMap w'))
  /\ maggots w' = maggots w
  /\ memoryMap w' = memoryMap w.
Proof.
  intros w' Hsplit Hcmd Hm Hc. subst w'.
  rewrite (handleCommand_alias env message raw cmd _ Hsplit Hcmd).
  unfold exec, cmd_alias, saveAliases, bind, gets, modify, reply, emit.
  rewrite Hc, Hm. cbn [negb tail]. rewrite writeJsonAtomic_run.
  cbn [fst snd aliasMap fs maggots memoryMap with_effect with_fs with_aliasMap].
  split; [reflexivity|]. split; [reflexivity|].
  split; [apply lookup_insert_eq|]. split; [apply lookup_insert_eq|].
  split; reflexivity.
Qed.

Lemma alias_command_sets_callsign_witness :
  let message :=
    {| author_id := "7"; author_bot := false; author_username := "boss";
       content := "!alias <@!42>  Ghost   Actual"; guild := true; member := None;
       channel_id := "100"; attachments := [] |} in
  Js.splitWs (Js.trim "alias <@!42>  Ghost   Actual") = ["alias"; "<@!42>"; "Ghost"; "Actual"]
  /\ Js.matchMention "<@!42>" = Some "42"
  /\ aliasMap (exec (@handleCommand creator7_config JsonText.alias_json calm_env message
                       "alias <@!42>  Ghost   Actual") initial_world) !! "42"
     = Some "Ghost Actual".
Proof.
  intros message. split; [reflexivity|]. split; [reflexivity|].
  apply (@alias_command_sets_callsign creator7_config JsonText.alias_json calm_env message
           "alias <@!42>  Ghost   Actual" "alias" "<@!42>" "Ghost" "42" ["Actual"]
           initial_world); auto.
Defined.

(** X18. The creator's [!unalias <mention>] removes the callsign of the mentioned
    user (a no-op on the map when there was none) and persists the alias
    document; in particular it undoes an earlier [!alias] for that user. *)
Theorem unalias_command_removes_callsign `{Config} `{Json (gmap string string)}
    (env : Env) (message : Message) (raw cmd mention u : string) (more : list string)
    (w : World) :
  let w' := exec (handleCommand env message raw) w in
  Js.splitWs (Js.trim raw) = cmd :: mention :: more ->
  Js.toLowerCase cmd = "unalias" ->
  Js.matchMention mention = Some u ->
  isCreator message = true ->
  fst (handleCommand env message raw w) = Ok tt
  /\ aliasMap w' = delete u (aliasMap w)
  /\ aliasMap w' !! u = None
  /\ (forall u', u' <> u -> aliasMap w' !! u' = aliasMap w !! u')
  /\ fs w' !! ALIAS_FILE = Some (stringify (aliasMap w')).
Proof.
  intros w' Hsplit Hcmd Hm Hc. subst w'.
  rewrite (handleCommand_unalias env message raw cmd _ Hsplit Hcmd).
  unfold exec, cmd_unalias, saveAliases, bind, gets, modify, reply, emit.
  rewrite Hc, Hm. cbn [negb]. rewrite writeJsonAtomic_run.
  cbn [fst snd aliasMap fs with_effect with_fs with_aliasMap].
  split; [reflexivity|]. split; [reflexivity|].
  split; [apply lookup_delete_eq|].
  split; [intros u' Hne; now apply lookup_delete_ne|]. apply lookup_insert_eq.
Qed.

Lemma unalias_command_removes_callsign_witness :
  let message :=
    {| author_id := "7"; author_bot := false; author_username := "boss";
       content := "!unalias <@42>"; guild := true; member := None; channel_id := "100"; attachments := [] |} in
  let w := with_aliasMap (fun m => <["42" := "Ghost"]> m) initial_world in
  Js.splitWs (Js.trim "unalias <@42>") = ["unalias"; "<@42>"]
  /\ aliasMap w !! "42" = Some "Ghost"
  /\ aliasMap (exec (@handleCommand creator7_config JsonText.alias_json calm_env message
                       "unalias <@42>") w) !! "42" = None.
Proof.
  intros message w. split; [reflexivity|]. split; [reflexivity|].
  apply (@unalias_command_removes_callsign creator7_config JsonText.alias_json calm_env
           message "unalias <@42>" "unalias" "<@42>" "42" [] w); auto.
Defined.

(** * Further properties of mentions, the gate and the random picks *)

Lemma spanDigits_digits (s : string) : allDigits (fst (Js.spanDigits s)) = true.
Proof.
  induction s as [|c s IH]; simpl; [reflexivity|].
  destruct (Js.isDigit c) eqn:Hc; [|reflexivity].
  destruct (Js.spanDigits s) as [d r]. simpl in *. now rewrite Hc, IH.
Qed.

Lemma mentionAt_digits (s d : string) :
  Js.mentionAt s = Some d -> Js.truthy d = true /\ allDigits d = true.
Proof.
  unfold Js.mentionAt.
  destruct s as [|c1 s]; [discriminate|].
  destruct c1 as [[] [] [] [] [] [] [] []]; try discriminate.
  destruct s as [|c2 s]; [discriminate|].
  destruct c2 as [[] [] [] [] [] [] [] []]; try discriminate.
  generalize (match s with
              | String "!" r => r
              | _ => s
              end). intros s2.
  pose proof (spanDigits_digits s2) as Hd.
  destruct (Js.spanDigits s2) as [d0 r]. simpl in Hd.
  destruct (Js.truthy d0) eqn:Ht; destruct (Js.startsWith ">" r);
    cbn [andb]; intros Heq; try discriminate Heq.
  injection Heq as <-. now split.
Qed.

(** X22. What the handlers take from a mention is a non-empty string of decimal
    digits: no other text can become a key of the alias map or of the flag
    set through a command. *)
Theorem matchMention_digits (s d : string) :
  Js.matchMention s = Some d -> d <> "" /\ allDigits d = true.
Proof.
  induction s as [|c s IH].
  - intros Heq. discriminate Heq.
  - change (Js.matchMention (String c s))
      with (match Js.mentionAt (String c s) with
            | Some d0 => Some d0
            | None => Js.matchMention s
            end).
    destruct (Js.mentionAt (String c s)) as [d0|] eqn:Hat.
    + intros Heq. injection Heq as <-. apply mentionAt_digits in Hat as [Ht Hd].
      split; [now apply truthy_nonempty | exact Hd].
    + exact IH.
Qed.

Lemma matchMention_digits_witness :
  Js.matchMention "hey <@!4242>, you" = Some "4242"
  /\ "4242" <> "" /\ allDigits "4242" = true.
Proof.
  split; [reflexivity|].
  apply (matchMention_digits "hey <@!4242>, you" "4242"). reflexivity.
Defined.

Lemma spanDigits_all (d rest : string) :
  allDigits d = true ->
  Js.spanDigits (d +:+ String ">" rest) = (d, String ">" rest).
Proof.
  induction d as [|c d IH]; intros Hd.
  - reflexivity.
  - simpl in Hd. apply andb_prop in Hd as [Hc Hd].
    change (String c d +:+ String ">" rest) with (String c (d +:+ String ">" rest)).
    cbn [Js.spanDigits]. rewrite Hc, (IH Hd). reflexivity.
Qed.

(** X23. Both forms of a user mention are recognised: for a non-empty string of
    digits [id], the texts [<@id>] and [<@!id>] give back [id], also when
    more text follows the mention. *)
Theorem matchMention_recognises (id rest : string) :
  id <> "" ->
  allDigits id = true ->
  Js.matchMention ("<@" +:+ id +:+ String ">" rest) = Some id
  /\ Js.matchMention ("<@!" +:+ id +:+ String ">" rest) = Some id.
Proof.
  intros Hne Hd.
  assert (Ht : Js.truthy id = true) by (destruct id; [congruence | reflexivity]).
  assert (Hat : forall s2, s2 = id +:+ String ">" rest ->
            (let '(d, r) := Js.spanDigits s2 in
             if Js.truthy d && Js.startsWith ">" r then Some d else None) = Some id).
  { intros s2 ->. rewrite (spanDigits_all id rest Hd). now rewrite Ht. }
  split.
  - change ("<@" +:+ id +:+ String ">" rest)
      with (String "<" (String "@" (id +:+ String ">" rest))).
    unfold Js.matchMention, Js.mentionAt.
    destruct id as [|c id']; [congruence|].
    change (String c id' +:+ String ">" rest) with (String c (id' +:+ String ">" rest)).
    simpl in Hd. apply andb_prop in Hd as [Hc Hd'].
    destruct c as [[] [] [] [] [] [] [] []]; try discriminate Hc;
      (rewrite (Hat (String _ (id' +:+ String ">" rest)) eq_refl); reflexivity).
  - change ("<@!" +:+ id +:+ String ">" rest)
      with (String "<" (String "@" (String "!" (id +:+ String ">" rest)))).
    unfold Js.matchMention, Js.mentionAt. rewrite (Hat _ eq_refl). reflexivity.
Qed.

Lemma matchMention_recognises_witness :
  "42" <> "" /\ allDigits "42" = true
  /\ Js.matchMention ("<@" +:+ "42" +:+ String ">" "") = Some "42".
Proof.
  split; [discriminate|]. split; [reflexivity|].
  apply (matchMention_recognises "42" ""); [discriminate | reflexivity].
Defined.

(** X24. A message of a non-bot author that contains one of the keywords, in any
    letter case, always passes the gate: neither its length, the random draw
    nor the cooldown matters. *)
Theorem shouldRespond_keyword `{Config}
    (env : Env) (message : Message) (w : World) (k : string) :
  author_bot message = false ->
  k ∈ keywords ->
  Js.includes k (Js.toLowerCase (content message)) = true ->
  shouldRespond env message w = true.
Proof.
  intros Hbot Hk Hin. unfold shouldRespond. rewrite Hbot.
  assert (Hex : existsb (fun k => Js.includes k (Js.toLowerCase (content message)))
                  keywords = true).
  { apply existsb_exists. exists k. split; [now apply list_elem_of_In | exact Hin]. }
  now rewrite Hex.
Qed.

Lemma shouldRespond_keyword_witness :
  let message := message_of_42 None "MAJOR" in
  "maj" ∈ keywords
  /\ Js.includes "maj" (Js.toLowerCase (content message)) = true
  /\ @shouldRespond default_config calm_env message initial_world = true.
Proof.
  intros message.
  assert (Hk : "maj" ∈ keywords) by (unfold keywords; repeat constructor).
  split; [exact Hk|]. split; [reflexivity|].
  apply (@shouldRespond_keyword default_config calm_env message initial_world "maj");
    [reflexivity | exact Hk | reflexivity].
Defined.

(** X25. Chatter, that is a message with no keyword and no question mark, is not
    answered when it is shorter than 15 characters, when the random draw is
    not below RANDOM_CHIME_CHANCE, or when the last response in the channel
    is at most 10 seconds old; a channel without a recorded response counts
    as answered at time 0. *)
Theorem chatter_is_throttled `{Config}
    (env : Env) (message : Message) (w : World) :
  let text := Js.toLowerCase (content message) in
  let last := default 0 (lastResponseByChannel w !! channel_id message) in
  existsb (fun k => Js.includes k text) keywords = false ->
  Js.includes "?" text = false ->
  (String.length text < 15)%nat
  \/ Js.lt (random_chime env) RANDOM_CHIME_CHANCE = false
  \/ now env - last <= 10000 ->
  shouldRespond env message w = false.
Proof.
  intros text last Hkw Hq Hcase. unfold shouldRespond. fold text.
  destruct (author_bot message); [reflexivity|].
  rewrite Hkw, Hq. fold last.
  destruct Hcase as [Hlen | [Hdraw | Hcool]].
  - destruct (Z.of_nat (String.length text) >=? 15) eqn:Hge; [|reflexivity].
    apply Z.geb_le in Hge. lia.
  - rewrite Hdraw, andb_false_r. reflexivity.
  - destruct (_ && _); [|reflexivity].
    destruct (now env - last >? 10000) eqn:Hgt; [|reflexivity].
    apply Z.gtb_lt in Hgt. lia.
Qed.

Lemma chatter_is_throttled_witness :
  let message := message_of_42 None "nothing much happening here today" in
  let w := with_lastResponse (fun m => <["100" := 995]> m) initial_world in
  let env := with_random_degrade (1 # 2) calm_env in
  now env - default 0 (lastResponseByChannel w !! "100") <= 10000
  /\ @shouldRespond default_config env message w = false.
Proof.
  intros message w env. split; [vm_compute; discriminate|].
  apply (@chatter_is_throttled default_config env message w);
    [reflexivity | reflexivity | right; right; vm_compute; discriminate].
Defined.

(** X26. With a draw in [0, 1), as [Math.random] gives, the index computed by
    [Math.floor(draw * length)] is within the list: the pick is an element
    of the list, and the fallback after [||] is not needed. *)
Theorem pick_in_range {A} (draw : Q) (l : list A) :
  l <> [] ->
  (0 <= draw)%Q ->
  (draw < 1)%Q ->
  exists i x, (i < length l)%nat /\ l !! i = Some x /\ pick draw l = Some x.
Proof.
  intros Hne Hlo Hhi. unfold pick.
  set (n := Z.of_nat (length l)).
  assert (Hn : 0 < n) by (destruct l; [congruence | unfold n; simpl; lia]).
  assert (Hge : 0 <= Qfloor (draw * inject_Z n)).
  { change 0 with (Qfloor 0). apply Qfloor_resp_le.
    apply Qmult_le_0_compat; [exact Hlo|].
    change 0%Q with (inject_Z 0). rewrite <- Zle_Qle. lia. }
  assert (Hlt : Qfloor (draw * inject_Z n) < n).
  { rewrite Zlt_Qlt. apply Qle_lt_trans with (draw * inject_Z n)%Q; [apply Qfloor_le|].
    apply Qlt_le_trans with (1 * inject_Z n)%Q.
    - apply Qmult_lt_compat_r; [|exact Hhi].
      change 0%Q with (inject_Z 0). rewrite <- Zlt_Qlt. exact Hn.
    - rewrite Qmult_1_l. apply Qle_refl. }
  rewrite (proj2 (Z.ltb_ge _ _) Hge).
  assert (Hidx : (Z.to_nat (Qfloor (draw * inject_Z n)) < length l)%nat)
    by (subst n; lia).
  destruct (lookup_lt_is_Some_2 l _ Hidx) as [x Hx].
  exists (Z.to_nat (Qfloor (draw * inject_Z n))), x.
  split; [exact Hidx|]. split; exact Hx.
Qed.

Lemma pick_in_range_witness :
  DEGRADE_NAMES <> [] /\ (0 <= 6 # 7)%Q /\ (6 # 7 < 1)%Q
  /\ exists i x, (i < length DEGRADE_NAMES)%nat /\ DEGRADE_NAMES !! i = Some x
                 /\ pick (6 # 7) DEGRADE_NAMES = Some x.
Proof.
  split; [discriminate|]. split; [discriminate|]. split; [reflexivity|].
  apply (pick_in_range (6 # 7) DEGRADE_NAMES); [discriminate | discriminate | reflexivity].
Defined.

Section CommandOutcomes.
Context `{Config}.
Context `{Json (gmap string string)}.

Lemma handleCommand_nick env message raw cmd rest :
  Js.splitWs (Js.trim raw) = cmd :: rest ->
  Js.toLowerCase cmd = "nick" ->
  handleCommand env message raw = cmd_nick env message rest.
Proof.
  intros Hsplit Hcmd. unfold handleCommand. rewrite Hsplit. simpl hd. simpl tail.
  rewrite Hcmd. reflexivity.
Qed.

Lemma handleCommand_loadlog env message raw cmd rest :
  Js.splitWs (Js.trim raw) = cmd :: rest ->
  Js.toLowerCase cmd = "loadlog" ->
  handleCommand env message raw = cmd_loadlog env message rest.
Proof.
  intros Hsplit Hcmd. unfold handleCommand. rewrite Hsplit. simpl hd. simpl tail.
  rewrite Hcmd. reflexivity.
Qed.

Lemma handleCommand_parse env message raw cmd rest :
  Js.splitWs (Js.trim raw) = cmd :: rest ->
  Js.toLowerCase cmd = "parse" ->
  handleCommand env message raw = cmd_parse env message.
Proof.
  intros Hsplit Hcmd. unfold handleCommand. rewrite Hsplit. simpl hd. simpl tail.
  rewrite Hcmd. reflexivity.
Qed.

Ltac returns_more :=
  repeat first
    [ returns_step
    | apply writeJsonAtomic_returns
    | apply collectDocText_returns
    | progress unfold writeFileSync, setManualLog, saveAliases, unmarkMaggot ].

(** An image download reads the network only: how it completes does not
    depend on the world, which it leaves as it is. *)
Lemma fetchImageAsInlineData_pure net url mime :
  exists r, forall w : World, Ingest.fetchImageAsInlineData net url mime w = (r, w).
Proof.
  unfold Ingest.fetchImageAsInlineData, Ingest.fetch, bind, ret, throw.
  destruct (net url) as [res|]; cbn beta iota;
    [destruct (negb (Ingest.ok res))|]; eexists; intros w; reflexivity.
Qed.

Lemma collectImageParts_pure net atts :
  exists r, forall w : World, Ingest.collectImageParts net atts w = (r, w).
Proof.
  induction atts as [|att more [r Hr]]; cbn [Ingest.collectImageParts].
  - eexists. intros w. reflexivity.
  - destruct (Ingest.looksImage att); [|now exists r].
    destruct (fetchImageAsInlineData_pure net (Ingest.att_url att)
                (Ingest.att_contentType att)) as [[part|e] Hpart].
    + destruct r as [parts|e].
      * exists (Ok (part :: parts)). intros w. unfold bind. now rewrite Hpart, Hr.
      * exists (Threw e). intros w. unfold bind. now rewrite Hpart, Hr.
    + exists (Threw e). intros w. unfold bind. now rewrite Hpart.
Qed.

(** [parse] first collects the document text, then the images: it runs to
    its end when the image downloads succeed, and throws the reason of the
    failed one otherwise, in the world the document downloads left. *)
Lemma cmd_parse_outcome env message (w : World) :
  let wd := exec (Ingest.collectDocText (net env) (attachments message)) w in
  match fst (Ingest.collectImageParts (net env) (attachments message) wd) with
  | Ok _ => fst (cmd_parse env message w) = Ok tt
  | Threw reason => cmd_parse env message w = (Threw reason, wd)
  end.
Proof.
  intros wd. unfold cmd_parse.
  destruct (collectDocText_returns (net env) (attachments message) w) as [docText Hdoc].
  rewrite (bind_exec _ _ w docText Hdoc). fold wd.
  destruct (collectImageParts_pure (net env) (attachments message)) as [r Hr].
  rewrite (Hr wd). cbn [fst].
  destruct r as [parts|reason].
  - unfold bind at 1. rewrite Hr. cbv beta iota.
    apply returns_unit. returns_more.
  - unfold bind at 1. now rewrite Hr.
Qed.

(** Every command but [parse] runs to its end. *)
Lemma handleCommand_returns env message raw :
  Js.toLowerCase (hd "" (Js.splitWs (Js.trim raw))) <> "parse" ->
  returns (handleCommand env message raw).
Proof.
  intros Hne. unfold handleCommand.
  destruct (String.eqb_spec (Js.toLowerCase (hd "" (Js.splitWs (Js.trim raw)))) "parse")
    as [Heq|_]; [contradiction|].
  repeat match goal with
         | |- returns (if ?b then _ else _) => destruct b
         end;
    unfold cmd_loadlog, cmd_alias, cmd_unalias, cmd_nick, cmd_createchannel, cmd_amnesty;
    returns_more.
Qed.

End CommandOutcomes.

(** X19. The creator's [!nick <mention> words...] in a guild never throws and
    changes no state of the bot (in particular not the flag of the renamed
    user): it renames the member to the words joined by single spaces and
    confirms, or, when the member cannot be fetched or renamed, replies with
    the reason. *)
Theorem nick_command_reports_outcome `{Config} `{Json (gmap string string)}
    (env : Env) (message : Message) (raw cmd mention word u : string) (words : list string)
    (w : World) :
  let newNick := Js.join " " (word :: words) in
  let w' := exec (handleCommand env message raw) w in
  Js.splitWs (Js.trim raw) = cmd :: mention :: word :: words ->
  Js.toLowerCase cmd = "nick" ->
  Js.matchMention mention = Some u ->
  isCreator message = true ->
  guild message = true ->
  fst (handleCommand env message raw w) = Ok tt
  /\ maggots w' = maggots w
  /\ (can_fetch env u = true -> can_rename env u = true ->
        trace w' = trace w ++
          [SetNickname u (Some newNick);
           Reply ("Nickname for " +:+ mention +:+ " updated to **" +:+ newNick +:+ "**.")])
  /\ (can_fetch env u = false \/ can_rename env u = false ->
        exists reason,
          trace w' = trace w ++ [Reply ("Could not change nickname: " +:+ reason)]).
Proof.
  intros newNick w' Hsplit Hcmd Hm Hc Hg. subst w'.
  rewrite (handleCommand_nick env message raw cmd _ Hsplit Hcmd).
  unfold exec, cmd_nick, try_catch, bind, fetchMember, setNickname, reply, emit, modify.
  rewrite Hc, Hm, Hg. cbn [negb tail]. fold newNick.
  destruct (can_fetch env u) eqn:Hf; destruct (can_rename env u) eqn:Hr;
    cbn [fst snd maggots trace with_effect ret throw].
  - split; [reflexivity|]. split; [reflexivity|]. split.
    + intros _ _. now rewrite <- app_assoc.
    + intros [Hx|Hx]; discriminate Hx.
  - split; [reflexivity|]. split; [reflexivity|]. split; [discriminate|].
    intros _. eexists. reflexivity.
  - split; [reflexivity|]. split; [reflexivity|]. split; [discriminate|].
    intros _. eexists. reflexivity.
  - split; [reflexivity|]. split; [reflexivity|]. split; [discriminate|].
    intros _. eexists. reflexivity.
Qed.

Lemma nick_command_reports_outcome_witness :
  let message :=
    {| author_id := "7"; author_bot := false; author_username := "boss";
       content := "!nick <@42> Sir   Bob"; guild := true; member := None;
       channel_id := "100"; attachments := [] |} in
  Js.splitWs (Js.trim "nick <@42> Sir   Bob") = ["nick"; "<@42>"; "Sir"; "Bob"]
  /\ can_rename denied_env "42" = false
  /\ exists reason,
       trace (exec (@handleCommand creator7_config JsonText.alias_json denied_env message
                      "nick <@42> Sir   Bob") worm_world)
       = trace worm_world ++ [Reply ("Could not change nickname: " +:+ reason)].
Proof.
  intros message. split; [reflexivity|]. split; [reflexivity|].
  apply (@nick_command_reports_outcome creator7_config JsonText.alias_json denied_env message
           "nick <@42> Sir   Bob" "nick" "<@42>" "Sir" "42" ["Bob"] worm_world);
    try reflexivity.
  now right.
Defined.

(** X20. The creator's [!loadlog]: text after the command word wins over
    attachments, which are then not even downloaded; without it the text
    that [collectDocText] extracts from the attachments is used; when both
    are empty the log stays as it was.  A new log replaces the old one as a
    whole, in the global and in the log file. *)
Theorem loadlog_command_sets_log `{Config} `{Json (gmap string string)}
    (env : Env) (message : Message) (raw cmd : string) (rest : list string) (w : World) :
  let text := Js.trim (Js.join " " rest) in
  let w' := exec (handleCommand env message raw) w in
  Js.splitWs (Js.trim raw) = cmd :: rest ->
  Js.toLowerCase cmd = "loadlog" ->
  isCreator message = true ->
  fst (handleCommand env message raw w) = Ok tt
  /\ (Js.truthy text = true ->
        manualLog w' = text /\ fs w' !! MANUAL_LOG_PATH = Some text
        /\ trace w' = trace w ++ [Reply "Manual log updated."])
  /\ (Js.truthy text = false ->
        exists docText,
          fst (Ingest.collectDocText (net env) (attachments message) w) = Ok docText
          /\ (Js.truthy docText = true ->
                manualLog w' = docText /\ fs w' !! MANUAL_LOG_PATH = Some docText)
          /\ (Js.truthy docText = false ->
                manualLog w' = manualLog w /\ fs w' = fs w)).
Proof.
  intros text w' Hsplit Hcmd Hc. subst w'.
  rewrite (handleCommand_loadlog env message raw cmd _ Hsplit Hcmd).
  unfold cmd_loadlog. rewrite Hc. cbn [negb]. fold text.
  destruct (Js.truthy text) eqn:Ht.
  - unfold exec, setManualLog, bind, writeFileSync, reply, emit, modify, ret.
    rewrite Ht. cbn [negb fst snd manualLog fs trace with_effect with_manualLog with_fs].
    split; [reflexivity|]. split; [|discriminate].
    intros _. split; [reflexivity|]. split; [apply lookup_insert_eq | reflexivity].
  - destruct (collectDocText_returns (net env) (attachments message) w) as [docText Hdoc].
    pose proof (collectDocText_preserves manualLog (net env) (attachments message)
                  (fun _ _ => eq_refl) w) as Hlog.
    pose proof (collectDocText_preserves fs (net env) (attachments message)
                  (fun _ _ => eq_refl) w) as Hfs.
    unfold exec. rewrite (bind_exec _ _ w docText Hdoc).
    unfold exec in *.
    set (wd := snd (Ingest.collectDocText (net env) (attachments message) w)) in *.
    unfold setManualLog, bind, writeFileSync, reply, emit, modify.
    destruct (Js.truthy docText) eqn:Hd;
      cbn [negb fst snd manualLog fs with_effect with_manualLog with_fs].
    + split; [reflexivity|]. split; [discriminate|].
      intros _. exists docText. split; [exact Hdoc|]. split; [|now rewrite Hd].
      intros _. split; [reflexivity | apply lookup_insert_eq].
    + split; [reflexivity|]. split; [discriminate|].
      intros _. exists docText. split; [exact Hdoc|]. split; [now rewrite Hd|].
      intros _. split; [exact Hlog | exact Hfs].
Qed.

Lemma loadlog_command_sets_log_witness :
  let message :=
    {| author_id := "7"; author_bot := false; author_username := "boss";
       content := "!loadlog  convoy at  dawn "; guild := true; member := None;
       channel_id := "100"; attachments := [] |} in
  Js.splitWs (Js.trim "loadlog  convoy at  dawn ") = ["loadlog"; "convoy"; "at"; "dawn"]
  /\ Js.truthy (Js.trim (Js.join " " ["convoy"; "at"; "dawn"])) = true
  /\ manualLog (exec (@handleCommand creator7_config JsonText.alias_json calm_env message
                        "loadlog  convoy at  dawn ") initial_world) = "convoy at dawn".
Proof.
  intros message. split; [reflexivity|]. split; [reflexivity|].
  apply (@loadlog_command_sets_log creator7_config JsonText.alias_json calm_env message
           "loadlog  convoy at  dawn " "loadlog" ["convoy"; "at"; "dawn"] initial_world);
    reflexivity.
Defined.

(** X21. Which failures the command handler catches and which it lets through.
    Every command other than [parse] runs to its end whatever the member
    fetch, the rename, the channel creation and the document downloads do.
    [parse] first collects the document text, which only logs a warning for
    each failed document; then, when an image download fails, it throws the
    reason of that download, without a reply, without a call of the
    generation backend, and with nothing but those warnings added to the
    world; when the image downloads succeed it runs to its end whatever
    the backend does. *)
Theorem parse_lets_image_failure_through `{Config} `{Json (gmap string string)}
    (env : Env) (message : Message) (raw : string) (w : World) :
  let lower := Js.toLowerCase (hd "" (Js.splitWs (Js.trim raw))) in
  let wd := exec (Ingest.collectDocText (net env) (attachments message)) w in
  (lower <> "parse" -> fst (handleCommand env message raw w) = Ok tt)
  /\ (lower = "parse" ->
        match fst (Ingest.collectImageParts (net env) (attachments message) wd) with
        | Ok _ => fst (handleCommand env message raw w) = Ok tt
        | Threw reason => handleCommand env message raw w = (Threw reason, wd)
        end)
  /\ maggots wd = maggots w /\ aliasMap wd = aliasMap w /\ manualLog wd = manualLog w
  /\ fs wd = fs w /\ memoryMap wd = memoryMap w
  /\ lastResponseByChannel wd = lastResponseByChannel w
  /\ exists warnings, trace wd = trace w ++ warnings /\ Forall (fun e => is_warning e = true) warnings.
Proof.
  intros lower wd. split; [|split].
  - intros Hne. now apply returns_unit, handleCommand_returns.
  - intros Hparse.
    destruct (Js.splitWs (Js.trim raw)) as [|cmd rest] eqn:Hsplit; [discriminate Hparse|].
    rewrite (handleCommand_parse env message raw cmd rest Hsplit Hparse).
    apply cmd_parse_outcome.
  - repeat (split; [apply collectDocText_preserves; reflexivity|]).
    apply collectDocText_emits. now intros m.
Qed.

Lemma parse_lets_image_failure_through_witness :
  let report :=
    {| Ingest.att_name := Some "report.pdf"; Ingest.att_contentType := None;
       Ingest.att_url := "https://cdn.example/report.pdf" |} in
  let photo :=
    {| Ingest.att_name := Some "photo.png"; Ingest.att_contentType := None;
       Ingest.att_url := "https://cdn.example/photo.png" |} in
  let message :=
    {| author_id := "42"; author_bot := false; author_username := "bob";
       content := "!parse"; guild := true; member := None;
       channel_id := "100"; attachments := [report; photo] |} in
  Js.toLowerCase (hd "" (Js.splitWs (Js.trim "parse"))) = "parse"
  /\ @handleCommand default_config JsonText.alias_json calm_env message "parse" initial_world
     = (Threw "fetch failed",
        with_effect (ConsoleWarn "doc parse error: fetch failed") initial_world).
Proof.
  intros report photo message. split; [reflexivity|].
  apply (proj1 (proj2 (@parse_lets_image_failure_through default_config JsonText.alias_json
                         calm_env message "parse" initial_world))).
  reflexivity.
Defined.

(** * Properties of the attachment helpers *)

Lemma toLowerCase_app (a b : string) :
  Js.toLowerCase (a +:+ b) = Js.toLowerCase a +:+ Js.toLowerCase b.
Proof.
  induction a as [|c a IH]; [reflexivity|].
  change (String c a +:+ b) with (String c (a +:+ b)).
  cbn [Js.toLowerCase]. rewrite IH. reflexivity.
Qed.

Lemma rev_onto_app (a b acc : string) :
  Ingest.rev_onto (a +:+ b) acc = Ingest.rev_onto b (Ingest.rev_onto a acc).
Proof.
  revert acc. induction a as [|c a IH]; intros acc; [reflexivity|].
  change (String c a +:+ b) with (String c (a +:+ b)). cbn [Ingest.rev_onto]. apply IH.
Qed.

(** X27. The MIME type is decided by the extension alone, in any letter case:
    a name that ends with a dot and one of the six extensions of the table
    gets the table's type, so that [.jpg] and [.jpeg] both give
    [image/jpeg]. *)
Theorem guessMimeFromName_by_extension (base ext e m : string) :
  (e, m) ∈ Ingest.mimeTable ->
  Js.toLowerCase ext = e ->
  Ingest.guessMimeFromName (Some (base +:+ "." +:+ ext)) = Some m.
Proof.
  intros Hin Hext.
  assert (Hl : Js.toLowerCase (base +:+ "." +:+ ext) = Js.toLowerCase base +:+ "." +:+ e)
    by (rewrite !toLowerCase_app, Hext; reflexivity).
  unfold Ingest.guessMimeFromName, Ingest.imageExtension.
  change (default "" (Some (base +:+ "." +:+ ext))) with (base +:+ "." +:+ ext).
  cbv zeta. rewrite Hl. unfold Ingest.endsWith. rewrite !rev_onto_app.
  apply list_elem_of_In in Hin. unfold Ingest.mimeTable in Hin. simpl in Hin.
  repeat (destruct Hin as [Heq | Hin]; [injection Heq as <- <-; reflexivity|]).
  destruct Hin.
Qed.

Lemma guessMimeFromName_by_extension_witness :
  ("jpeg", "image/jpeg") ∈ Ingest.mimeTable
  /\ Js.toLowerCase "JpEg" = "jpeg"
  /\ Ingest.guessMimeFromName (Some ("https://cdn.example/recon photo" +:+ "." +:+ "JpEg"))
     = Some "image/jpeg".
Proof.
  assert (Hin : ("jpeg", "image/jpeg") ∈ Ingest.mimeTable)
    by (unfold Ingest.mimeTable; repeat constructor).
  split; [exact Hin|]. split; [reflexivity|].
  apply (guessMimeFromName_by_extension "https://cdn.example/recon photo" "JpEg"
           "jpeg" "image/jpeg" Hin). reflexivity.
Defined.

(** X28. Document ingestion never throws, whatever the network does: neither for
    one attachment nor for all attachments of a message.  An attachment that
    is neither a PDF nor text by its content type or name yields the empty
    text without any download and without a log line. *)
Theorem document_ingest_never_throws
    (net : Ingest.Net) (att : Ingest.Attachment) (atts : list Ingest.Attachment) (w : World) :
  (exists t, fst (Ingest.extractDocTextFromAttachment net att w) = Ok t)
  /\ (exists t, fst (Ingest.collectDocText net atts w) = Ok t)
  /\ (Ingest.isPdf att = false -> Ingest.isText att = false ->
        Ingest.extractDocTextFromAttachment net att w = (Ok "", w)).
Proof.
  split; [apply extractDoc_returns|]. split.
  - apply collectDocText_returns.
  - unfold Ingest.isPdf, Ingest.isText, Ingest.extractDocTextFromAttachment.
    intros Hpdf Htext. unfold bind, try_catch. now rewrite Hpdf, Htext.
Qed.

Lemma document_ingest_never_throws_witness :
  let photo := {| Ingest.att_name := Some "recon.PNG";
                  Ingest.att_contentType := Some "image/png";
                  Ingest.att_url := "https://cdn.example/recon.PNG" |} in
  Ingest.isPdf photo = false /\ Ingest.isText photo = false
  /\ Ingest.extractDocTextFromAttachment Ingest.offline photo initial_world
     = (Ok "", initial_world).
Proof.
  intros photo. split; [reflexivity|]. split; [reflexivity|].
  apply (document_ingest_never_throws Ingest.offline photo [] initial_world); reflexivity.
Defined.

(** X29. How a download that answers with an error status is treated depends on
    the kind of document.  For a PDF (content type or [.pdf] name, which
    wins over a text type) an error status, like a body that is no PDF,
    gives the empty text and a warning; a good PDF gives the text items of
    each page joined by spaces, a blank line after each page, trimmed.  For
    a text attachment the body is used, trimmed, whatever the status. *)
Theorem document_text_by_kind
    (net : Ingest.Net) (att : Ingest.Attachment) (r : Ingest.HttpResponse) (w : World) :
  net (Ingest.att_url att) = Some r ->
  (Ingest.isPdf att = true -> Ingest.ok r = false ->
     exists warning,
       Ingest.extractDocTextFromAttachment net att w
       = (Ok "", with_effect (ConsoleWarn warning) w))
  /\ (Ingest.isPdf att = true -> Ingest.ok r = true -> Ingest.body_pdf r = None ->
        exists warning,
          Ingest.extractDocTextFromAttachment net att w
          = (Ok "", with_effect (ConsoleWarn warning) w))
  /\ (forall pages,
        Ingest.isPdf att = true -> Ingest.ok r = true -> Ingest.body_pdf r = Some pages ->
        Ingest.extractDocTextFromAttachment net att w
        = (Ok (Js.trim (foldl (fun text items => text +:+ (Js.join " " items +:+ nl +:+ nl))
                              "" pages)), w))
  /\ (Ingest.isPdf att = false -> Ingest.isText att = true ->
        Ingest.extractDocTextFromAttachment net att w = (Ok (Js.trim (Ingest.body_text r)), w)).
Proof.
  intros Hnet.
  unfold Ingest.isPdf, Ingest.isText, Ingest.extractDocTextFromAttachment,
    Ingest.fetchBuffer, Ingest.pdfExtractText, Ingest.fetch, bind, try_catch.
  repeat split.
  - intros Hpdf Hok. rewrite Hpdf, Hnet. cbn. rewrite Hok. cbn. eexists. reflexivity.
  - intros Hpdf Hok Hbody. rewrite Hpdf, Hnet. cbn. rewrite Hok. cbn. rewrite Hbody. cbn.
    eexists. reflexivity.
  - intros pages Hpdf Hok Hbody. rewrite Hpdf, Hnet. cbn. rewrite Hok. cbn.
    rewrite Hbody. reflexivity.
  - intros Hpdf Htext. rewrite Hpdf, Htext, Hnet. reflexivity.
Qed.

Lemma document_text_by_kind_witness :
  let notes := {| Ingest.att_name := Some "Notes.TXT"; Ingest.att_contentType := None;
                  Ingest.att_url := "https://cdn.example/Notes.TXT" |} in
  let gone := {| Ingest.ok := false; Ingest.status_line := "404 Not Found";
                 Ingest.header_contentType := Some "text/html";
                 Ingest.body_text := "  no such file  "; Ingest.body_base64 := "";
                 Ingest.body_pdf := None |} in
  let net := Ingest.serving "https://cdn.example/Notes.TXT" gone in
  net (Ingest.att_url notes) = Some gone
  /\ Ingest.isPdf notes = false /\ Ingest.isText notes = true
  /\ Ingest.extractDocTextFromAttachment net notes initial_world
     = (Ok "no such file", initial_world).
Proof.
  intros notes gone net. split; [reflexivity|]. split; [reflexivity|]. split; [reflexivity|].
  apply (document_text_by_kind net notes gone initial_world); reflexivity.
Defined.

Lemma fetchImage_ok (net : Ingest.Net) (url : string) (fb : option string)
    (r : Ingest.HttpResponse) (w : World) :
  net url = Some r -> Ingest.ok r = true ->
  Ingest.fetchImageAsInlineData net url fb w =
    (Ok {| Ingest.data := Ingest.body_base64 r;
           Ingest.mimeType :=
             Js.opt_or_else (Ingest.header_contentType r)
               (Js.opt_or_else fb
                  (Js.opt_or_else (Ingest.guessMimeFromName (Some url)) "image/jpeg")) |},
     w).
Proof.
  intros Hnet Hok. unfold Ingest.fetchImageAsInlineData, Ingest.fetch, bind.
  rewrite Hnet. cbn. now rewrite Hok.
Qed.

Lemma opt_or_else_truthy (a : option string) (b : string) :
  Js.truthy b = true -> Js.truthy (Js.opt_or_else a b) = true.
Proof.
  intros Hb. unfold Js.opt_or_else, Js.or_else. destruct a as [s|]; [|exact Hb].
  destruct (Js.truthy s) eqn:Hs; assumption.
Qed.

(** X30. Image ingestion downloads the attachments that look like images (an
    [image/] content type, or a name with an image extension) and no others.
    When each of them downloads with a good status, there is one part per
    image, in order, each with a non-empty MIME type; when the first image
    cannot be downloaded the whole collection throws. *)
Theorem image_ingest_all_or_nothing
    (net : Ingest.Net) (atts : list Ingest.Attachment) (w : World) :
  (Forall (fun att => Ingest.looksImage att = true ->
                      exists r, net (Ingest.att_url att) = Some r /\ Ingest.ok r = true) atts ->
     exists parts,
       Ingest.collectImageParts net atts w = (Ok parts, w)
       /\ length parts = length (filter (fun att => Ingest.looksImage att = true) atts)
       /\ Forall (fun p => Js.truthy (Ingest.mimeType p) = true) parts)
  /\ (forall att more,
        atts = att :: more -> Ingest.looksImage att = true ->
        net (Ingest.att_url att) = None
        \/ (exists r, net (Ingest.att_url att) = Some r /\ Ingest.ok r = false) ->
        exists reason, Ingest.collectImageParts net atts w = (Threw reason, w)).
Proof.
  split.
  - induction atts as [|att atts IH]; intros Hall.
    + exists []. repeat split; constructor.
    + apply Forall_cons in Hall as [Hatt Hall]. destruct (IH Hall) as (parts & Hrun & Hlen & Hmime).
      cbn [Ingest.collectImageParts]. destruct (Ingest.looksImage att) eqn:Hlook.
      * destruct (Hatt eq_refl) as (r & Hnet & Hok).
        unfold bind. rewrite (fetchImage_ok net _ _ r w Hnet Hok), Hrun.
        eexists. split; [reflexivity|]. split.
        -- rewrite filter_cons_True by exact Hlook. cbn [length]. now rewrite Hlen.
        -- constructor; [|exact Hmime]. cbn [Ingest.mimeType].
           now do 3 apply opt_or_else_truthy.
      * exists parts. split; [exact Hrun|]. split; [|exact Hmime].
        rewrite filter_cons_False by (rewrite Hlook; discriminate). exact Hlen.
  - intros att more -> Hlook Hfail. cbn [Ingest.collectImageParts]. rewrite Hlook.
    unfold bind, Ingest.fetchImageAsInlineData, Ingest.fetch.
    destruct Hfail as [Hnet | (r & Hnet & Hok)]; rewrite Hnet; cbn.
    + eexists. reflexivity.
    + rewrite Hok. cbn. eexists. reflexivity.
Qed.

Lemma image_ingest_all_or_nothing_witness :
  let photo := {| Ingest.att_name := Some "recon.PNG"; Ingest.att_contentType := None;
                  Ingest.att_url := "https://cdn.example/recon.PNG" |} in
  Ingest.looksImage photo = true
  /\ Ingest.offline (Ingest.att_url photo) = None
  /\ exists reason,
       Ingest.collectImageParts Ingest.offline [photo] initial_world
       = (Threw reason, initial_world).
Proof.
  intros photo. split; [reflexivity|]. split; [reflexivity|].
  apply (proj2 (image_ingest_all_or_nothing Ingest.offline [photo] initial_world)
           photo []); [reflexivity | reflexivity | now left].
Defined.
